(** * pulsar.async: the mailbox protocol and the stream transport

    A shallow embedding of [pulsar/async/stream.py] and
    [pulsar/async/mailbox.py].  Python objects become records, mutation
    becomes explicit state passing, exceptions become the [Raise] branch of
    [result], and everything the code asks of its environment (the socket,
    the event loop, the command registry, the id generator) is either an
    oracle stored in the state or a variable of the enclosing section. *)

From stdpp Require Import base option list strings gmap pretty.
From Stdlib Require Import ZArith Ascii Strings.Byte.

Local Open Scope string_scope.
Local Open Scope list_scope.
Local Open Scope nat_scope.

(** ** Python exceptions and results *)

(** The exception classes the two modules raise or catch.  [NameError] and
    [AttributeError] carry the name that failed to resolve. *)
Inductive exn : Type :=
| ProtocolError (msg : string)
| CommandError (msg : string)
| KeyError (msg : string)
| TypeError (msg : string)
| ValueError (msg : string)
| IndexError (msg : string)
| AttributeError (attr : string)
| NameError (name : string)
| NotImplementedError
| IOError (msg : string)
| socket_error (errno : option Z) (strerror : string)
| PicklingError (msg : string)
| AlreadyCalledError
| KeyboardInterrupt.

(** [except Exception] catches everything but the [BaseException]-only
    classes. *)
Definition is_Exception (e : exn) : bool :=
  match e with
  | KeyboardInterrupt => false
  | _ => true
  end.

(** [except IOError]: [socket.error] is a subclass of [IOError]. *)
Definition is_IOError (e : exn) : bool :=
  match e with
  | IOError _ | socket_error _ _ => true
  | _ => false
  end.

Definition is_socket_error (e : exn) : bool :=
  match e with
  | socket_error _ _ => true
  | _ => false
  end.

Definition is_ProtocolError (e : exn) : bool :=
  match e with
  | ProtocolError _ => true
  | _ => false
  end.

(** [str(exc)] for the socket errors [create_connection] collects. *)
Definition str (e : exn) : string :=
  match e with
  | socket_error (Some n) m => "[Errno " +:+ pretty n +:+ "] " +:+ m
  | socket_error None m => m
  | ProtocolError m | CommandError m | KeyError m | TypeError m
  | ValueError m | IndexError m | IOError m | PicklingError m => m
  | AttributeError a => a
  | NameError n => n
  | NotImplementedError | AlreadyCalledError | KeyboardInterrupt => ""
  end.

Inductive result (A : Type) : Type :=
| Ret (a : A)
| Raise (e : exn).
Arguments Ret {A} a.
Arguments Raise {A} e.

Definition raised {A} (r : result A) : option exn :=
  match r with
  | Ret _ => None
  | Raise e => Some e
  end.

(** Name resolution: a name that is neither a local of the function nor
    bound in the module (nor a builtin) raises [NameError] when loaded. *)
Definition name_bound (scope : list string) (name : string) : bool :=
  bool_decide (name ∈ scope).

Abbreviation bytes := (list byte).

(** A byte string written as text, as in [b'...']. *)
Definition bs (s : string) : bytes := String.list_byte_of_string s.

(** Python's [data[i:j]] on a byte string. *)
Definition slice (data : bytes) (i j : nat) : bytes :=
  take (j - i) (drop i data).

(** Python's [range(start, stop, step)] for a positive [step]: the indices
    [start], [start + step], ... below [stop].  [fuel] bounds the number of
    indices; [stop] of them is always enough. *)
Fixpoint range_from (fuel start stop step : nat) : list nat :=
  match fuel with
  | O => []
  | S fuel' =>
      if start <? stop then start :: range_from fuel' (start + step) stop step
      else []
  end.

Definition range (start stop step : nat) : list nat :=
  range_from stop start stop step.

(** * The stream transport ([pulsar/async/stream.py]) *)

Module Stream.

(** Names bound at module level in [stream.py] (imports, classes and
    functions). *)
Definition module_globals : list string :=
  ["os"; "sys"; "socket"; "ssl"; "TRY_WRITE_AGAIN"; "TRY_READ_AGAIN";
   "ACCEPT_ERRORS"; "EWOULDBLOCK"; "EPERM"; "merge_prefix";
   "NUMBER_ACCEPTS"; "multi_async"; "Deferred"; "SocketTransport";
   "WRITE_BUFFER_MAX_SIZE"; "AF_INET6"; "SocketStreamTransport";
   "SocketStreamSslTransport"; "create_connection"; "start_serving";
   "sock_connect"; "sock_accept"; "sock_accept_connection"].

(** Methods [SocketStreamTransport] defines itself. *)
Definition own_methods : list string :=
  ["pause"; "resume"; "pause_writing"; "resume_writing"; "write";
   "writelines"; "_ready_write"; "_read_ready"].

(** A bound method handed to the event loop. *)
Inductive callback : Type :=
| cb_own (name : string)
| cb_inherited (name : string).

(** What one [sock.send] call does: the kernel takes at most [n] bytes, or
    the call raises. *)
Inductive send_outcome : Type :=
| Sent (n : nat)
| SendRaise (e : exn).

Inductive recv_outcome : Type :=
| Recv (chunk : bytes)
| RecvRaise (e : exn).

(** What the transport does to its collaborators, in order. *)
Inductive event : Type :=
| SockSend (data : bytes)
| DataReceived (chunk : bytes)
| EofReceived
| Close
| Abort (e : exn)
| Warning (msg : string)
| AddWriter (cb : callback)
| RemoveWriter
| CallSoon (cb : callback)
| Invoke (cb : callback) (arg : bytes).

(** One [SocketStreamTransport] together with its socket.  [sock_send] and
    [sock_recv] are the outcomes of the socket's future [send] and [recv]
    calls (an exhausted list is a socket that would block); [trace] records
    every effect on the socket, the protocol and the event loop. *)
Record transport : Type := Transport {
  closed : bool;
  _closing : bool;
  _paused_reading : bool;
  _paused_writing : bool;
  _read_buffer : list bytes;
  _write_buffer : list bytes;
  sock_send : list send_outcome;
  sock_recv : list recv_outcome;
  trace : list event
}.

Definition set_closed (v : bool) (t : transport) : transport :=
  Transport v (_closing t) (_paused_reading t) (_paused_writing t)
            (_read_buffer t) (_write_buffer t) (sock_send t) (sock_recv t)
            (trace t).

Definition set_paused_reading (v : bool) (t : transport) : transport :=
  Transport (closed t) (_closing t) v (_paused_writing t) (_read_buffer t)
            (_write_buffer t) (sock_send t) (sock_recv t) (trace t).

Definition set_paused_writing (v : bool) (t : transport) : transport :=
  Transport (closed t) (_closing t) (_paused_reading t) v (_read_buffer t)
            (_write_buffer t) (sock_send t) (sock_recv t) (trace t).

Definition set_read_buffer (v : list bytes) (t : transport) : transport :=
  Transport (closed t) (_closing t) (_paused_reading t) (_paused_writing t) v
            (_write_buffer t) (sock_send t) (sock_recv t) (trace t).

Definition set_write_buffer (v : list bytes) (t : transport) : transport :=
  Transport (closed t) (_closing t) (_paused_reading t) (_paused_writing t)
            (_read_buffer t) v (sock_send t) (sock_recv t) (trace t).

Definition set_sock_send (v : list send_outcome) (t : transport) : transport :=
  Transport (closed t) (_closing t) (_paused_reading t) (_paused_writing t)
            (_read_buffer t) (_write_buffer t) v (sock_recv t) (trace t).

Definition set_sock_recv (v : list recv_outcome) (t : transport) : transport :=
  Transport (closed t) (_closing t) (_paused_reading t) (_paused_writing t)
            (_read_buffer t) (_write_buffer t) (sock_send t) v (trace t).

Definition emit (evs : list event) (t : transport) : transport :=
  Transport (closed t) (_closing t) (_paused_reading t) (_paused_writing t)
            (_read_buffer t) (_write_buffer t) (sock_send t) (sock_recv t)
            (trace t ++ evs).

(** The bytes the socket accepted, oldest first. *)
Fixpoint wire_of (tr : list event) : bytes :=
  match tr with
  | [] => []
  | SockSend d :: tr' => d ++ wire_of tr'
  | _ :: tr' => wire_of tr'
  end.

Definition wire (t : transport) : bytes := wire_of (trace t).

(** The chunks handed to [protocol.data_received], oldest first. *)
Fixpoint delivered_of (tr : list event) : list bytes :=
  match tr with
  | [] => []
  | DataReceived c :: tr' => c :: delivered_of tr'
  | _ :: tr' => delivered_of tr'
  end.

Definition delivered (t : transport) : list bytes := delivered_of (trace t).

(** The event loop's writer registration for the socket. *)
Fixpoint writer_of (tr : list event) (acc : option callback) : option callback :=
  match tr with
  | [] => acc
  | AddWriter cb :: tr' => writer_of tr' (Some cb)
  | RemoveWriter :: tr' => writer_of tr' None
  | _ :: tr' => writer_of tr' acc
  end.

Definition writer (t : transport) : option callback := writer_of (trace t) None.

(** Modelled from the spec: [merge_prefix] lives in [pulsar.utils.structures],
    which is not under src/.  "The sent prefix is trimmed from the chunk
    (remaining bytes stay at the queue head)": after [merge_prefix deque size]
    the first entry of the queue holds the first [size] bytes of the queue
    and the bytes after them keep their place behind it.  [split_prefix]
    gathers the prefix and the rest of the queue. *)
Fixpoint split_prefix (deque : list bytes) (remaining : nat) : bytes * list bytes :=
  match deque with
  | [] => ([], [])
  | chunk :: deque' =>
      if remaining =? 0 then ([], deque)
      else if remaining <? length chunk
           then (take remaining chunk, drop remaining chunk :: deque')
           else let '(prefix, rest) := split_prefix deque' (remaining - length chunk) in
                (chunk ++ prefix, rest)
  end.

Definition merge_prefix (deque : list bytes) (size : nat) : list bytes :=
  let '(prefix, rest) := split_prefix deque size in
  prefix :: rest.

(** [deque.popleft()] *)
Definition popleft (deque : list bytes) : list bytes := tail deque.

(** What a method of the protocol does when the transport calls it: it may
    call back into the transport, so it is given the transport and hands it
    back, and it returns or raises. *)
Definition on_data : Type := bytes → transport → result unit * transport.
Definition on_eof : Type := transport → result unit * transport.

Section Transport.

(** Constants and the base class this module imports and src/ does not
    hold: the maximum size of one queued chunk, the error numbers that mean
    "try again", and which of the attribute names the class does not define
    itself its base class [SocketTransport] provides. *)
Variable WRITE_BUFFER_MAX_SIZE : nat.
Variable TRY_WRITE_AGAIN : list Z.
Variable EWOULDBLOCK : Z.
Variable inherited : string → bool.

(** The protocol the transport feeds, which src/ does not hold either: what
    [self._protocol.data_received(chunk)] and [self._protocol.eof_received()]
    do when they are called. *)
Variable data_received : on_data.
Variable eof_received : on_eof.

(** [self.<name>] for a method: the class's own methods first, then the base
    class. *)
Definition getattr (name : string) : result callback :=
  if bool_decide (name ∈ own_methods) then Ret (cb_own name)
  else if inherited name then Ret (cb_inherited name)
  else Raise (AttributeError name).

(** Modelled from the spec: [_check_closed] belongs to the base class
    [SocketTransport], which is not under src/, and the spec only knows a
    transport as open or closed.  Going by its name it is the closed-state
    check of [write]: it raises once the transport is closed and does
    nothing else. *)
Definition _check_closed (t : transport) : result unit :=
  if closed t then Raise (IOError "Transport is closed") else Ret tt.

(** Modelled from the spec: the [writing] property belongs to the base class
    [SocketTransport], which is not under src/.  "If nothing is currently
    in-flight": the transport is writing while its queue holds data. *)
Definition writing (t : transport) : bool :=
  match _write_buffer t with
  | [] => false
  | _ :: _ => true
  end.

(** Modelled from the spec: [abort] belongs to the base class
    [SocketTransport], which is not under src/.  "Any unexpected socket
    error aborts the connection rather than being retried" and "socket I/O
    failure aborts the transport, which then notifies the protocol's
    connection-lost hook": the transport is closed, what is still queued is
    dropped, never to be sent, and the abort is recorded with its cause. *)
Definition abort (exc : exn) (t : transport) : transport :=
  emit [Abort exc] (set_write_buffer [] (set_closed true t)).

(** [e.args[0] in TRY_WRITE_AGAIN] *)
Definition try_write_again (e : exn) : bool :=
  match e with
  | socket_error (Some n) _ => bool_decide (n ∈ TRY_WRITE_AGAIN)
  | _ => false
  end.

(** [pause] *)
Definition pause (t : transport) : transport :=
  if negb (_paused_reading t) then set_paused_reading true t else t.

(** One turn of the loop of [resume]: [self._data_received(chunk)].  The
    callee is looked up on the transport, then the argument [chunk] is
    loaded: it is no local of [resume] (those are [self], [buffer] and
    [data]), so it is looked up among the module's names. *)
Definition resume_body (data : bytes) (t : transport) : result unit * transport :=
  match getattr "_data_received" with
  | Raise e => (Raise e, t)
  | Ret f =>
      if name_bound module_globals "chunk"
      then (Ret tt, emit [Invoke f data] t)
      else (Raise (NameError "chunk"), t)
  end.

(** A [for] loop whose body may raise. *)
Fixpoint for_each {A} (body : A → transport → result unit * transport)
    (l : list A) (t : transport) : result unit * transport :=
  match l with
  | [] => (Ret tt, t)
  | x :: l' =>
      match body x t with
      | (Ret _, t') => for_each body l' t'
      | (Raise e, t') => (Raise e, t')
      end
  end.

(** [resume] *)
Definition resume (t : transport) : result unit * transport :=
  if _paused_reading t then
    let t := set_paused_reading false t in
    let buffer := _read_buffer t in
    let t := set_read_buffer [] t in
    for_each resume_body buffer t
  else (Ret tt, t).

(** [pause_writing] *)
Definition pause_writing (t : transport) : transport :=
  if negb (_paused_writing t)
  then emit [RemoveWriter] (set_paused_writing true t)
  else t.

(** [resume_writing]: the callback handed to [add_writer] is
    [self._write_ready]. *)
Definition resume_writing (t : transport) : result unit * transport :=
  if _paused_writing t then
    match _write_buffer t with
    | _ :: _ =>
        match getattr "_write_ready" with
        | Raise e => (Raise e, t)
        | Ret cb => (Ret tt, set_paused_writing false (emit [AddWriter cb] t))
        end
    | [] => (Ret tt, set_paused_writing false t)
    end
  else (Ret tt, t).

(** The pieces [write] appends for [data]: the slices
    [data[i:i+WRITE_BUFFER_MAX_SIZE]] for [i] in
    [range(0, len(data), WRITE_BUFFER_MAX_SIZE)] when the data is longer
    than the maximum, the data itself otherwise.  [range] refuses a step of
    zero. *)
Definition pieces (data : bytes) : result (list bytes) :=
  if WRITE_BUFFER_MAX_SIZE <? length data then
    if WRITE_BUFFER_MAX_SIZE =? 0
    then Raise (ValueError "range() arg 3 must not be zero")
    else Ret ((λ i, slice data i (i + WRITE_BUFFER_MAX_SIZE))
                <$> range 0 (length data) WRITE_BUFFER_MAX_SIZE)
  else Ret [data].

(** The state of the [while buffer] loop of [_ready_write] when it is
    left. *)
Record sending : Type := Sending {
  rest_script : list send_outcome;
  rest_buffer : list bytes;
  tot_bytes : nat;
  sent_events : list event;
  failure : option exn
}.

(** The [while buffer] loop of [_ready_write], one [sock.send] per turn.
    A socket error whose number is in [TRY_WRITE_AGAIN] and a send of zero
    bytes leave the loop; any other exception leaves it raised. *)
Fixpoint send_loop (script : list send_outcome) (buffer : list bytes)
    {struct script} : sending :=
  match buffer with
  | [] => Sending script buffer 0 [] None
  | head :: _ =>
      match script with
      | [] => Sending script buffer 0 [] None
      | Sent n :: script' =>
          let sent := n `min` length head in
          if sent =? 0 then Sending script' buffer 0 [] None
          else
            let r := send_loop script' (popleft (merge_prefix buffer sent)) in
            Sending (rest_script r) (rest_buffer r) (sent + tot_bytes r)
                    (SockSend (take sent head) :: sent_events r) (failure r)
      | SendRaise e :: script' =>
          if is_socket_error e && try_write_again e
          then Sending script' buffer 0 [] None
          else Sending script' buffer 0 [] (Some e)
      end
  end.

(** [self._event_loop.call_soon(self._shutdown)] *)
Definition call_soon_shutdown (t : transport) : result unit * transport :=
  match getattr "_shutdown" with
  | Raise e => (Raise e, t)
  | Ret cb => (Ret tt, emit [CallSoon cb] t)
  end.

(** [_ready_write]: returns the number of bytes sent, or [None] after an
    abort. *)
Definition _ready_write (t : transport) : result (option nat) * transport :=
  if _paused_writing t then (Ret (Some 0), t)
  else
    let t :=
      match _write_buffer t with
      | [] => emit [Warning "handling write on a 0 length buffer"] t
      | _ :: _ => t
      end in
    let r := send_loop (sock_send t) (_write_buffer t) in
    let t := emit (sent_events r)
               (set_write_buffer (rest_buffer r)
                  (set_sock_send (rest_script r) t)) in
    match failure r with
    | Some e =>
        if is_Exception e then (Ret None, abort e t) else (Raise e, t)
    | None =>
        if negb (writing t) then
          let t := emit [RemoveWriter] t in
          if _closing t then
            match call_soon_shutdown t with
            | (Raise e, t) => (Raise e, t)
            | (Ret _, t) => (Ret (Some (tot_bytes r)), t)
            end
          else (Ret (Some (tot_bytes r)), t)
        else (Ret (Some (tot_bytes r)), t)
    end.

(** The end of [write], once the data is queued: try to send unless a write
    callback is awaited or writing is paused.  [was_writing] is
    [self.writing] as read before the data was queued. *)
Definition write_try_send (was_writing : bool) (t : transport)
    : result unit * transport :=
  if negb was_writing && negb (_paused_writing t) then
    match _ready_write t with
    | (Raise e, t) => (Raise e, t)
    | (Ret _, t) =>
        if writing t then (Ret tt, emit [AddWriter (cb_own "_ready_write")] t)
        else if _closing t then call_soon_shutdown t
        else (Ret tt, t)
    end
  else (Ret tt, t).

(** [write] *)
Definition write (data : bytes) (t : transport) : result unit * transport :=
  match data with
  | [] => (Ret tt, t)
  | _ :: _ =>
      match _check_closed t with
      | Raise e => (Raise e, t)
      | Ret _ =>
          let was_writing := writing t in
          match pieces data with
          | Raise e => (Raise e, t)
          | Ret ps =>
              write_try_send was_writing
                (set_write_buffer (_write_buffer t ++ ps) t)
          end
      end
  end.

(** [writelines] *)
Fixpoint writelines (list_of_data : list bytes) (t : transport)
    : result unit * transport :=
  match list_of_data with
  | [] => (Ret tt, t)
  | data :: rest =>
      match write data t with
      | (Raise e, t) => (Raise e, t)
      | (Ret _, t) => writelines rest t
      end
  end.

(** The state of the [while chunk] loop of [_read_ready] when it is left. *)
Record receiving : Type := Receiving {
  recv_script : list recv_outcome;
  recv_transport : transport;
  recv_failure : option exn
}.

(** [e.args[0] == EWOULDBLOCK] *)
Definition would_block (e : exn) : bool :=
  match e with
  | socket_error (Some n) _ => bool_decide (n = EWOULDBLOCK)
  | _ => false
  end.

(** The [while chunk] loop of [_read_ready], one [recv] per turn.  A chunk
    is buffered while reading is paused (the flag is read anew for every
    chunk) and passed to the protocol otherwise; a zero-length first read
    tells the protocol of the end of the stream and then closes the
    transport, also when the protocol raised ([try ... finally]).  An
    exception of the protocol leaves the loop raised, like one of the
    socket. *)
Fixpoint recv_loop (script : list recv_outcome) (passes : nat) (t : transport)
    {struct script} : receiving :=
  match script with
  | [] => Receiving script t None
  | RecvRaise e :: script' =>
      if is_socket_error e && would_block e
      then Receiving script' t None
      else Receiving script' t (Some e)
  | Recv chunk :: script' =>
      match chunk with
      | _ :: _ =>
          if _paused_reading t
          then recv_loop script' (S passes)
                 (set_read_buffer (_read_buffer t ++ [chunk]) t)
          else
            match data_received chunk (emit [DataReceived chunk] t) with
            | (Ret _, t) => recv_loop script' (S passes) t
            | (Raise e, t) => Receiving script' t (Some e)
            end
      | [] =>
          if passes =? 0 then
            match eof_received (emit [EofReceived] t) with
            | (Ret _, t) => Receiving script' (emit [Close] t) None
            | (Raise e, t) => Receiving script' (emit [Close] t) (Some e)
            end
          else Receiving script' t None
      end
  end.

(** [_read_ready] *)
Definition _read_ready (t : transport) : result unit * transport :=
  let r := recv_loop (sock_recv t) 0 t in
  let t := set_sock_recv (recv_script r) (recv_transport r) in
  match recv_failure r with
  | Some e => if is_Exception e then (Ret tt, abort e t) else (Raise e, t)
  | None => (Ret tt, t)
  end.

End Transport.

(** ** [create_connection]: trying the candidate addresses *)

(** [strerror.lower()] *)
Definition lower_ascii (c : ascii) : ascii :=
  let n := nat_of_ascii c in
  if (65 <=? n) && (n <=? 90) then ascii_of_nat (n + 32) else c.

Fixpoint lower (s : string) : string :=
  match s with
  | EmptyString => EmptyString
  | String c s' => String (lower_ascii c) (lower s')
  end.

(** What the environment does with one candidate of [fs[0]]: whether
    creating the socket raises, what [sock.bind] does for each local
    address in turn, and whether [sock_connect] raises. *)
Record attempt : Type := Attempt {
  open_outcome : option exn;
  bind_outcomes : list (option exn);
  connect_outcome : option exn
}.

Inductive bound : Type :=
| Bound
| NotBound
| BindRaised (e : exn).

(** The loop over [laddr_infos]: a local address is given by its [repr].
    A [socket.error] of a bind is collected, rewritten with the address; the
    first bind that succeeds leaves the loop; anything else propagates
    (also the failure of [exc.strerror.lower()] on a socket error that has
    no [strerror]). *)
Fixpoint bind_loop (laddr_infos : list string) (outcomes : list (option exn))
    : bound * list exn :=
  match laddr_infos with
  | [] => (NotBound, [])
  | laddr :: laddr_infos' =>
      match outcomes with
      | Some (socket_error (Some errno) strerror) :: outcomes' =>
          let exc :=
            socket_error (Some errno)
              ("error while attempting to bind on address " +:+ laddr +:+
               ": " +:+ lower strerror) in
          let '(b, exceptions) := bind_loop laddr_infos' outcomes' in
          (b, exc :: exceptions)
      | Some (socket_error None _) :: _ =>
          (BindRaised (AttributeError "lower"), [])
      | Some e :: _ => (BindRaised e, [])
      | None :: _ | [] => (Bound, [])
      end
  end.

Inductive dialled : Type :=
| Connected (candidate : nat)
| AllFailed
| Raised (e : exn).

(** The loop over the candidates [fs[0]], from candidate number [i] on: the
    way the loop ends and the [exceptions] collected on the way. *)
Fixpoint try_candidates (laddr_infos : option (list string))
    (candidates : list attempt) (i : nat) : dialled * list exn :=
  match candidates with
  | [] => (AllFailed, [])
  | c :: candidates' =>
      match open_outcome c with
      | Some e =>
          if is_socket_error e then
            let '(d, exceptions) := try_candidates laddr_infos candidates' (S i) in
            (d, e :: exceptions)
          else (Raised e, [])
      | None =>
          let '(b, bind_exceptions) :=
            match laddr_infos with
            | None => (Bound, [])
            | Some l => bind_loop l (bind_outcomes c)
            end in
          match b with
          | BindRaised e => (Raised e, bind_exceptions)
          | NotBound =>
              let '(d, exceptions) := try_candidates laddr_infos candidates' (S i) in
              (d, bind_exceptions ++ exceptions)
          | Bound =>
              match connect_outcome c with
              | None => (Connected i, bind_exceptions)
              | Some e =>
                  if is_socket_error e then
                    let '(d, exceptions) :=
                      try_candidates laddr_infos candidates' (S i) in
                    (d, bind_exceptions ++ e :: exceptions)
                  else (Raised e, bind_exceptions)
              end
          end
      end
  end.

(** The [else] clause of the candidate loop: what is raised once every
    candidate has failed. *)
Definition raise_collected (exceptions : list exn) : exn :=
  match exceptions with
  | [e] => e
  | [] => IndexError "list index out of range"
  | e0 :: _ =>
      let model := str e0 in
      if forallb (λ exc, String.eqb (str exc) model) exceptions then e0
      else socket_error None
             ("Multiple exceptions: " +:+
              String.concat ", " (str <$> exceptions))
  end.

(** [create_connection] for a host and port, from the resolved addresses on:
    [candidates] is [fs[0]] and [local] is [fs[1]] when a local address was
    asked for.  The answer is the number of the candidate that connected. *)
Definition create_connection (local : option (list string))
    (candidates : list attempt) : result nat :=
  match local with
  | Some [] => Raise (socket_error None "getaddrinfo() returned empty list")
  | _ =>
      match try_candidates local candidates 0 with
      | (Connected i, _) => Ret i
      | (Raised e, _) => Raise e
      | (AllFailed, exceptions) => Raise (raise_collected exceptions)
      end
  end.

(** ** Listening and accepting *)

(** What the listening side does to its sockets, the event loop and the
    log, in order.  A socket is named by a number. *)
Inductive serve_event : Type :=
| SockCreated (s : nat)
| SetReuseAddr (s : nat)
| SetV6Only (s : nat)
| SockBound (s : nat)
| SockClosed (s : nat)
| Listening (s backlog : nat)
| NonBlocking (s : nat)
| ReaderAdded (s : nat)
| ReaderRemoved
| TransportMade (conn : nat) (addr : string)
| LogInfo (msg : string)
| LogException (msg : string).

(** One entry of [getaddrinfo]'s answer, with what the environment does for
    it: whether the family is [AF_INET6], the [repr] of the address,
    whether creating the socket raises and what [sock.bind] does. *)
Record addrinfo : Type := AddrInfo {
  is_inet6 : bool;
  sa : string;
  factory_outcome : option exn;
  bind_outcome : option exn
}.

(** What the [for] loop of [start_serving] leaves behind: the list
    [sockets], the effects so far and the exception that ended it, if
    any. *)
Record binding : Type := Binding {
  sockets : list nat;
  bind_events : list serve_event;
  bind_raised : option exn
}.

(** The [for] loop of [start_serving] over [infos]; the socket made for
    entry number [i] is socket [i].  [has_ipv6] is
    [hasattr(socket, 'IPPROTO_IPV6')].  A [socket.error] of [bind] is raised
    again with the address in its text (which fails on an error that has no
    [strerror]). *)
Fixpoint bind_all (reuse_address has_ipv6 : bool) (infos : list addrinfo)
    (i : nat) : binding :=
  match infos with
  | [] => Binding [] [] None
  | info :: infos' =>
      match factory_outcome info with
      | Some e => Binding [] [] (Some e)
      | None =>
          let evs :=
            [SockCreated i]
            ++ (if reuse_address then [SetReuseAddr i] else [])
            ++ (if is_inet6 info && has_ipv6 then [SetV6Only i] else []) in
          match bind_outcome info with
          | Some (socket_error (Some errno) strerror) =>
              Binding [i] evs
                (Some (socket_error (Some errno)
                         ("error while attempting to bind on address "
                          +:+ sa info +:+ ": " +:+ lower strerror)))
          | Some (socket_error None _) =>
              Binding [i] evs (Some (AttributeError "lower"))
          | Some e => Binding [i] evs (Some e)
          | None =>
              let r := bind_all reuse_address has_ipv6 infos' (S i) in
              Binding (i :: sockets r) (evs ++ SockBound i :: bind_events r)
                      (bind_raised r)
          end
      end
  end.

(** The effects of setting a socket up, as against closing it or serving
    on it. *)
Definition is_setup_event (ev : serve_event) : bool :=
  match ev with
  | SockCreated _ | SetReuseAddr _ | SetV6Only _ | SockBound _ => true
  | _ => false
  end.

(** What the last loop of [start_serving] does for sockets it gets through:
    listen, unblock, register. *)
Definition listen_all (backlog : nat) (socks : list nat) : list serve_event :=
  socks ≫= λ s, [Listening s backlog; NonBlocking s; ReaderAdded s].

(** The last loop of [start_serving], [for sock in sockets], where
    [listen_outcome s] is what [sock.listen(backlog)] does for socket [s].
    The loop comes after the [try ... finally]: a [listen] that raises ends
    it there, and nothing is closed. *)
Fixpoint listen_loop (listen_outcome : nat → option exn) (backlog : nat)
    (socks : list nat) : list serve_event * option exn :=
  match socks with
  | [] => ([], None)
  | s :: socks' =>
      match listen_outcome s with
      | Some e => ([], Some e)
      | None =>
          let '(evs, raised) := listen_loop listen_outcome backlog socks' in
          ([Listening s backlog; NonBlocking s; ReaderAdded s] ++ evs, raised)
      end
  end.

(** [start_serving].  [host_or_port] is [host is not None or port is not
    None], [sock] the socket handed in, [posix] is
    [os.name == 'posix' and sys.platform != 'cygwin'], [infos] is what
    [getaddrinfo] answers and [listen_outcome] what [listen] does for each
    socket.  The sockets of a failed setup are closed in the [finally]
    clause. *)
Definition start_serving (host_or_port : bool) (sock : option nat)
    (reuse_address : option bool) (posix has_ipv6 : bool)
    (infos : list addrinfo) (listen_outcome : nat → option exn)
    (backlog : nat)
    : result (list nat) * list serve_event :=
  if host_or_port then
    match sock with
    | Some _ =>
        (Raise (ValueError
                  "host/port and sock can not be specified at the same time"),
         [])
    | None =>
        let reuse_address := default posix reuse_address in
        match infos with
        | [] =>
            (Raise (socket_error None "getaddrinfo() returned empty list"), [])
        | _ :: _ =>
            let r := bind_all reuse_address has_ipv6 infos 0 in
            match bind_raised r with
            | Some e =>
                (Raise e, bind_events r ++ (SockClosed <$> sockets r))
            | None =>
                match listen_loop listen_outcome backlog (sockets r) with
                | (evs, Some e) => (Raise e, bind_events r ++ evs)
                | (evs, None) => (Ret (sockets r), bind_events r ++ evs)
                end
            end
        end
    end
  else
    match sock with
    | None =>
        (Raise (ValueError
                  "host and port was not specified and no sock specified"),
         [])
    | Some s =>
        match listen_loop listen_outcome backlog [s] with
        | (evs, Some e) => (Raise e, evs)
        | (evs, None) => (Ret [s], evs)
        end
    end.

(** What one [sock.accept] call does. *)
Inductive accept_outcome : Type :=
| Accepted (conn : nat) (address : string)
| AcceptRaise (e : exn).

(** Modelled from the spec: [Deferred] lives in [pulsar.async.defer], which is
    not under src/.  A placeholder is pending until it is called back, once,
    with a result or a failure; it may have been cancelled. *)
Record deferred : Type := mkDeferred {
  cancelled : bool;
  called : option (result (nat * string))
}.

Definition deferred_callback (v : result (nat * string)) (d : deferred)
    : result deferred :=
  match called d with
  | None => Ret (mkDeferred (cancelled d) (Some v))
  | Some _ => Raise AlreadyCalledError
  end.

(** [SocketStreamSslTransport(...)] for a client-side or accepted socket
    ([server_side] false).  [wrap_outcome] is what choosing the context and
    [wrap_socket] do; the base constructor is then called with [loop], which
    is neither a parameter of [__init__] (that is [event_loop]) nor a name
    of the module. *)
Definition SocketStreamSslTransport_init (wrap_outcome : option exn)
    : result unit :=
  match wrap_outcome with
  | Some e => Raise e
  | None =>
      if name_bound module_globals "loop" then Ret tt
      else Raise (NameError "loop")
  end.

Section Serving.

(** Constants this module imports and src/ does not hold. *)
Variable TRY_READ_AGAIN : list Z.
Variable EPERM : Z.
Variable ACCEPT_ERRORS : list Z.
Variable NUMBER_ACCEPTS : nat.

(** What building the two objects of an accepted connection does, for the
    connection [conn]: the exception [protocol_factory()] raises, if any,
    and the one the constructor of the plain transport (of the base class,
    not under src/) raises, if any. *)
Variable protocol_factory : nat → option exn.
Variable make_transport : nat → option exn.

(** [e.args[0] in TRY_READ_AGAIN], [e.args[0] == EPERM] and
    [e.args[0] in ACCEPT_ERRORS] *)
Definition try_read_again (e : exn) : bool :=
  match e with
  | socket_error (Some n) _ => bool_decide (n ∈ TRY_READ_AGAIN)
  | _ => false
  end.

Definition is_eperm (e : exn) : bool :=
  match e with
  | socket_error (Some n) _ => bool_decide (n = EPERM)
  | _ => false
  end.

Definition accept_error (e : exn) : bool :=
  match e with
  | socket_error (Some n) _ => bool_decide (n ∈ ACCEPT_ERRORS)
  | _ => false
  end.

(** The errors of [accept] after which it is called again at once: a
    [socket.error] whose number is [EPERM] and not one of
    [TRY_READ_AGAIN]. *)
Definition retried (e : exn) : bool :=
  is_socket_error e && negb (try_read_again e) && is_eperm e.

(** What a call of [sock_accept] leaves: the outcomes the socket has left,
    the future, the effects, and the exception that escaped, if any. *)
Record accepting : Type := Accepting {
  accept_rest : list accept_outcome;
  accept_future : deferred;
  accept_events : list serve_event;
  accept_raised : option exn
}.

(** The [try] statement of [sock_accept] once the future has been called
    back with [v]: a failure of that call inside the [try] body is handled
    by [except Exception], which calls back again. *)
Definition resolve_in_try (v : result (nat * string)) (future : deferred)
    (rest : list accept_outcome) (evs : list serve_event) : accepting :=
  match deferred_callback v future with
  | Ret future' => Accepting rest future' evs None
  | Raise e1 =>
      match deferred_callback (Raise e1) future with
      | Ret future' => Accepting rest future' evs None
      | Raise e2 => Accepting rest future evs (Some e2)
      end
  end.

(** The same call made from an [except] clause: its failure escapes. *)
Definition resolve_in_handler (v : result (nat * string)) (future : deferred)
    (rest : list accept_outcome) (evs : list serve_event) : accepting :=
  match deferred_callback v future with
  | Ret future' => Accepting rest future' evs None
  | Raise e => Accepting rest future evs (Some e)
  end.

(** [sock_accept] on a listening socket, given what [sock.fileno()] does
    and the outcomes of the socket's future [accept] calls (an exhausted
    list is a socket that would block).  [fileno] is called before the
    [try]: what it raises gets out.  [future] is [None] on the first call
    and the pending future when the event loop calls back; an [EPERM] calls
    [sock_accept] again at once with the same future. *)
Fixpoint sock_accept (fileno : result nat) (script : list accept_outcome)
    (future : option deferred) {struct script} : accepting :=
  match fileno with
  | Raise e =>
      Accepting script (default (mkDeferred false None) future) [] (Some e)
  | Ret fd =>
      let '(fut, evs) :=
        match future with
        | None => (mkDeferred false None, [])
        | Some f => (f, [ReaderRemoved])
        end in
      if cancelled fut then Accepting script fut evs None
      else
        match script with
        | [] => Accepting [] fut (evs ++ [ReaderAdded fd]) None
        | Accepted conn address :: script' =>
            resolve_in_try (Ret (conn, address)) fut script'
              (evs ++ [NonBlocking conn])
        | AcceptRaise e :: script' =>
            if is_socket_error e then
              if try_read_again e
              then Accepting script' fut (evs ++ [ReaderAdded fd]) None
              else if is_eperm e then
                let r := sock_accept fileno script' (Some fut) in
                Accepting (accept_rest r) (accept_future r)
                          (evs ++ accept_events r) (accept_raised r)
              else resolve_in_handler (Raise e) fut script' evs
            else if is_Exception e
            then resolve_in_handler (Raise e) fut script' evs
            else Accepting script' fut evs (Some e)
        end
  end.

(** The connections among the effects for which a transport was made, and
    the connections among the outcomes of [accept]. *)
Definition made (ev : serve_event) : option (nat * string) :=
  match ev with
  | TransportMade conn addr => Some (conn, addr)
  | _ => None
  end.

(** What the [for] loop of [sock_accept_connection] leaves. *)
Record batch : Type := Batch {
  batch_rest : list accept_outcome;
  batch_events : list serve_event;
  batch_raised : option exn
}.

(** [protocol = protocol_factory()] and then the constructor of the
    transport, for the accepted connection [conn]: the exception raised, if
    any.  [ssl] is the truth of the [ssl] argument and [wrap_outcome] what
    wrapping an accepted socket does. *)
Definition make_connection (ssl : bool) (wrap_outcome : option exn)
    (conn : nat) : option exn :=
  match protocol_factory conn with
  | Some e => Some e
  | None =>
      if ssl then
        match SocketStreamSslTransport_init wrap_outcome with
        | Raise e => Some e
        | Ret _ => None
        end
      else make_transport conn
  end.

(** The loop [for i in range(NUMBER_ACCEPTS)] of [sock_accept_connection],
    with [n] turns left.  An exception of [protocol_factory()] or of the
    transport's constructor leaves the loop raised, like one of [accept]
    that is not handled. *)
Fixpoint accept_loop (ssl : bool) (wrap_outcome : option exn) (n : nat)
    (script : list accept_outcome) : batch :=
  match n with
  | O => Batch script [] None
  | S n' =>
      match script with
      | [] => Batch [] [] None
      | Accepted conn address :: script' =>
          match make_connection ssl wrap_outcome conn with
          | Some e => Batch script' [] (Some e)
          | None =>
              let r := accept_loop ssl wrap_outcome n' script' in
              Batch (batch_rest r)
                    (TransportMade conn address :: batch_events r)
                    (batch_raised r)
          end
      | AcceptRaise e :: script' =>
          if is_socket_error e then
            if try_read_again e then Batch script' [] None
            else if is_eperm e then accept_loop ssl wrap_outcome n' script'
            else if accept_error e
            then Batch script' [LogInfo "Could not accept new connection"]
                       None
            else Batch script' [] (Some e)
          else Batch script' [] (Some e)
      end
  end.

(** [sock_accept_connection]: what is left of the socket's outcomes, the
    effects, and an exception only if one got past [except Exception]. *)
Definition sock_accept_connection (ssl : bool) (wrap_outcome : option exn)
    (script : list accept_outcome) : batch :=
  let r := accept_loop ssl wrap_outcome NUMBER_ACCEPTS script in
  match batch_raised r with
  | Some e =>
      if is_Exception e
      then Batch (batch_rest r)
                 (batch_events r
                  ++ [LogException "Could not accept new connection"]) None
      else r
  | None => r
  end.

End Serving.

(** ** Connecting *)

(** What [sock_connect] does to the event loop's writers. *)
Inductive connect_event : Type :=
| WriterAdded (fd : nat)
| WriterRemoved (fd : nat).

(** Modelled from the spec: the [Deferred] of a connection attempt
    ([pulsar.async.defer] is not under src/): pending until it is called
    back, once, with [None] or with a failure; it may have been cancelled. *)
Record connect_deferred : Type := mkConnectDeferred {
  connect_cancelled : bool;
  connect_called : option (result unit)
}.

Definition connect_callback (v : result unit) (d : connect_deferred)
    : result connect_deferred :=
  match connect_called d with
  | None => Ret (mkConnectDeferred (connect_cancelled d) (Some v))
  | Some _ => Raise AlreadyCalledError
  end.

(** The three [return]s of [sock_connect]: falling off the end or a bare
    [return], [return future], and [return future.callback(exc)]. *)
Inductive connect_return : Type :=
| ReturnNone
| ReturnFuture
| ReturnOfCallback.

(** What a call of [sock_connect] leaves: the future, the effects on the
    event loop, and what is returned or the exception that escaped. *)
Record connecting : Type := Connecting {
  conn_future : connect_deferred;
  conn_events : list connect_event;
  conn_result : result connect_return
}.

(** An exception [exc] raised inside the outer [try] of [sock_connect]:
    [except Exception as exc: return future.callback(exc)]. *)
Definition connect_failed (exc : exn) (future : connect_deferred)
    (evs : list connect_event) : connecting :=
  if is_Exception exc then
    match connect_callback (Raise exc) future with
    | Ret future' => Connecting future' evs (Ret ReturnOfCallback)
    | Raise e => Connecting future evs (Raise e)
    end
  else Connecting future evs (Raise exc).

Section Connecting.

Variable TRY_WRITE_AGAIN : list Z.

(** [sock_connect].  [fileno] is what [sock.fileno()] does: it is called
    before the [try], so what it raises gets out.  [connect_raises] is what
    [sock.connect(address)] does and [so_error] what
    [sock.getsockopt(SOL_SOCKET, SO_ERROR)] gives; [future] is [None] on the
    first call and the future of that call when the event loop calls
    back. *)
Definition sock_connect (fileno : result nat) (connect_raises : option exn)
    (so_error : result Z) (future : option connect_deferred) : connecting :=
  match fileno with
  | Raise e =>
      Connecting (default (mkConnectDeferred false None) future) [] (Raise e)
  | Ret fd =>
      match future with
      | None =>
          let fut := mkConnectDeferred false None in
          match connect_raises with
          | None => Connecting fut [] (Ret ReturnNone)
          | Some e =>
              if is_socket_error e then
                if try_write_again TRY_WRITE_AGAIN e
                then Connecting fut [WriterAdded fd] (Ret ReturnFuture)
                else connect_failed e fut []
              else connect_failed e fut []
          end
      | Some fut =>
          if connect_cancelled fut
          then Connecting fut [WriterRemoved fd] (Ret ReturnNone)
          else
            match so_error with
            | Raise e => connect_failed e fut [WriterRemoved fd]
            | Ret err =>
                if bool_decide (err ≠ 0%Z)
                then connect_failed
                       (socket_error (Some err) "Connect call failed")
                       fut [WriterRemoved fd]
                else
                  match connect_callback (Ret tt) fut with
                  | Ret fut' =>
                      Connecting fut' [WriterRemoved fd] (Ret ReturnNone)
                  | Raise e => connect_failed e fut [WriterRemoved fd]
                  end
            end
      end
  end.

End Connecting.

End Stream.

(** * The mailbox ([pulsar/async/mailbox.py]) *)

Module Mailbox.

(** Names bound at module level in [mailbox.py] (imports, constants, classes
    and functions). *)
Definition module_globals : list string :=
  ["sys"; "logging"; "namedtuple"; "ProtocolError"; "CommandError";
   "pickle"; "nice_address"; "FrameParser"; "gen_unique_id"; "asyncio";
   "get_actor"; "Failure"; "Deferred"; "coroutine_return"; "in_loop";
   "actorid"; "get_proxy"; "get_command"; "ActorProxy"; "Protocol";
   "BaseClient"; "LOGGER"; "CommandRequest"; "command_in_context";
   "ProxyMailbox"; "Message"; "MailboxProtocol"; "MailboxClient"].

(** The Python values that travel in a message. *)
#[warnings="-register-all"]
Inductive pyval : Type :=
| PyNone
| PyInt (z : Z)
| PyStr (s : string)
| PyTuple (items : list pyval)
| PyDict (items : list (string * pyval))
| PyFailure (exc_info : exn).

(** The wire envelope, the dictionary [Message.data]: every key may be
    absent.  A correlation token is a string. *)
Record envelope : Type := Envelope {
  command : option string;
  sender : option pyval;
  target : option pyval;
  args : option pyval;
  kwargs : option pyval;
  ack : option string;
  result_ : option pyval
}.

(** [CommandRequest = namedtuple('CommandRequest', 'actor caller connection')] *)
Record CommandRequest : Type := mkCommandRequest {
  actor : pyval;
  caller : pyval;
  connection : option nat
}.

(** An entry of the command registry: the function's name, whether it is
    declared to need an acknowledgment, and what calling it gives. *)
Record Command : Type := mkCommand {
  __name__ : string;
  ack_required : bool;
  call : CommandRequest → pyval → pyval → result pyval
}.

(** [Message]: the envelope and the placeholder of its result, a [Deferred]
    named by its address in the heap. *)
Record Message : Type := mkMessage {
  data : envelope;
  future : option nat
}.

(** One [transport.write] of a framed envelope, with the correlation table
    as it stood when the write was attempted. *)
Record written : Type := Written {
  frame : bytes;
  pending_then : gmap string nat
}.

(** The process around a protocol: the heap of [Deferred]s ([None] while
    pending, the value once called back), the number of ids drawn from
    [gen_unique_id], whether the current actor is running, the outcomes of
    the transport's future [write] calls (an exhausted list accepts
    everything) and the writes attempted so far. *)
Record world : Type := World {
  futures : gmap nat (option pyval);
  next_future : nat;
  uid_calls : nat;
  is_running : bool;
  write_outcomes : list (option exn);
  writes : list written
}.

(** [MailboxClient]: the router's address and the remembered connection,
    a [MailboxProtocol] given by its correlation table
    [_pending_responses]. *)
Record MailboxClient : Type := mkMailboxClient {
  address : pyval;
  _connection : option (gmap string nat)
}.

(** [not ack] for a token read with [message.get('ack')]: an absent token
    and an empty one are both false. *)
Definition falsy (tok : option string) : bool :=
  match tok with
  | None | Some "" => true
  | Some _ => false
  end.

(** Modelled from the spec: [Deferred] lives in [pulsar.async.defer], which is
    not under src/.  It is the "pending-result placeholder": created pending,
    "resolved" once by [callback] with a value. *)
Definition Deferred (w : world) : nat * world :=
  (next_future w,
   World (<[next_future w := None]> (futures w)) (S (next_future w))
         (uid_calls w) (is_running w) (write_outcomes w) (writes w)).

Definition Deferred_callback (f : nat) (v : pyval) (w : world)
    : result unit * world :=
  match futures w !! f with
  | Some None =>
      (Ret tt,
       World (<[f := Some v]> (futures w)) (next_future w) (uid_calls w)
             (is_running w) (write_outcomes w) (writes w))
  | _ => (Raise AlreadyCalledError, w)
  end.

(** The world in which [Message.command] leaves an acknowledged request:
    one more placeholder, pending, and one more id drawn. *)
Definition after_command (w : world) : world :=
  World (<[next_future w := None]> (futures w))
    (S (next_future w)) (S (uid_calls w))
    (is_running w) (write_outcomes w) (writes w).

Section Protocol.

(** The collaborators [mailbox.py] imports and src/ does not hold: the
    command registry, the id of an actor, the unique-id generator (its
    [n]-th answer), the serializer, the frame encoder, the dispatch of a
    command envelope to the actor runtime and the event loop's connector. *)
Variable get_command : string → option Command.
Variable actorid : pyval → pyval.
Variable gen_unique_id : nat → string.
Variable pickle_dumps : envelope → result bytes.
Variable encode : bytes → bytes.
Variable dispatch_command :
  envelope → gmap string nat → world → result unit * gmap string nat * world.
Variable create_connection :
  pyval → pyval → world → result (gmap string nat) * world.

(** [command_in_context] *)
Definition command_in_context (command_ : string) (caller_ actor_ : pyval)
    (args_ kwargs_ : pyval) : result pyval :=
  match get_command command_ with
  | None => Raise (CommandError ("unknown " +:+ command_))
  | Some cmnd => call cmnd (mkCommandRequest actor_ caller_ None) args_ kwargs_
  end.

(** The dictionary [Message.command] builds, with the [ack] key when a
    token was drawn. *)
Definition command_data (cmd : Command) (sender_ target_ : pyval)
    (args_ kwargs_ : option pyval) (token : option string) : envelope :=
  Envelope (Some (__name__ cmd)) (Some (actorid sender_))
           (Some (actorid target_))
           (Some (default (PyTuple []) args_))
           (Some (default (PyDict []) kwargs_)) token None.

(** [gen_unique_id()[:8]] *)
Definition draw_token (w : world) : string * world :=
  (String.substring 0 8 (gen_unique_id (uid_calls w)),
   World (futures w) (next_future w) (S (uid_calls w)) (is_running w)
         (write_outcomes w) (writes w)).

(** [Message.command]: the registry's answer is used at once, as
    [command.__name__]; on [None] that attribute access fails. *)
Definition Message_command (command_ : string) (sender_ target_ : pyval)
    (args_ kwargs_ : option pyval) (w : world) : result Message * world :=
  match get_command command_ with
  | None => (Raise (AttributeError "__name__"), w)
  | Some cmd =>
      if ack_required cmd then
        let '(future_, w) := Deferred w in
        let '(token, w) := draw_token w in
        (Ret (mkMessage
                (command_data cmd sender_ target_ args_ kwargs_ (Some token))
                (Some future_)), w)
      else
        (Ret (mkMessage
                (command_data cmd sender_ target_ args_ kwargs_ None) None),
         w)
  end.

(** [Message.callback] *)
Definition Message_callback (result__ : pyval) (ack_ : string) : Message :=
  mkMessage (Envelope (Some "callback") None None None None (Some ack_)
                      (Some result__)) None.

(** [self.transport.write(data)]: the next outcome of the transport. *)
Definition transport_write (data_ : bytes) (pending : gmap string nat)
    (w : world) : result unit * world :=
  let w' := World (futures w) (next_future w) (uid_calls w) (is_running w)
                  (tail (write_outcomes w))
                  (writes w ++ [Written data_ pending]) in
  match write_outcomes w with
  | Some e :: _ => (Raise e, w')
  | _ => (Ret tt, w')
  end.

(** [MailboxProtocol._write]: an [IOError] of the transport is raised again
    only while the actor is running. *)
Definition _write (req : Message) (pending : gmap string nat) (w : world)
    : result unit * world :=
  match pickle_dumps (data req) with
  | Raise e => (Raise e, w)
  | Ret obj =>
      match transport_write (encode obj) pending w with
      | (Raise e, w) =>
          if is_IOError e
          then if is_running w then (Raise e, w) else (Ret tt, w)
          else (Raise e, w)
      | (Ret _, w) => (Ret tt, w)
      end
  end.

(** [MailboxProtocol._start] *)
Definition _start (req : Message) (pending : gmap string nat) (w : world)
    : result unit * gmap string nat * world :=
  match future req, ack (data req) with
  | Some future_, Some token =>
      let pending := <[token := future_]> pending in
      match _write req pending w with
      | (Raise e, w) =>
          if is_Exception e then
            let '(r, w) := Deferred_callback future_ (PyFailure e) w in
            (r, pending, w)
          else (Raise e, pending, w)
      | (Ret _, w) => (Ret tt, pending, w)
      end
  | _, _ =>
      let '(r, w) := _write req pending w in
      (r, pending, w)
  end.

(** [MailboxProtocol.request] *)
Definition MailboxProtocol_request (command_ : string)
    (sender_ target_ : pyval) (args_ kwargs_ : option pyval)
    (pending : gmap string nat) (w : world)
    : result (option nat) * gmap string nat * world :=
  match Message_command command_ sender_ target_ args_ kwargs_ w with
  | (Raise e, w) => (Raise e, pending, w)
  | (Ret req, w) =>
      match _start req pending w with
      | (Raise e, pending, w) => (Raise e, pending, w)
      | (Ret _, pending, w) => (Ret (future req), pending, w)
      end
  end.

(** The body of [MailboxProtocol._on_message]: what the method does when
    it is run.  The method is a generator function under the [@in_loop]
    decorator, which is not under src/: what [in_loop] makes of an
    exception the body raises (whether it is logged, whether it reaches the
    loop that dispatches the messages) is not modelled.  A callback envelope
    is handled here; a command envelope goes to the actor runtime. *)
Definition _on_message (message : envelope) (pending : gmap string nat)
    (w : world) : result unit * gmap string nat * world :=
  if bool_decide (command message = Some "callback") then
    if falsy (ack message)
    then (Raise (ProtocolError "A callback without id"), pending, w)
    else
      let token := default "" (ack message) in
      match pending !! token with
      | None =>
          (Raise (KeyError ("Callback " +:+ token +:+
                            " not in pending callbacks")), pending, w)
      | Some pending_future =>
          let '(r, w) :=
            Deferred_callback pending_future
              (default PyNone (result_ message)) w in
          (r, delete token pending, w)
      end
  else dispatch_command message pending w.

(** The body of [MailboxClient.request].  The answer is the placeholder the
    caller is suspended on ([yield req.future]); its value, once resolved, is
    what the call returns.  [loop] is no local of the method and is looked
    up among the module's names. *)
Definition MailboxClient_request (command_ : string)
    (sender_ target_ : pyval) (args_ kwargs_ : option pyval)
    (self : MailboxClient) (w : world)
    : result (option nat) * MailboxClient * world :=
  let connected :=
    match _connection self with
    | Some _ => (Ret tt, self, w)
    | None =>
        match address self with
        | PyTuple [host; port] =>
            if name_bound module_globals "loop" then
              match create_connection host port w with
              | (Raise e, w) => (Raise e, self, w)
              | (Ret c, w) =>
                  (Ret tt, mkMailboxClient (address self) (Some c), w)
              end
            else (Raise (NameError "loop"), self, w)
        | PyTuple _ => (Raise (ValueError "unpack"), self, w)
        | _ => (Raise NotImplementedError, self, w)
        end
    end in
  match connected with
  | (Raise e, self, w) => (Raise e, self, w)
  | (Ret _, self, w) =>
      match Message_command command_ sender_ target_ args_ kwargs_ w with
      | (Raise e, w) => (Raise e, self, w)
      | (Ret req, w) =>
          match _start req (default ∅ (_connection self)) w with
          | (Raise e, pending, w) =>
              (Raise e, mkMailboxClient (address self) (Some pending), w)
          | (Ret _, pending, w) =>
              (Ret (future req),
               mkMailboxClient (address self) (Some pending), w)
          end
      end
  end.

End Protocol.

(** ** [ProxyMailbox] *)

(** A mailbox object: a mailbox of its own, given by its attributes, or a
    [ProxyMailbox] and the mailbox it holds in [self.mailbox]. *)
Inductive mailbox : Type :=
| OwnedMailbox (attributes : string → option pyval)
| ProxyMailbox (mailbox_ : mailbox).

(** [ProxyMailbox.__init__], from [actor.monitor.mailbox]. *)
Definition ProxyMailbox_init (monitor_mailbox : mailbox) : mailbox :=
  match monitor_mailbox with
  | ProxyMailbox inner => ProxyMailbox inner
  | _ => ProxyMailbox monitor_mailbox
  end.

End Mailbox.

(** A message mentions a text when the text occurs in it. *)
Definition mentions (msg part : string) : Prop :=
  ∃ before after, msg = before +:+ part +:+ after.

(** * Facts about the stream transport *)

Section StreamFacts.

Import Stream.

Variable WRITE_BUFFER_MAX_SIZE : nat.
Variable TRY_WRITE_AGAIN : list Z.
Variable EWOULDBLOCK : Z.
Variable inherited : string → bool.
Variable data_received : on_data.
Variable eof_received : on_eof.

Lemma wire_of_app (tr1 tr2 : list event) :
  wire_of (tr1 ++ tr2) = wire_of tr1 ++ wire_of tr2.
Proof.
  induction tr1 as [|ev tr1 IH]; simpl; [done|].
  destruct ev; rewrite IH; try done.
  by rewrite app_assoc.
Qed.

Lemma delivered_of_app (tr1 tr2 : list event) :
  delivered_of (tr1 ++ tr2) = delivered_of tr1 ++ delivered_of tr2.
Proof.
  induction tr1 as [|ev tr1 IH]; simpl; [done|].
  destruct ev; rewrite IH; done.
Qed.

Lemma closed_emit (evs : list event) (t : transport) :
  closed (emit evs t) = closed t.
Proof. done. Qed.

Lemma wire_emit (evs : list event) (t : transport) :
  wire (emit evs t) = wire t ++ wire_of evs.
Proof. unfold wire; simpl. apply wire_of_app. Qed.

(** ** Splitting a write into pieces *)

Lemma range_from_slices (data : bytes) (step fuel start : nat) :
  0 < step → length data - start ≤ fuel →
  concat ((λ i, slice data i (i + step))
            <$> range_from fuel start (length data) step)
  = drop start data.
Proof.
  intros Hstep. revert start.
  induction fuel as [|fuel IH]; intros start Hfuel; simpl.
  - rewrite drop_ge; [done|lia].
  - destruct (Nat.ltb_spec start (length data)) as [Hlt|Hge]; simpl.
    + rewrite IH by lia.
      unfold slice. replace (start + step - start) with step by lia.
      rewrite <- (drop_drop data step start). apply take_drop.
    + rewrite drop_ge; [done|lia].
Qed.

Lemma range_from_bounded (data : bytes) (step fuel start : nat) :
  0 < step →
  Forall (λ p : bytes, 0 < length p ≤ step)
    ((λ i, slice data i (i + step))
       <$> range_from fuel start (length data) step).
Proof.
  intros Hstep. revert start.
  induction fuel as [|fuel IH]; intros start; simpl; [constructor|].
  destruct (Nat.ltb_spec start (length data)) as [Hlt|Hge]; simpl;
    [|constructor].
  constructor; [|apply IH].
  unfold slice. rewrite length_take, length_drop. lia.
Qed.

(** For a positive maximum the pieces of non-empty data are non-empty, no
    longer than the maximum, and concatenate to the data. *)
Lemma pieces_spec (data : bytes) :
  0 < WRITE_BUFFER_MAX_SIZE → data ≠ [] →
  ∃ ps, pieces WRITE_BUFFER_MAX_SIZE data = Ret ps
        ∧ Forall (λ p : bytes, 0 < length p ≤ WRITE_BUFFER_MAX_SIZE) ps
        ∧ concat ps = data.
Proof.
  intros Hmax Hdata. unfold pieces.
  destruct (Nat.ltb_spec WRITE_BUFFER_MAX_SIZE (length data)) as [Hlong|Hshort].
  - destruct (Nat.eqb_spec WRITE_BUFFER_MAX_SIZE 0) as [->|_]; [lia|].
    eexists; split; [done|]. split.
    + by apply range_from_bounded.
    + unfold range. rewrite range_from_slices by lia. done.
  - exists [data]. split; [done|]. split.
    + constructor; [|constructor].
      destruct data; [done|simpl in *; lia].
    + simpl. apply app_nil_r.
Qed.

(** ** Sending from the head of the queue *)

Lemma split_prefix_spec (deque : list bytes) (size : nat) :
  (split_prefix deque size).1 = take size (concat deque)
  ∧ concat (split_prefix deque size).2 = drop size (concat deque).
Proof.
  revert size. induction deque as [|chunk deque IH]; intros size; simpl.
  - by rewrite take_nil, drop_nil.
  - destruct (Nat.eqb_spec size 0) as [->|Hsize]; simpl; [done|].
    destruct (Nat.ltb_spec size (length chunk)) as [Hlt|Hge]; simpl.
    + rewrite take_app_le, drop_app_le by lia. done.
    + destruct (IH (size - length chunk)) as [IH1 IH2].
      destruct (split_prefix deque (size - length chunk)) as [prefix rest].
      simpl in *. subst prefix. rewrite IH2.
      rewrite take_app, drop_app, (take_ge chunk), (drop_ge chunk) by lia. done.
Qed.

Lemma popleft_merge_prefix (deque : list bytes) (size : nat) :
  concat (popleft (merge_prefix deque size)) = drop size (concat deque).
Proof.
  unfold merge_prefix, popleft.
  destruct (split_prefix_spec deque size) as [_ H].
  destruct (split_prefix deque size); simpl in *. done.
Qed.

(** What the loop sent, followed by what it left queued, is what was
    queued. *)
Lemma send_loop_stream (script : list send_outcome) (buffer : list bytes) :
  let r := send_loop TRY_WRITE_AGAIN script buffer in
  wire_of (sent_events r) ++ concat (rest_buffer r) = concat buffer.
Proof.
  revert buffer. induction script as [|o script IH]; intros buffer.
  - destruct buffer; done.
  - destruct buffer as [|head buffer]; [done|].
    destruct o as [n|e]; cbn [send_loop].
    + destruct (Nat.eqb_spec (n `min` length head) 0) as [Hz|Hnz]; [done|].
      cbn -[merge_prefix concat].
      specialize (IH (popleft (merge_prefix (head :: buffer) (n `min` length head)))).
      cbn zeta in IH. rewrite <- app_assoc, IH, popleft_merge_prefix.
      cbn [concat].
      rewrite <- (take_app_le head (concat buffer)) by lia.
      apply take_drop.
    + destruct (is_socket_error e && try_write_again TRY_WRITE_AGAIN e); done.
Qed.

(** The loop only touches the socket. *)
Lemma send_loop_delivered (script : list send_outcome) (buffer : list bytes) :
  delivered_of (sent_events (send_loop TRY_WRITE_AGAIN script buffer)) = [].
Proof.
  revert buffer. induction script as [|o script IH]; intros buffer.
  - destruct buffer; done.
  - destruct buffer as [|head buffer]; [done|].
    destruct o as [n|e]; cbn [send_loop].
    + destruct (n `min` length head =? 0); [done|]. cbn. apply IH.
    + destruct (is_socket_error e && try_write_again TRY_WRITE_AGAIN e); done.
Qed.

(** [_ready_write] sends from the head of the queue: the bytes it puts on
    the wire are a prefix of the bytes that were queued, and the rest of
    them is what it leaves queued, unless it aborts the connection: then
    the transport is closed and nothing stays queued. *)
Lemma ready_write_stream (t : transport) :
  closed t = false →
  let t' := (_ready_write TRY_WRITE_AGAIN inherited t).2 in
  ∃ sent unsent,
    wire t' = wire t ++ sent
    ∧ sent ++ unsent = concat (_write_buffer t)
    ∧ (if closed t' then _write_buffer t' = []
       else concat (_write_buffer t') = unsent).
Proof.
  intros Hopen. unfold _ready_write.
  destruct (_paused_writing t) eqn:Hpaused.
  { exists [], (concat (_write_buffer t)). cbn [snd].
    by rewrite app_nil_r, Hopen. }
  set (t1 := match _write_buffer t with
             | [] => emit [Warning "handling write on a 0 length buffer"] t
             | _ :: _ => t
             end).
  assert (H1 : wire t1 = wire t ∧ _write_buffer t1 = _write_buffer t
               ∧ closed t1 = false).
  { subst t1. destruct (_write_buffer t) eqn:Hb; [|done].
    rewrite wire_emit. simpl. by rewrite app_nil_r. }
  destruct H1 as (Hw & Hb & Hc).
  pose proof (send_loop_stream (sock_send t1) (_write_buffer t1)) as Hloop.
  cbn zeta in Hloop. rewrite <- Hb, <- Hw.
  set (r := send_loop TRY_WRITE_AGAIN (sock_send t1) (_write_buffer t1)) in *.
  set (t2 := emit (sent_events r)
               (set_write_buffer (rest_buffer r)
                  (set_sock_send (rest_script r) t1))).
  assert (H2 : wire t2 = wire t1 ++ wire_of (sent_events r)
               ∧ _write_buffer t2 = rest_buffer r
               ∧ closed t2 = false).
  { subst t2. by rewrite wire_emit. }
  destruct H2 as (Hw2 & Hb2 & Hc2).
  exists (wire_of (sent_events r)), (concat (rest_buffer r)).
  rewrite <- Hw2, <- Hb2. split; [|split; [by rewrite Hb2|]].
  - destruct (failure r) as [e|].
    + destruct (is_Exception e); [|done].
      unfold abort. cbn [snd]. rewrite wire_emit. cbn. by rewrite app_nil_r.
    + destruct (writing t2); cbn [negb]; [done|].
      destruct (_closing (emit [RemoveWriter] t2)).
      * unfold call_soon_shutdown.
        destruct (getattr inherited "_shutdown"); cbn [snd];
          rewrite !wire_emit; cbn; by rewrite !app_nil_r.
      * cbn [snd]. rewrite wire_emit. cbn. by rewrite app_nil_r.
  - destruct (failure r) as [e|].
    + destruct (is_Exception e); cbn [snd]; [done|by rewrite Hc2].
    + destruct (writing t2); cbn [negb snd]; [by rewrite Hc2|].
      destruct (_closing (emit [RemoveWriter] t2)).
      * unfold call_soon_shutdown.
        destruct (getattr inherited "_shutdown"); cbn [snd];
          by rewrite !closed_emit, Hc2.
      * cbn [snd]. by rewrite closed_emit, Hc2.
Qed.

Lemma write_try_send_stream (was_writing : bool) (t : transport) :
  closed t = false →
  let t' := (write_try_send TRY_WRITE_AGAIN inherited was_writing t).2 in
  ∃ sent unsent,
    wire t' = wire t ++ sent
    ∧ sent ++ unsent = concat (_write_buffer t)
    ∧ (if closed t' then _write_buffer t' = []
       else concat (_write_buffer t') = unsent).
Proof.
  intros Hopen. unfold write_try_send.
  destruct (negb was_writing && negb (_paused_writing t)).
  2: { exists [], (concat (_write_buffer t)). cbn [snd].
       by rewrite app_nil_r, Hopen. }
  destruct (ready_write_stream t Hopen) as (sent & unsent & Hw & Hq & Hrest).
  exists sent, unsent.
  destruct (_ready_write TRY_WRITE_AGAIN inherited t) as [[v|e] t1];
    cbn [snd] in *; [|done].
  rewrite <- Hw. split; [|split; [done|]].
  - destruct (writing t1).
    + cbn [snd]. rewrite wire_emit. cbn. by rewrite app_nil_r.
    + destruct (_closing t1); [|done].
      unfold call_soon_shutdown.
      destruct (getattr inherited "_shutdown"); cbn [snd]; [|done].
      rewrite wire_emit. cbn. by rewrite app_nil_r.
  - destruct (writing t1).
    + done.
    + destruct (_closing t1); [|done].
      unfold call_soon_shutdown.
      by destruct (getattr inherited "_shutdown").
Qed.

(** A write the closed-state check lets through queues pieces of the data
    and then, at most, sends from the head of the queue. *)
Lemma write_open (data : bytes) (t : transport) :
  0 < WRITE_BUFFER_MAX_SIZE → data ≠ [] → closed t = false →
  ∃ ps, pieces WRITE_BUFFER_MAX_SIZE data = Ret ps
        ∧ Forall (λ p : bytes, 0 < length p ≤ WRITE_BUFFER_MAX_SIZE) ps
        ∧ concat ps = data
        ∧ write WRITE_BUFFER_MAX_SIZE TRY_WRITE_AGAIN inherited data t
          = write_try_send TRY_WRITE_AGAIN inherited (writing t)
              (set_write_buffer (_write_buffer t ++ ps) t).
Proof.
  intros Hmax Hdata Hopen.
  destruct (pieces_spec data Hmax Hdata) as (ps & Hps & Hbound & Hcat).
  exists ps. repeat split; try done.
  unfold write, _check_closed. rewrite Hopen, Hps.
  destruct data; done.
Qed.

(** While writing is paused [_ready_write] does nothing. *)
Lemma ready_write_paused (t : transport) :
  _paused_writing t = true →
  _ready_write TRY_WRITE_AGAIN inherited t = (Ret (Some 0), t).
Proof. intros H. unfold _ready_write. by rewrite H. Qed.

(** While writing is paused [write] only queues. *)
Lemma write_paused (data : bytes) (t : transport) :
  0 < WRITE_BUFFER_MAX_SIZE → data ≠ [] → closed t = false →
  _paused_writing t = true →
  ∃ ps, concat ps = data
        ∧ write WRITE_BUFFER_MAX_SIZE TRY_WRITE_AGAIN inherited data t
          = (Ret tt, set_write_buffer (_write_buffer t ++ ps) t).
Proof.
  intros Hmax Hdata Hopen Hpaused.
  destruct (write_open data t Hmax Hdata Hopen) as (ps & _ & _ & Hcat & Hw).
  exists ps. split; [done|]. rewrite Hw.
  unfold write_try_send. cbn. rewrite Hpaused.
  by rewrite andb_false_r.
Qed.

(** Any sequence of writes made while writing is paused only lengthens the
    queue, in the order of submission: nothing reaches the socket and the
    event loop is not touched. *)
Lemma writelines_paused (list_of_data : list bytes) (t : transport) :
  0 < WRITE_BUFFER_MAX_SIZE → closed t = false → _paused_writing t = true →
  ∃ t', writelines WRITE_BUFFER_MAX_SIZE TRY_WRITE_AGAIN inherited
          list_of_data t = (Ret tt, t')
        ∧ trace t' = trace t
        ∧ concat (_write_buffer t')
          = concat (_write_buffer t) ++ concat list_of_data
        ∧ _paused_writing t' = true.
Proof.
  intros Hmax. revert t.
  induction list_of_data as [|data rest IH]; intros t Hopen Hpaused.
  - exists t. simpl. by rewrite app_nil_r.
  - cbn [writelines]. destruct data as [|b data].
    + cbn [write]. destruct (IH t Hopen Hpaused) as (t' & -> & Htr & Hq & Hp).
      by exists t'.
    + destruct (write_paused (b :: data) t Hmax) as (ps & Hcat & ->);
        [done..|].
      destruct (IH (set_write_buffer (_write_buffer t ++ ps) t))
        as (t' & -> & Htr & Hq & Hp); [done..|].
      exists t'. repeat split; [done| |done].
      rewrite Hq. cbn [_write_buffer set_write_buffer].
      rewrite concat_app, Hcat, <- app_assoc. done.
Qed.

(** ** Reading while paused *)

Lemma set_read_buffer_twice (b1 b2 : list bytes) (t : transport) :
  set_read_buffer b2 (set_read_buffer b1 t) = set_read_buffer b2 t.
Proof. done. Qed.

(** While reading is paused the chunks received are appended to the read
    buffer in the order of their arrival and the protocol sees nothing. *)
Lemma recv_loop_paused (chunks : list bytes) (passes : nat) (t : transport) :
  Forall (λ c : bytes, c ≠ []) chunks → _paused_reading t = true →
  recv_loop EWOULDBLOCK data_received eof_received (Recv <$> chunks) passes t
  = Receiving [] (set_read_buffer (_read_buffer t ++ chunks) t) None.
Proof.
  intros Hne. revert passes t.
  induction Hne as [|c chunks Hc _ IH]; intros passes t Hpaused.
  - simpl. rewrite app_nil_r. by destruct t.
  - cbn [fmap list_fmap recv_loop]. destruct c as [|b c]; [done|].
    rewrite Hpaused. rewrite IH by done.
    cbn [_read_buffer set_read_buffer]. rewrite <- app_assoc. done.
Qed.

(** [resume] with chunks in the read buffer: the buffer is emptied, the
    first turn of the loop raises, and the protocol is handed nothing. *)
Lemma resume_buffered (t : transport) :
  _paused_reading t = true → _read_buffer t ≠ [] →
  ∃ e, resume inherited t
       = (Raise e, set_read_buffer [] (set_paused_reading false t))
       ∧ (e = NameError "chunk" ∨ e = AttributeError "_data_received").
Proof.
  intros Hpaused Hbuf. unfold resume. rewrite Hpaused.
  destruct (_read_buffer t) as [|c cs] eqn:Hb; [done|].
  cbn [_read_buffer set_paused_reading set_read_buffer]. rewrite Hb.
  cbn [for_each]. unfold resume_body, getattr.
  replace (bool_decide ("_data_received" ∈ own_methods)) with false
    by (by vm_compute).
  destruct (inherited "_data_received").
  - replace (name_bound module_globals "chunk") with false by (by vm_compute).
    eexists; split; [done|]. by left.
  - eexists; split; [done|]. by right.
Qed.

End StreamFacts.

(** ** The claims about the transport *)

(** C10: [write] with an empty byte string is a no-op.  It returns at once
    without raising on every transport, a closed one included (the
    closed-state check comes after the test for empty data), and the write
    queue, the socket and the event loop's writer registration are what they
    were. *)
Theorem write_empty_is_noop (WRITE_BUFFER_MAX_SIZE : nat)
    (TRY_WRITE_AGAIN : list Z) (inherited : string → bool)
    (t : Stream.transport) :
  let out := Stream.write WRITE_BUFFER_MAX_SIZE TRY_WRITE_AGAIN inherited [] t in
  out = (Ret tt, t)
  ∧ Stream._write_buffer out.2 = Stream._write_buffer t
  ∧ Stream.sock_send out.2 = Stream.sock_send t
  ∧ Stream.wire out.2 = Stream.wire t
  ∧ Stream.writer out.2 = Stream.writer t.
Proof. done. Qed.

(** C8: a non-empty chunk passed to [write], where the closed-state check
    of the base class lets the call through and the maximum chunk size is
    positive, is appended to the write queue as non-empty pieces no longer
    than the maximum whose in-order concatenation is the data.  Sending then
    starts from that queue, and what this call puts on the wire is a prefix
    of the bytes queued before followed by the data: bytes reach the socket
    in the order of submission.  The bytes not sent stay queued, in order,
    unless a socket error aborts the connection: then the transport is
    closed and nothing is left queued to be retried. *)
Theorem write_queues_bounded_pieces_in_order (WRITE_BUFFER_MAX_SIZE : nat)
    (TRY_WRITE_AGAIN : list Z) (inherited : string → bool)
    (data : bytes) (t : Stream.transport) :
  0 < WRITE_BUFFER_MAX_SIZE → data ≠ [] → Stream._check_closed t = Ret tt →
  ∃ ps,
    Stream.pieces WRITE_BUFFER_MAX_SIZE data = Ret ps
    ∧ Forall (λ p : bytes, 0 < length p ≤ WRITE_BUFFER_MAX_SIZE) ps
    ∧ concat ps = data
    ∧ Stream.write WRITE_BUFFER_MAX_SIZE TRY_WRITE_AGAIN inherited data t
      = Stream.write_try_send TRY_WRITE_AGAIN inherited (Stream.writing t)
          (Stream.set_write_buffer (Stream._write_buffer t ++ ps) t)
    ∧ let t' := (Stream.write WRITE_BUFFER_MAX_SIZE TRY_WRITE_AGAIN
                   inherited data t).2 in
      ∃ sent unsent,
        Stream.wire t' = Stream.wire t ++ sent
        ∧ sent ++ unsent = concat (Stream._write_buffer t) ++ data
        ∧ (if Stream.closed t' then Stream._write_buffer t' = []
           else concat (Stream._write_buffer t') = unsent).
Proof.
  intros Hmax Hdata Hcheck.
  assert (Hopen : Stream.closed t = false).
  { unfold Stream._check_closed in Hcheck. by destruct (Stream.closed t). }
  destruct (write_open WRITE_BUFFER_MAX_SIZE TRY_WRITE_AGAIN inherited
              data t Hmax Hdata Hopen) as (ps & Hps & Hbound & Hcat & Hw).
  exists ps. repeat split; try done.
  cbn zeta. rewrite Hw.
  destruct (write_try_send_stream TRY_WRITE_AGAIN inherited
              (Stream.writing t)
              (Stream.set_write_buffer (Stream._write_buffer t ++ ps) t)
              Hopen)
    as (sent & unsent & Hwire & Hqueue & Hrest).
  exists sent, unsent. split; [done|]. split; [|done].
  rewrite Hqueue. cbn [Stream._write_buffer Stream.set_write_buffer].
  by rewrite concat_app, Hcat.
Qed.

(** A write of eight bytes with a maximum of three, on a socket that takes
    two bytes, then the rest of the head, then one byte, then blocks. *)
Example write_partial_sends :
  let t := Stream.Transport false false false false [] []
             [Stream.Sent 2; Stream.Sent 10; Stream.Sent 1] [] [] in
  let t' := (Stream.write 3 [] (λ _, false) (bs "abcdefgh") t).2 in
  Stream.pieces 3 (bs "abcdefgh") = Ret [bs "abc"; bs "def"; bs "gh"]
  ∧ Stream.wire t' = bs "abcd"
  ∧ Stream._write_buffer t' = [bs "ef"; bs "gh"]
  ∧ Stream.writer t' = Some (Stream.cb_own "_ready_write").
Proof. done. Qed.

Lemma write_queues_bounded_pieces_in_order_witness :
  let t := Stream.Transport false false false false [] []
             [Stream.Sent 2; Stream.Sent 2;
              Stream.SendRaise (socket_error (Some 32%Z) "Broken pipe")]
             [] [] in
  ∃ ps,
    Stream.pieces 3 (bs "abcdefgh") = Ret ps
    ∧ Forall (λ p : bytes, 0 < length p ≤ 3) ps
    ∧ concat ps = bs "abcdefgh"
    ∧ Stream.write 3 [] (λ _, false) (bs "abcdefgh") t
      = Stream.write_try_send [] (λ _, false) (Stream.writing t)
          (Stream.set_write_buffer (Stream._write_buffer t ++ ps) t)
    ∧ let t' := (Stream.write 3 [] (λ _, false) (bs "abcdefgh") t).2 in
      ∃ sent unsent,
        Stream.wire t' = Stream.wire t ++ sent
        ∧ sent ++ unsent = concat (Stream._write_buffer t) ++ bs "abcdefgh"
        ∧ (if Stream.closed t' then Stream._write_buffer t' = []
           else concat (Stream._write_buffer t') = unsent).
Proof.
  intros t.
  apply (write_queues_bounded_pieces_in_order 3 [] (λ _, false)
           (bs "abcdefgh") t); [lia|done|done].
Defined.

(** C7, at the failing input [pause_writing(); write(b'ab');
    resume_writing()]: while paused the write is queued and nothing is sent,
    as claimed.  But [resume_writing] hands the event loop
    [self._write_ready], a name the class does not define (its sender is
    [_ready_write]).  Where the base class has no such attribute the lookup
    raises before the pause flag is cleared, so the transport stays paused
    with the bytes queued and [_ready_write] still sends nothing; where it
    has one, that inherited callback is registered.  Either way the sender
    of this class is not what resumes. *)
Theorem resume_writing_misses_ready_write (TRY_WRITE_AGAIN : list Z)
    (inherited : string → bool) :
  let t0 := Stream.Transport false false false false [] []
              [Stream.Sent 10] [] [] in
  let t1 := (Stream.write 4 TRY_WRITE_AGAIN inherited (bs "ab")
               (Stream.pause_writing t0)).2 in
  Stream._write_buffer t1 = [bs "ab"]
  ∧ Stream.wire t1 = []
  ∧ (if inherited "_write_ready"
     then Stream.resume_writing inherited t1
          = (Ret tt,
             Stream.set_paused_writing false
               (Stream.emit
                  [Stream.AddWriter (Stream.cb_inherited "_write_ready")] t1))
     else Stream.resume_writing inherited t1
          = (Raise (AttributeError "_write_ready"), t1)
          ∧ Stream._paused_writing t1 = true
          ∧ Stream._ready_write TRY_WRITE_AGAIN inherited t1
            = (Ret (Some 0), t1)).
Proof.
  cbn zeta. split; [done|]. split; [done|].
  unfold Stream.resume_writing, Stream.getattr.
  replace (bool_decide ("_write_ready" ∈ Stream.own_methods)) with false
    by (by vm_compute).
  cbn. destruct (inherited "_write_ready"); done.
Qed.

(** C6, at the failing input: two chunks arrive while reading is paused and
    are buffered in the order of their arrival, as claimed.  But the loop of
    [resume] calls [self._data_received(chunk)], where [chunk] is bound
    nowhere (the loop variable is [data]): the first turn raises, the read
    buffer has already been emptied, and the protocol is handed none of the
    chunks. *)
Theorem resume_loses_buffered_chunks (EWOULDBLOCK : Z)
    (inherited : string → bool) (data_received : Stream.on_data)
    (eof_received : Stream.on_eof) :
  let t0 := Stream.Transport false false false false [] [] []
              [Stream.Recv (bs "ab"); Stream.Recv (bs "c")] [] in
  let t1 := (Stream._read_ready EWOULDBLOCK data_received eof_received
               (Stream.pause t0)).2 in
  let out := Stream.resume inherited t1 in
  Stream._read_buffer t1 = [bs "ab"; bs "c"]
  ∧ Stream.delivered t1 = []
  ∧ out.1 = Raise (if inherited "_data_received"
                   then NameError "chunk"
                   else AttributeError "_data_received")
  ∧ Stream._read_buffer out.2 = []
  ∧ Stream._paused_reading out.2 = false
  ∧ Stream.delivered out.2 = [].
Proof.
  cbn zeta. split; [done|]. split; [done|].
  unfold Stream.resume. cbn.
  unfold Stream.resume_body, Stream.getattr.
  replace (bool_decide ("_data_received" ∈ Stream.own_methods)) with false
    by (by vm_compute).
  replace (name_bound Stream.module_globals "chunk") with false
    by (by vm_compute).
  destruct (inherited "_data_received"); done.
Qed.

(** ** Dialling the candidate addresses *)

Section Dial.

Import Stream.

Lemma string_app_cons (c : ascii) (s1 s2 : string) :
  String c s1 +:+ s2 = String c (s1 +:+ s2).
Proof. done. Qed.

Lemma string_app_nil_r (s : string) : s +:+ "" = s.
Proof.
  induction s as [|c s IH]; [done|]. by rewrite string_app_cons, IH.
Qed.

Lemma string_app_assoc (s1 s2 s3 : string) :
  (s1 +:+ s2) +:+ s3 = s1 +:+ s2 +:+ s3.
Proof.
  induction s1 as [|c s1 IH]; [done|]. by rewrite !string_app_cons, IH.
Qed.

Lemma mentions_refl (s : string) : mentions s s.
Proof. exists "", "". by rewrite string_app_nil_r. Qed.

Lemma mentions_app_l (s1 s2 part : string) :
  mentions s2 part → mentions (s1 +:+ s2) part.
Proof.
  intros (before & after & ->). exists (s1 +:+ before), after.
  by rewrite string_app_assoc.
Qed.

Lemma mentions_app_r (s1 s2 part : string) :
  mentions s1 part → mentions (s1 +:+ s2) part.
Proof.
  intros (before & after & ->). exists before, (after +:+ s2).
  by rewrite !string_app_assoc.
Qed.

(** [sep.join(l)] mentions every member of [l]. *)
Lemma join_mentions (sep : string) (l : list string) (s : string) :
  s ∈ l → mentions (String.concat sep l) s.
Proof.
  induction l as [|x l IH]; intros Hin; [by apply elem_of_nil in Hin|].
  apply elem_of_cons in Hin.
  destruct l as [|y l].
  - destruct Hin as [->|Hin]; [apply mentions_refl|by apply elem_of_nil in Hin].
  - change (String.concat sep (x :: y :: l))
      with (x +:+ sep +:+ String.concat sep (y :: l)).
    destruct Hin as [->|Hin].
    + apply mentions_app_r, mentions_refl.
    + by apply mentions_app_l, mentions_app_l, IH.
Qed.

(** A socket that could be bound to none of the local addresses failed once
    for each of them. *)
Lemma bind_loop_not_bound (laddr_infos : list string)
    (outcomes : list (option exn)) (exceptions : list exn) :
  bind_loop laddr_infos outcomes = (NotBound, exceptions) →
  length exceptions = length laddr_infos.
Proof.
  revert outcomes exceptions.
  induction laddr_infos as [|laddr l IH]; intros outcomes exceptions H;
    simpl in H.
  - by inversion H.
  - destruct outcomes as [|[e|] outcomes]; try done.
    destruct e as [| | | | | | | | | |[errno|] strerror| | |]; try done.
    destruct (bind_loop l outcomes) as [b exs] eqn:Hrec.
    inversion H; subst. simpl. f_equal. by apply IH with outcomes.
Qed.

(** When the loop ends with every candidate failed, each candidate left at
    least one failure. *)
Lemma try_candidates_all_failed (local : option (list string))
    (candidates : list attempt) (i : nat) (exceptions : list exn) :
  local ≠ Some [] →
  try_candidates local candidates i = (AllFailed, exceptions) →
  length candidates ≤ length exceptions.
Proof.
  intros Hlocal. revert i exceptions.
  induction candidates as [|c candidates IH]; intros i exceptions H;
    simpl in H.
  - simpl. lia.
  - destruct (open_outcome c) as [e|].
    { destruct (is_socket_error e); [|done].
      destruct (try_candidates local candidates (S i)) as [d exs] eqn:Hrec.
      inversion H; subst. apply IH in Hrec. simpl. lia. }
    destruct (match local with
              | Some l => bind_loop l (bind_outcomes c)
              | None => (Bound, [])
              end) as [b bexs] eqn:Hbind.
    destruct b as [| |e]; [| |done].
    + destruct (connect_outcome c) as [e|]; [|done].
      destruct (is_socket_error e); [|done].
      destruct (try_candidates local candidates (S i)) as [d exs] eqn:Hrec.
      inversion H; subst. apply IH in Hrec.
      rewrite length_app. simpl. lia.
    + destruct (try_candidates local candidates (S i)) as [d exs] eqn:Hrec.
      inversion H; subst. apply IH in Hrec.
      destruct local as [l|]; [|done].
      apply bind_loop_not_bound in Hbind.
      destruct l; [done|]. rewrite length_app. simpl in *. lia.
Qed.

Lemma same_text_spec (model : string) (exceptions : list exn) :
  forallb (λ exc, String.eqb (str exc) model) exceptions = true
  ↔ ∀ e, e ∈ exceptions → str e = model.
Proof.
  rewrite forallb_forall. split; intros H e He.
  - apply String.eqb_eq, H. by apply list_elem_of_In.
  - apply String.eqb_eq, H. by apply list_elem_of_In.
Qed.

(** What the [else] clause raises when the failures all read the same. *)
Lemma raise_collected_same (e0 : exn) (rest : list exn) :
  (∀ e, e ∈ e0 :: rest → str e = str e0) →
  raise_collected (e0 :: rest) = e0.
Proof.
  intros Hsame. unfold raise_collected.
  destruct rest as [|e1 rest]; [done|].
  apply same_text_spec in Hsame. by rewrite Hsame.
Qed.

(** What it raises when they do not. *)
Lemma raise_collected_mixed (e0 : exn) (rest : list exn) :
  ¬ (∀ e, e ∈ e0 :: rest → str e = str e0) →
  raise_collected (e0 :: rest)
  = socket_error None
      ("Multiple exceptions: " +:+ String.concat ", " (str <$> e0 :: rest)).
Proof.
  intros Hmixed. unfold raise_collected.
  destruct rest as [|e1 rest].
  - exfalso. apply Hmixed. intros e He.
    apply list_elem_of_singleton in He. by subst.
  - destruct (forallb _ _) eqn:Hall; [|done].
    exfalso. apply Hmixed. by apply same_text_spec.
Qed.

End Dial.

(** C9: when [create_connection] has tried every one of its (one or more)
    candidate addresses and all attempts failed, there is a first failure
    and at least as many failures as candidates; if every failure reads the
    same, that first failure itself is raised; otherwise a [socket.error] is
    raised whose message is "Multiple exceptions: " followed by the texts of
    all the failures, so that it mentions each of them.  The candidates are
    tried unless a local address was asked for and resolved to nothing
    ([local = Some []]), which is refused beforehand. *)
Theorem create_connection_all_failed (local : option (list string))
    (candidates : list Stream.attempt) (exceptions : list exn) :
  candidates ≠ [] → local ≠ Some [] →
  Stream.try_candidates local candidates 0 = (Stream.AllFailed, exceptions) →
  ∃ e0 rest,
    exceptions = e0 :: rest
    ∧ length candidates ≤ length exceptions
    ∧ ((∀ e, e ∈ exceptions → str e = str e0) →
       Stream.create_connection local candidates = Raise e0)
    ∧ (¬ (∀ e, e ∈ exceptions → str e = str e0) →
       ∃ msg,
         Stream.create_connection local candidates
         = Raise (socket_error None msg)
         ∧ msg = "Multiple exceptions: " +:+
                 String.concat ", " (str <$> exceptions)
         ∧ ∀ e, e ∈ exceptions → mentions msg (str e)).
Proof.
  intros Hcands Hlocal Hloop.
  pose proof (try_candidates_all_failed _ _ _ _ Hlocal Hloop) as Hlen.
  destruct exceptions as [|e0 rest].
  { destruct candidates; [done|]. simpl in Hlen. lia. }
  exists e0, rest. split; [done|]. split; [done|].
  assert (Hcc : Stream.create_connection local candidates
                = Raise (Stream.raise_collected (e0 :: rest))).
  { unfold Stream.create_connection. rewrite Hloop.
    destruct local as [[|]|]; done. }
  split.
  - intros Hsame. by rewrite Hcc, raise_collected_same.
  - intros Hmixed. eexists. split; [|split; [done|]].
    + by rewrite Hcc, raise_collected_mixed.
    + intros e He. apply mentions_app_l, join_mentions.
      by apply list_elem_of_fmap_2.
Qed.

(** The two cases of C9 on two candidates that both refuse. *)
Example create_connection_distinct_failures :
  Stream.create_connection None
    [Stream.Attempt None [] (Some (socket_error (Some 111%Z) "Connection refused"));
     Stream.Attempt None [] (Some (socket_error (Some 101%Z) "Network is unreachable"))]
  = Raise (socket_error None
             "Multiple exceptions: [Errno 111] Connection refused, [Errno 101] Network is unreachable").
Proof. reflexivity. Qed.

Example create_connection_identical_failures :
  Stream.create_connection None
    [Stream.Attempt None [] (Some (socket_error (Some 111%Z) "Connection refused"));
     Stream.Attempt None [] (Some (socket_error (Some 111%Z) "Connection refused"))]
  = Raise (socket_error (Some 111%Z) "Connection refused").
Proof. reflexivity. Qed.

Lemma create_connection_all_failed_witness :
  let refused := socket_error (Some 111%Z) "Connection refused" in
  let unreachable := socket_error (Some 101%Z) "Network is unreachable" in
  let candidates :=
    [Stream.Attempt None [] (Some refused);
     Stream.Attempt None [] (Some unreachable)] in
  ∃ e0 rest,
    [refused; unreachable] = e0 :: rest
    ∧ length candidates ≤ length [refused; unreachable]
    ∧ ((∀ e, e ∈ [refused; unreachable] → str e = str e0) →
       Stream.create_connection None candidates = Raise e0)
    ∧ (¬ (∀ e, e ∈ [refused; unreachable] → str e = str e0) →
       ∃ msg,
         Stream.create_connection None candidates
         = Raise (socket_error None msg)
         ∧ msg = "Multiple exceptions: " +:+
                 String.concat ", " (str <$> [refused; unreachable])
         ∧ ∀ e, e ∈ [refused; unreachable] → mentions msg (str e)).
Proof.
  intros refused unreachable candidates.
  apply (create_connection_all_failed None candidates [refused; unreachable]);
    [done|done|reflexivity].
Defined.

(** * Facts about the mailbox *)

Section MailboxFacts.

Import Mailbox.

Variable get_command : string → option Command.
Variable actorid : pyval → pyval.
Variable gen_unique_id : nat → string.
Variable pickle_dumps : envelope → result bytes.
Variable encode : bytes → bytes.

(** The placeholder [Message.command] creates is pending. *)
Lemma Deferred_pending (w : world) :
  futures (Deferred w).2 !! (Deferred w).1 = Some None.
Proof. unfold Deferred. cbn. apply lookup_insert_eq. Qed.

(** [_write] attempts at most one write, with the table it was given, and
    touches no placeholder. *)
Lemma _write_effect (req : Message) (pending : gmap string nat) (w : world) :
  let out := _write pickle_dumps encode req pending w in
  futures out.2 = futures w
  ∧ next_future out.2 = next_future w
  ∧ ∃ new, writes out.2 = writes w ++ new
           ∧ Forall (λ wr, pending_then wr = pending) new.
Proof.
  unfold _write.
  destruct (pickle_dumps (data req)) as [obj|e]; cbn.
  - unfold transport_write.
    destruct (write_outcomes w) as [|[e|] rest]; cbn.
    + repeat split. eexists; split; [done|]. by repeat constructor.
    + destruct (is_IOError e); [destruct (is_running w)|]; cbn;
        repeat split; eexists; (split; [done|]); by repeat constructor.
    + repeat split. eexists; split; [done|]. by repeat constructor.
  - repeat split. exists []. by rewrite app_nil_r.
Qed.

(** What [_start] does with a message that carries a token and a pending
    placeholder, case by case. *)
Lemma _start_acked (env : envelope) (f : nat) (token : string)
    (pending : gmap string nat) (w : world) :
  ack env = Some token → futures w !! f = Some None →
  let out := _start pickle_dumps encode (mkMessage env (Some f)) pending w in
  out.1.2 = <[token := f]> pending
  ∧ (∃ new, writes out.2 = writes w ++ new
            ∧ Forall (λ wr, pending_then wr = <[token := f]> pending) new)
  ∧ match pickle_dumps env with
    | Raise e =>
        if is_Exception e
        then out.1.1 = Ret tt ∧ futures out.2 !! f = Some (Some (PyFailure e))
        else out.1.1 = Raise e ∧ futures out.2 !! f = Some None
    | Ret obj =>
        match write_outcomes w with
        | Some e :: _ =>
            if is_IOError e && negb (is_running w)
            then out.1.1 = Ret tt ∧ futures out.2 !! f = Some None
            else if is_Exception e
            then out.1.1 = Ret tt
                 ∧ futures out.2 !! f = Some (Some (PyFailure e))
            else out.1.1 = Raise e ∧ futures out.2 !! f = Some None
        | _ => out.1.1 = Ret tt ∧ futures out.2 !! f = Some None
        end
    end.
Proof.
  intros Hack Hpending. unfold _start. cbn [future data]. rewrite Hack.
  pose proof (_write_effect (mkMessage env (Some f))
                (<[token := f]> pending) w) as (_ & _ & Hnew).
  unfold _write in *. cbn [data] in *.
  destruct (pickle_dumps env) as [obj|e]; [unfold transport_write in *|].
  - destruct (write_outcomes w) as [|[e|] rest];
      [|destruct (is_Exception e) eqn:Hexc, (is_IOError e) eqn:Hio,
          (is_running w) eqn:Hrun; try (by destruct e)|];
      unfold Deferred_callback; cbn in *; rewrite ?Hexc; cbn;
      rewrite ?Hpending; cbn; rewrite ?lookup_insert_eq; done.
  - destruct (is_Exception e) eqn:Hexc;
      unfold Deferred_callback; cbn in *; rewrite ?Hpending; cbn;
      rewrite ?lookup_insert_eq; done.
Qed.

End MailboxFacts.

(** ** The claims about the mailbox *)

(** C1, as stated, fails: for a callback whose token matches no entry of
    the correlation table the body of [_on_message] raises [KeyError], a
    lookup error, and not the [ProtocolError] it raises for a callback
    without a token: the two cases are not signalled uniformly. *)
Lemma orphaned_callback_raises_KeyError :
  let dispatch := λ (_ : Mailbox.envelope) (p : gmap string nat)
                    (w : Mailbox.world), (Ret tt, p, w) in
  let w := Mailbox.World ∅ 0 0 true [] [] in
  let orphaned := Mailbox.Envelope (Some "callback") None None None None
                    (Some "deadbeef") (Some (Mailbox.PyStr "pong")) in
  let untagged := Mailbox.Envelope (Some "callback") None None None None
                    None (Some (Mailbox.PyStr "pong")) in
  (Mailbox._on_message dispatch orphaned ∅ w).1.1
  = Raise (KeyError "Callback deadbeef not in pending callbacks")
  ∧ (Mailbox._on_message dispatch untagged ∅ w).1.1
    = Raise (ProtocolError "A callback without id")
  ∧ is_ProtocolError
      (KeyError "Callback deadbeef not in pending callbacks") = false.
Proof. done. Qed.

(** C1 (amended): for a callback envelope, the body of [_on_message]
    signals a missing (or empty) correlation token with [ProtocolError] and
    a token with no entry in the correlation table with [KeyError], naming
    the token: a lookup error, not the protocol error of the other case.
    In both cases it stops there, with the table and every placeholder as
    they were.  What the [in_loop] decorator makes of either error is not
    part of the statement. *)
Theorem callback_token_errors
    (dispatch_command : Mailbox.envelope → gmap string nat → Mailbox.world →
                        result unit * gmap string nat * Mailbox.world)
    (message : Mailbox.envelope) (pending : gmap string nat)
    (w : Mailbox.world) :
  Mailbox.command message = Some "callback" →
  (Mailbox.falsy (Mailbox.ack message) = true →
   Mailbox._on_message dispatch_command message pending w
   = (Raise (ProtocolError "A callback without id"), pending, w))
  ∧ (∀ token, Mailbox.ack message = Some token → token ≠ "" →
       pending !! token = None →
       Mailbox._on_message dispatch_command message pending w
       = (Raise (KeyError ("Callback " +:+ token +:+
                           " not in pending callbacks")), pending, w)).
Proof.
  intros Hcb. unfold Mailbox._on_message. rewrite Hcb.
  rewrite bool_decide_eq_true_2 by done. split.
  - intros Hfalsy. by rewrite Hfalsy.
  - intros token Hack Hne Hmiss. rewrite Hack. cbn.
    destruct token; [done|]. cbn. by rewrite Hmiss.
Qed.

Lemma callback_token_errors_witness :
  let dispatch := λ (_ : Mailbox.envelope) (p : gmap string nat)
                    (w : Mailbox.world), (Ret tt, p, w) in
  let w := Mailbox.World ∅ 0 0 true [] [] in
  let orphaned := Mailbox.Envelope (Some "callback") None None None None
                    (Some "deadbeef") (Some (Mailbox.PyStr "pong")) in
  (Mailbox.falsy (Mailbox.ack orphaned) = true →
   Mailbox._on_message dispatch orphaned ∅ w
   = (Raise (ProtocolError "A callback without id"), ∅, w))
  ∧ (∀ token, Mailbox.ack orphaned = Some token → token ≠ "" →
       (∅ : gmap string nat) !! token = None →
       Mailbox._on_message dispatch orphaned ∅ w
       = (Raise (KeyError ("Callback " +:+ token +:+
                           " not in pending callbacks")), ∅, w)).
Proof.
  intros dispatch w orphaned.
  apply (callback_token_errors dispatch orphaned ∅ w). reflexivity.
Defined.

(** C2, as stated, fails: when the transport's write raises an [IOError]
    while the actor is not running, [_write] swallows it and the placeholder,
    stored under its token, is left pending. *)
Lemma swallowed_write_failure_leaves_placeholder_pending :
  let ping := Mailbox.mkCommand "ping" true
                (λ _ _ _, Ret (Mailbox.PyStr "pong")) in
  let w := Mailbox.World ∅ 0 0 false [Some (IOError "Transport is closed")]
             [] in
  let out :=
    Mailbox.MailboxProtocol_request (λ _, Some ping) id
      (λ _, "0123456789abcdef") (λ _, Ret (bs "ping")) id
      "ping" (Mailbox.PyStr "a") (Mailbox.PyStr "b") None None ∅ w in
  out.1.1 = Ret (Some 0)
  ∧ out.1.2 !! "01234567" = Some 0
  ∧ Mailbox.futures out.2 !! 0 = Some None
  ∧ length (Mailbox.writes out.2) = 1.
Proof. vm_compute. done. Qed.

Lemma request_acked_unfold
    (get_command : string → option Mailbox.Command)
    (actorid : Mailbox.pyval → Mailbox.pyval) (gen_unique_id : nat → string)
    (pickle_dumps : Mailbox.envelope → result bytes) (encode : bytes → bytes)
    (command_ : string) (sender_ target_ : Mailbox.pyval)
    (args_ kwargs_ : option Mailbox.pyval) (cmd : Mailbox.Command)
    (pending : gmap string nat) (w : Mailbox.world) :
  get_command command_ = Some cmd → Mailbox.ack_required cmd = true →
  let f := Mailbox.next_future w in
  let token := String.substring 0 8 (gen_unique_id (Mailbox.uid_calls w)) in
  let env := Mailbox.command_data actorid cmd sender_ target_ args_ kwargs_
               (Some token) in
  let started := Mailbox._start pickle_dumps encode
                   (Mailbox.mkMessage env (Some f)) pending
                   (Mailbox.after_command w) in
  Mailbox.MailboxProtocol_request get_command actorid gen_unique_id
    pickle_dumps encode command_ sender_ target_ args_ kwargs_ pending w
  = (match started.1.1 with
     | Ret _ => Ret (Some f)
     | Raise e => Raise e
     end, started.1.2, started.2).
Proof.
  intros Hreg Hack. cbn zeta.
  unfold Mailbox.MailboxProtocol_request, Mailbox.Message_command.
  rewrite Hreg, Hack. unfold Mailbox.after_command.
  cbn -[Mailbox._start Mailbox.command_data String.substring].
  destruct (Mailbox._start _ _ _ _ _) as [[[[]|e] p] w']; done.
Qed.

(** C2 (amended): a request for a command that requires acknowledgment
    stores the placeholder in the correlation table under the request's
    token, and every write to the transport it attempts sees it stored.
    If that write raises an exception, the request still returns the
    placeholder, resolved with the failure; except that an [IOError] raised
    while the actor is not running is swallowed and leaves the placeholder
    pending. *)
Theorem request_stores_placeholder_before_write
    (get_command : string → option Mailbox.Command)
    (actorid : Mailbox.pyval → Mailbox.pyval) (gen_unique_id : nat → string)
    (pickle_dumps : Mailbox.envelope → result bytes) (encode : bytes → bytes)
    (command_ : string) (sender_ target_ : Mailbox.pyval)
    (args_ kwargs_ : option Mailbox.pyval) (cmd : Mailbox.Command)
    (pending : gmap string nat) (w : Mailbox.world) :
  get_command command_ = Some cmd → Mailbox.ack_required cmd = true →
  let f := Mailbox.next_future w in
  let token := String.substring 0 8 (gen_unique_id (Mailbox.uid_calls w)) in
  let env := Mailbox.command_data actorid cmd sender_ target_ args_ kwargs_
               (Some token) in
  let out := Mailbox.MailboxProtocol_request get_command actorid
               gen_unique_id pickle_dumps encode command_ sender_ target_
               args_ kwargs_ pending w in
  out.1.2 = <[token := f]> pending
  ∧ (∃ new, Mailbox.writes out.2 = Mailbox.writes w ++ new
            ∧ Forall (λ wr, Mailbox.pending_then wr !! token = Some f) new)
  ∧ (∀ obj e rest,
       pickle_dumps env = Ret obj →
       Mailbox.write_outcomes w = Some e :: rest →
       is_Exception e = true →
       out.1.1 = Ret (Some f)
       ∧ Mailbox.futures out.2 !! f
         = if is_IOError e && negb (Mailbox.is_running w)
           then Some None
           else Some (Some (Mailbox.PyFailure e))).
Proof.
  intros Hreg Hack. cbn zeta.
  rewrite (request_acked_unfold get_command actorid gen_unique_id
             pickle_dumps encode command_ sender_ target_ args_ kwargs_ cmd
             pending w Hreg Hack).
  cbn zeta. cbn [fst snd].
  assert (Hfut : Mailbox.futures (Mailbox.after_command w) !! Mailbox.next_future w
                 = Some None) by apply lookup_insert_eq.
  destruct (_start_acked pickle_dumps encode
              (Mailbox.command_data actorid cmd sender_ target_ args_ kwargs_
                 (Some (String.substring 0 8
                          (gen_unique_id (Mailbox.uid_calls w)))))
              (Mailbox.next_future w)
              (String.substring 0 8 (gen_unique_id (Mailbox.uid_calls w)))
              pending (Mailbox.after_command w) eq_refl Hfut)
    as (Htable & Hwrites & Hcases).
  split; [done|]. split.
  - destruct Hwrites as (new & Hnew & Hall). exists new. split; [done|].
    eapply Forall_impl; [exact Hall|]. intros wr ->. apply lookup_insert_eq.
  - intros obj e rest Hpickle Hout Hexc.
    rewrite Hpickle in Hcases. cbn [Mailbox.after_command Mailbox.write_outcomes
      Mailbox.is_running] in Hcases.
    rewrite Hout in Hcases.
    destruct (is_IOError e && negb (Mailbox.is_running w));
      rewrite ?Hexc in Hcases; destruct Hcases as [-> Hf]; done.
Qed.

Lemma request_stores_placeholder_before_write_witness :
  let ping := Mailbox.mkCommand "ping" true
                (λ _ _ _, Ret (Mailbox.PyStr "pong")) in
  let w := Mailbox.World ∅ 0 0 true [Some (IOError "Transport is closed")]
             [] in
  let out :=
    Mailbox.MailboxProtocol_request (λ _, Some ping) id
      (λ _, "0123456789abcdef") (λ _, Ret (bs "ping")) id
      "ping" (Mailbox.PyStr "a") (Mailbox.PyStr "b") None None ∅ w in
  out.1.2 = <["01234567" := 0]> ∅
  ∧ (∃ new, Mailbox.writes out.2 = [] ++ new
            ∧ Forall (λ wr, Mailbox.pending_then wr !! "01234567" = Some 0)
                new)
  ∧ (∀ obj e rest,
       Ret (bs "ping") = Ret obj →
       [Some (IOError "Transport is closed")] = Some e :: rest →
       is_Exception e = true →
       out.1.1 = Ret (Some 0)
       ∧ Mailbox.futures out.2 !! 0
         = if is_IOError e && negb true
           then Some None
           else Some (Some (Mailbox.PyFailure e))).
Proof.
  intros ping w out.
  apply (request_stores_placeholder_before_write (λ _, Some ping) id
           (λ _, "0123456789abcdef") (λ _, Ret (bs "ping")) id
           "ping" (Mailbox.PyStr "a") (Mailbox.PyStr "b") None None ping ∅ w);
    reflexivity.
Defined.

(** C3, at the failing input: a client that has no connection yet and whose
    router address is a [(host, port)] pair.  The connection is asked of
    [loop.create_connection], and [loop] is bound nowhere (the constructor
    keeps the event loop as [self._loop]): the request raises [NameError];
    no connection is established or remembered, no message is built and
    nothing is written. *)
Theorem client_request_without_connection_raises
    (get_command : string → option Mailbox.Command)
    (actorid : Mailbox.pyval → Mailbox.pyval) (gen_unique_id : nat → string)
    (pickle_dumps : Mailbox.envelope → result bytes) (encode : bytes → bytes)
    (create_connection : Mailbox.pyval → Mailbox.pyval → Mailbox.world →
                         result (gmap string nat) * Mailbox.world)
    (command_ : string) (sender_ target_ : Mailbox.pyval)
    (args_ kwargs_ : option Mailbox.pyval) (w : Mailbox.world) :
  let self := Mailbox.mkMailboxClient
                (Mailbox.PyTuple [Mailbox.PyStr "127.0.0.1";
                                  Mailbox.PyInt 8000]) None in
  Mailbox.MailboxClient_request get_command actorid gen_unique_id
    pickle_dumps encode create_connection command_ sender_ target_ args_
    kwargs_ self w
  = (Raise (NameError "loop"), self, w).
Proof.
  cbn zeta. unfold Mailbox.MailboxClient_request. cbn.
  replace (name_bound Mailbox.module_globals "loop") with false
    by (by vm_compute).
  done.
Qed.

(** A client that remembers a connection uses it: the message is built and
    handed to that connection's [_start], and the caller waits on the
    message's placeholder. *)
Lemma client_request_reuses_connection
    (get_command : string → option Mailbox.Command)
    (actorid : Mailbox.pyval → Mailbox.pyval) (gen_unique_id : nat → string)
    (pickle_dumps : Mailbox.envelope → result bytes) (encode : bytes → bytes)
    (create_connection : Mailbox.pyval → Mailbox.pyval → Mailbox.world →
                         result (gmap string nat) * Mailbox.world)
    (command_ : string) (sender_ target_ : Mailbox.pyval)
    (args_ kwargs_ : option Mailbox.pyval) (address_ : Mailbox.pyval)
    (pending : gmap string nat) (w : Mailbox.world) :
  let out := Mailbox.MailboxClient_request get_command actorid gen_unique_id
               pickle_dumps encode create_connection command_ sender_
               target_ args_ kwargs_
               (Mailbox.mkMailboxClient address_ (Some pending)) w in
  let via := Mailbox.MailboxProtocol_request get_command actorid
               gen_unique_id pickle_dumps encode command_ sender_ target_
               args_ kwargs_ pending w in
  out.1.1 = via.1.1
  ∧ out.2 = via.2
  ∧ Mailbox._connection out.1.2 = Some via.1.2.
Proof.
  cbn zeta.
  unfold Mailbox.MailboxClient_request, Mailbox.MailboxProtocol_request.
  cbn [Mailbox._connection Mailbox.address default from_option id].
  destruct (Mailbox.Message_command _ _ _ _ _ _ _ _ _) as [[req|e] w1];
    [|done].
  destruct (Mailbox._start _ _ _ _ _) as [[[[]|e] p] w2]; done.
Qed.

(** C4, at a name the registry does not know: [Message.command] reads
    [command.__name__] off the registry's [None] and raises [AttributeError]
    (no envelope is built, and nothing else changes), where
    [command_in_context] checks the answer and raises [CommandError]. *)
Theorem Message_command_unknown
    (get_command : string → option Mailbox.Command)
    (actorid : Mailbox.pyval → Mailbox.pyval) (gen_unique_id : nat → string)
    (command_ : string) (sender_ target_ : Mailbox.pyval)
    (args_ kwargs_ : option Mailbox.pyval) (w : Mailbox.world) :
  get_command command_ = None →
  Mailbox.Message_command get_command actorid gen_unique_id command_
    sender_ target_ args_ kwargs_ w
  = (Raise (AttributeError "__name__"), w)
  ∧ Mailbox.command_in_context get_command command_ sender_ target_
      (default (Mailbox.PyTuple []) args_) (default (Mailbox.PyDict []) kwargs_)
    = Raise (CommandError ("unknown " +:+ command_)).
Proof.
  intros Hnone. unfold Mailbox.Message_command, Mailbox.command_in_context.
  by rewrite Hnone.
Qed.

Lemma Message_command_unknown_witness :
  let w := Mailbox.World ∅ 0 0 true [] [] in
  Mailbox.Message_command (λ _, None) id (λ _, "0123456789abcdef") "nosuch"
    (Mailbox.PyStr "a") (Mailbox.PyStr "b") None None w
  = (Raise (AttributeError "__name__"), w)
  ∧ Mailbox.command_in_context (λ _, None) "nosuch" (Mailbox.PyStr "a")
      (Mailbox.PyStr "b") (Mailbox.PyTuple []) (Mailbox.PyDict [])
    = Raise (CommandError "unknown nosuch").
Proof.
  intros w.
  apply (Message_command_unknown (λ _, None) id (λ _, "0123456789abcdef")
           "nosuch" (Mailbox.PyStr "a") (Mailbox.PyStr "b") None None w).
  reflexivity.
Defined.

(** C5: for a command that does not require acknowledgment,
    [Message.command] builds a message with no correlation token and no
    placeholder (none is created), and sending it, through [_start] or
    through [request], leaves the correlation table as it was, whether or
    not the write succeeds. *)
Theorem unacked_request_keeps_table
    (get_command : string → option Mailbox.Command)
    (actorid : Mailbox.pyval → Mailbox.pyval) (gen_unique_id : nat → string)
    (pickle_dumps : Mailbox.envelope → result bytes) (encode : bytes → bytes)
    (command_ : string) (sender_ target_ : Mailbox.pyval)
    (args_ kwargs_ : option Mailbox.pyval) (cmd : Mailbox.Command)
    (pending : gmap string nat) (w : Mailbox.world) :
  get_command command_ = Some cmd → Mailbox.ack_required cmd = false →
  ∃ req,
    Mailbox.Message_command get_command actorid gen_unique_id command_
      sender_ target_ args_ kwargs_ w = (Ret req, w)
    ∧ Mailbox.ack (Mailbox.data req) = None
    ∧ Mailbox.future req = None
    ∧ (Mailbox._start pickle_dumps encode req pending w).1.2 = pending
    ∧ let out := Mailbox.MailboxProtocol_request get_command actorid
                   gen_unique_id pickle_dumps encode command_ sender_
                   target_ args_ kwargs_ pending w in
      out.1.2 = pending
      ∧ Mailbox.futures out.2 = Mailbox.futures w
      ∧ Mailbox.next_future out.2 = Mailbox.next_future w.
Proof.
  intros Hreg Hack.
  unfold Mailbox.MailboxProtocol_request, Mailbox.Message_command.
  rewrite Hreg, Hack. eexists. split; [done|].
  cbn [Mailbox.data Mailbox.future Mailbox.command_data Mailbox.ack].
  split; [done|]. split; [done|].
  unfold Mailbox._start.
  cbn [Mailbox.data Mailbox.future Mailbox.command_data Mailbox.ack].
  pose proof (_write_effect pickle_dumps encode
                (Mailbox.mkMessage
                   (Mailbox.command_data actorid cmd sender_ target_ args_
                      kwargs_ None) None) pending w) as (Hf & Hn & _).
  destruct (Mailbox._write _ _ _ _ _) as [[[]|e] w']; done.
Qed.

Lemma unacked_request_keeps_table_witness :
  let notify := Mailbox.mkCommand "notify" false (λ _ _ _, Ret Mailbox.PyNone) in
  let w := Mailbox.World ∅ 0 0 true [] [] in
  let pending : gmap string nat := {["01234567" := 0]} in
  ∃ req,
    Mailbox.Message_command (λ _, Some notify) id (λ _, "0123456789abcdef")
      "notify" (Mailbox.PyStr "a") (Mailbox.PyStr "b") None None w
    = (Ret req, w)
    ∧ Mailbox.ack (Mailbox.data req) = None
    ∧ Mailbox.future req = None
    ∧ (Mailbox._start (λ _, Ret (bs "notify")) id req pending w).1.2 = pending
    ∧ let out := Mailbox.MailboxProtocol_request (λ _, Some notify) id
                   (λ _, "0123456789abcdef") (λ _, Ret (bs "notify")) id
                   "notify" (Mailbox.PyStr "a") (Mailbox.PyStr "b") None None
                   pending w in
      out.1.2 = pending
      ∧ Mailbox.futures out.2 = Mailbox.futures w
      ∧ Mailbox.next_future out.2 = Mailbox.next_future w.
Proof.
  intros notify w pending.
  apply (unacked_request_keeps_table (λ _, Some notify) id
           (λ _, "0123456789abcdef") (λ _, Ret (bs "notify")) id "notify"
           (Mailbox.PyStr "a") (Mailbox.PyStr "b") None None notify pending w);
    reflexivity.
Defined.

(** * Further properties of the transport *)

Section ReadFacts.

Import Stream.

Variable EWOULDBLOCK : Z.
Variable data_received : on_data.
Variable eof_received : on_eof.

Lemma emit_emit (evs1 evs2 : list event) (t : transport) :
  emit evs2 (emit evs1 t) = emit (evs1 ++ evs2) t.
Proof. unfold emit. simpl. by rewrite app_assoc. Qed.

Lemma emit_nil (t : transport) : emit [] t = t.
Proof. destruct t. unfold emit. simpl. by rewrite app_nil_r. Qed.

Lemma delivered_of_DataReceived (chunks : list bytes) :
  delivered_of (DataReceived <$> chunks) = chunks.
Proof. induction chunks as [|c chunks IH]; [done|]. cbn. by rewrite IH. Qed.

(** Non-empty chunks received while reading is not paused, by a protocol
    that takes them without raising and without touching the transport, go
    to the protocol one by one; the loop then goes on with what the socket
    does next. *)
Lemma recv_loop_unpaused (chunks : list bytes) (tail : list recv_outcome)
    (passes : nat) (t : transport) :
  Forall (λ c : bytes, c ≠ []) chunks → _paused_reading t = false →
  (∀ c t0, c ∈ chunks → data_received c t0 = (Ret tt, t0)) →
  recv_loop EWOULDBLOCK data_received eof_received
    ((Recv <$> chunks) ++ tail) passes t
  = recv_loop EWOULDBLOCK data_received eof_received tail
      (passes + length chunks) (emit (DataReceived <$> chunks) t).
Proof.
  intros Hne. revert passes t.
  induction Hne as [|c chunks Hc _ IH]; intros passes t Hunpaused Hquiet.
  - simpl. by rewrite Nat.add_0_r, emit_nil.
  - cbn [fmap list_fmap app recv_loop]. destruct c as [|b c]; [done|].
    rewrite Hunpaused, Hquiet by apply list_elem_of_here.
    rewrite IH; [|done|].
    + rewrite emit_emit. cbn [length]. by rewrite Nat.add_succ_r.
    + intros c' t0 Hc'. apply Hquiet. by apply list_elem_of_further.
Qed.

(** Non-empty chunks received while reading is paused are buffered; the
    loop then goes on with what the socket does next. *)
Lemma recv_loop_buffers (chunks : list bytes) (tail : list recv_outcome)
    (passes : nat) (t : transport) :
  Forall (λ c : bytes, c ≠ []) chunks → _paused_reading t = true →
  recv_loop EWOULDBLOCK data_received eof_received
    ((Recv <$> chunks) ++ tail) passes t
  = recv_loop EWOULDBLOCK data_received eof_received tail
      (passes + length chunks)
      (set_read_buffer (_read_buffer t ++ chunks) t).
Proof.
  intros Hne. revert passes t.
  induction Hne as [|c chunks Hc _ IH]; intros passes t Hpaused.
  - simpl. rewrite Nat.add_0_r, app_nil_r. by destruct t.
  - cbn [fmap list_fmap app recv_loop]. destruct c as [|b c]; [done|].
    rewrite Hpaused, IH by done.
    cbn [_read_buffer set_read_buffer length].
    by rewrite <- app_assoc, Nat.add_succ_r.
Qed.

(** An exception that ends the loop is one the socket or the protocol
    raised. *)
Lemma recv_loop_failure (script : list recv_outcome) (passes : nat)
    (t : transport) (e : exn) :
  recv_failure (recv_loop EWOULDBLOCK data_received eof_received script
                  passes t) = Some e →
  RecvRaise e ∈ script
  ∨ (∃ c t0, (data_received c t0).1 = Raise e)
  ∨ (∃ t0, (eof_received t0).1 = Raise e).
Proof.
  revert passes t. induction script as [|o script IH]; intros passes t H.
  - done.
  - destruct o as [chunk|e']; cbn [recv_loop] in H.
    + destruct chunk as [|b chunk].
      * destruct (passes =? 0); [|done].
        destruct (eof_received (emit [EofReceived] t)) as [[u|e'] t1] eqn:He;
          [done|].
        cbn in H. inversion H; subst e'. right. right.
        exists (emit [EofReceived] t). by rewrite He.
      * destruct (_paused_reading t).
        { apply IH in H as [H|H]; [|by right].
          left. by apply list_elem_of_further. }
        destruct (data_received (b :: chunk)
                    (emit [DataReceived (b :: chunk)] t))
          as [[u|e'] t1] eqn:Hd.
        { apply IH in H as [H|H]; [|by right].
          left. by apply list_elem_of_further. }
        cbn in H. inversion H; subst e'. right. left.
        exists (b :: chunk), (emit [DataReceived (b :: chunk)] t).
        by rewrite Hd.
    + destruct (is_socket_error e' && would_block EWOULDBLOCK e'); [done|].
      cbn in H. inversion H. left. apply list_elem_of_here.
Qed.

End ReadFacts.

(** X1: chunks that arrive while reading is paused are appended to the read
    buffer in the order of their arrival, and the protocol is handed
    nothing. *)
Theorem read_ready_paused_buffers (EWOULDBLOCK : Z)
    (data_received : Stream.on_data) (eof_received : Stream.on_eof)
    (chunks : list bytes) (t : Stream.transport) :
  Stream._paused_reading t = true →
  Forall (λ c : bytes, c ≠ []) chunks →
  Stream.sock_recv t = Stream.Recv <$> chunks →
  let out := Stream._read_ready EWOULDBLOCK data_received eof_received t in
  out.1 = Ret tt
  ∧ Stream._read_buffer out.2 = Stream._read_buffer t ++ chunks
  ∧ Stream.trace out.2 = Stream.trace t
  ∧ Stream.delivered out.2 = Stream.delivered t.
Proof.
  intros Hpaused Hne Hscript. cbn zeta. unfold Stream._read_ready.
  rewrite Hscript,
    (recv_loop_paused EWOULDBLOCK data_received eof_received chunks 0 t Hne
       Hpaused).
  done.
Qed.

Lemma read_ready_paused_buffers_witness :
  let t := Stream.Transport false false true false [bs "x"] [] []
             [Stream.Recv (bs "ab"); Stream.Recv (bs "c")] [] in
  let refuse : Stream.on_data := λ _ t0, (Raise (ProtocolError "no"), t0) in
  let out := Stream._read_ready 11 refuse (refuse []) t in
  out.1 = Ret tt
  ∧ Stream._read_buffer out.2 = [bs "x"] ++ [bs "ab"; bs "c"]
  ∧ Stream.trace out.2 = Stream.trace t
  ∧ Stream.delivered out.2 = Stream.delivered t.
Proof.
  intros t refuse.
  apply (read_ready_paused_buffers 11 refuse (refuse []) [bs "ab"; bs "c"] t);
    [done|by repeat constructor|done].
Defined.

(** X2: chunks that arrive while reading is not paused are handed to the
    protocol, each as it arrived and in the order of arrival, and the read
    buffer is left alone, provided the protocol takes each of them without
    raising and without calling back into the transport. *)
Theorem read_ready_delivers_in_order (EWOULDBLOCK : Z)
    (data_received : Stream.on_data) (eof_received : Stream.on_eof)
    (chunks : list bytes) (t : Stream.transport) :
  Stream._paused_reading t = false →
  Forall (λ c : bytes, c ≠ []) chunks →
  Stream.sock_recv t = Stream.Recv <$> chunks →
  (∀ c t0, c ∈ chunks → data_received c t0 = (Ret tt, t0)) →
  let out := Stream._read_ready EWOULDBLOCK data_received eof_received t in
  out.1 = Ret tt
  ∧ Stream.trace out.2 = Stream.trace t ++ (Stream.DataReceived <$> chunks)
  ∧ Stream.delivered out.2 = Stream.delivered t ++ chunks
  ∧ Stream._read_buffer out.2 = Stream._read_buffer t.
Proof.
  intros Hunpaused Hne Hscript Hquiet. cbn zeta. unfold Stream._read_ready.
  rewrite Hscript, <- (app_nil_r (Stream.Recv <$> chunks)).
  rewrite (recv_loop_unpaused EWOULDBLOCK data_received eof_received chunks
             [] 0 t Hne Hunpaused Hquiet).
  cbn. repeat split; try done.
  unfold Stream.delivered. cbn.
  by rewrite delivered_of_app, delivered_of_DataReceived.
Qed.

Lemma read_ready_delivers_in_order_witness :
  let t := Stream.Transport false false false false [] [] []
             [Stream.Recv (bs "ab"); Stream.Recv (bs "c")] [] in
  let refuse_long : Stream.on_data :=
    λ c t0, if 2 <? length c
            then (Raise (ProtocolError "Could not decode message body"), t0)
            else (Ret tt, t0) in
  let out := Stream._read_ready 11 refuse_long (λ t0, (Ret tt, t0)) t in
  out.1 = Ret tt
  ∧ Stream.trace out.2
    = Stream.trace t ++ (Stream.DataReceived <$> [bs "ab"; bs "c"])
  ∧ Stream.delivered out.2 = Stream.delivered t ++ [bs "ab"; bs "c"]
  ∧ Stream._read_buffer out.2 = Stream._read_buffer t.
Proof.
  intros t refuse_long.
  apply (read_ready_delivers_in_order 11 refuse_long (λ t0, (Ret tt, t0))
           [bs "ab"; bs "c"] t); [done|by repeat constructor|done|].
  intros c t0 Hc. subst refuse_long. cbn beta.
  apply elem_of_cons in Hc as [->|Hc]; [done|].
  apply list_elem_of_singleton in Hc as ->. done.
Defined.

(** X3: a zero-length read ends the readiness event and leaves the rest of
    the socket unread.  With a protocol that takes what it is given without
    raising and without calling back into the transport, paused or not, the
    protocol is told of the end of the stream, and the transport closed,
    only when that read is the first of the event: after chunks were
    received in the same event nothing is signalled. *)
Theorem read_ready_eof_only_on_first_read (EWOULDBLOCK : Z)
    (data_received : Stream.on_data) (eof_received : Stream.on_eof)
    (chunks : list bytes) (rest : list Stream.recv_outcome)
    (t : Stream.transport) :
  Forall (λ c : bytes, c ≠ []) chunks →
  Stream.sock_recv t = (Stream.Recv <$> chunks) ++ Stream.Recv [] :: rest →
  (∀ c t0, c ∈ chunks → data_received c t0 = (Ret tt, t0)) →
  (∀ t0, eof_received t0 = (Ret tt, t0)) →
  let out := Stream._read_ready EWOULDBLOCK data_received eof_received t in
  out.1 = Ret tt
  ∧ Stream.sock_recv out.2 = rest
  ∧ Stream.trace out.2
    = Stream.trace t
      ++ (if Stream._paused_reading t then []
          else Stream.DataReceived <$> chunks)
      ++ (match chunks with
          | [] => [Stream.EofReceived; Stream.Close]
          | _ :: _ => []
          end).
Proof.
  intros Hne Hscript Hquiet Heof. cbn zeta. unfold Stream._read_ready.
  rewrite Hscript.
  destruct (Stream._paused_reading t) eqn:Hpaused.
  - rewrite (recv_loop_buffers EWOULDBLOCK data_received eof_received chunks
               _ 0 t Hne Hpaused).
    cbn [Stream.recv_loop]. destruct chunks as [|c chunks]; cbn.
    + rewrite Heof. cbn. by rewrite <- app_assoc.
    + by rewrite app_nil_r.
  - rewrite (recv_loop_unpaused EWOULDBLOCK data_received eof_received chunks
               _ 0 t Hne Hpaused Hquiet).
    cbn [Stream.recv_loop]. destruct chunks as [|c chunks]; cbn.
    + rewrite Heof. cbn. by rewrite app_nil_r, <- app_assoc.
    + by rewrite app_nil_r.
Qed.

Lemma read_ready_eof_only_on_first_read_witness :
  let t := Stream.Transport false false false false [] [] []
             [Stream.Recv (bs "ab"); Stream.Recv []; Stream.Recv (bs "c")]
             [] in
  let quiet : Stream.on_data := λ _ t0, (Ret tt, t0) in
  let out := Stream._read_ready 11 quiet (quiet []) t in
  out.1 = Ret tt
  ∧ Stream.sock_recv out.2 = [Stream.Recv (bs "c")]
  ∧ Stream.trace out.2
    = Stream.trace t
      ++ (if Stream._paused_reading t then []
          else Stream.DataReceived <$> [bs "ab"])
      ++ [].
Proof.
  intros t quiet.
  apply (read_ready_eof_only_on_first_read 11 quiet (quiet []) [bs "ab"]
           [Stream.Recv (bs "c")] t); [by repeat constructor|done..].
Defined.

(** X4: [_read_ready] lets no [Exception] out.  Whatever the socket gives
    or raises and whatever the protocol does with what it is handed, as
    long as what they raise are [Exception]s, the call returns; and an
    exception that ends the reading, of the socket or of the protocol,
    aborts the connection: the transport is closed and the abort, with
    that exception as its cause, is the last thing recorded. *)
Theorem read_ready_never_raises (EWOULDBLOCK : Z)
    (data_received : Stream.on_data) (eof_received : Stream.on_eof)
    (t : Stream.transport) :
  (∀ e, Stream.RecvRaise e ∈ Stream.sock_recv t → is_Exception e = true) →
  (∀ c t0 e, (data_received c t0).1 = Raise e → is_Exception e = true) →
  (∀ t0 e, (eof_received t0).1 = Raise e → is_Exception e = true) →
  let out := Stream._read_ready EWOULDBLOCK data_received eof_received t in
  out.1 = Ret tt
  ∧ ∀ e, Stream.recv_failure
           (Stream.recv_loop EWOULDBLOCK data_received eof_received
              (Stream.sock_recv t) 0 t) = Some e →
         Stream.closed out.2 = true
         ∧ last (Stream.trace out.2) = Some (Stream.Abort e).
Proof.
  intros Hsock Hdata Heof. cbn zeta. unfold Stream._read_ready.
  pose proof (recv_loop_failure EWOULDBLOCK data_received eof_received
                (Stream.sock_recv t) 0 t) as Hfail.
  destruct (Stream.recv_failure _) as [e|] eqn:Hf; [|done].
  assert (He : is_Exception e = true).
  { destruct (Hfail e eq_refl) as [H|[(c & t0 & H)|(t0 & H)]].
    - by apply Hsock.
    - by eapply Hdata.
    - by eapply Heof. }
  rewrite He. split; [done|]. intros e' H. inversion H; subst e'.
  split; [done|]. unfold Stream.abort. cbn. by rewrite last_snoc.
Qed.

Lemma read_ready_never_raises_witness :
  let t := Stream.Transport false false false false [] [bs "queued"] []
             [Stream.Recv (bs "ab"); Stream.Recv (bs "xyz");
              Stream.RecvRaise (socket_error (Some 104%Z)
                                  "Connection reset by peer")] [] in
  let refuse_long : Stream.on_data :=
    λ c t0, if 2 <? length c
            then (Raise (ProtocolError "Could not decode message body"), t0)
            else (Ret tt, t0) in
  let eof : Stream.on_eof := λ t0, (Ret tt, t0) in
  let out := Stream._read_ready 11 refuse_long eof t in
  out.1 = Ret tt
  ∧ ∀ e, Stream.recv_failure
           (Stream.recv_loop 11 refuse_long eof (Stream.sock_recv t) 0 t)
         = Some e →
         Stream.closed out.2 = true
         ∧ last (Stream.trace out.2) = Some (Stream.Abort e).
Proof.
  intros t refuse_long eof.
  apply (read_ready_never_raises 11 refuse_long eof t).
  - intros e He. repeat (apply elem_of_cons in He as [He|He]; [done|]).
    apply list_elem_of_singleton in He. by inversion He.
  - intros c t0 e. subst refuse_long. cbn beta.
    destruct (2 <? length c); intros H; by inversion H.
  - intros t0 e H. inversion H.
Defined.

(** X28: a chunk the protocol refuses ends the reading and aborts the
    connection.  When [data_received] raises an [Exception] for a chunk,
    after chunks it took quietly, [_read_ready] returns normally; what the
    socket holds after that chunk is left unread; the chunks up to and
    including the refused one are those the protocol was handed; and the
    transport is aborted with the protocol's exception: closed, its write
    queue dropped. *)
Theorem read_ready_protocol_failure_aborts (EWOULDBLOCK : Z)
    (data_received : Stream.on_data) (eof_received : Stream.on_eof)
    (chunks : list bytes) (c0 : bytes) (rest : list Stream.recv_outcome)
    (e : exn) (t : Stream.transport) :
  Stream._paused_reading t = false →
  Forall (λ c : bytes, c ≠ []) chunks → c0 ≠ [] →
  Stream.sock_recv t = (Stream.Recv <$> chunks) ++ Stream.Recv c0 :: rest →
  (∀ c t0, c ∈ chunks → data_received c t0 = (Ret tt, t0)) →
  (∀ t0, data_received c0 t0 = (Raise e, t0)) →
  is_Exception e = true →
  let out := Stream._read_ready EWOULDBLOCK data_received eof_received t in
  out.1 = Ret tt
  ∧ Stream.sock_recv out.2 = rest
  ∧ Stream.delivered out.2 = Stream.delivered t ++ chunks ++ [c0]
  ∧ Stream.closed out.2 = true
  ∧ Stream._write_buffer out.2 = []
  ∧ last (Stream.trace out.2) = Some (Stream.Abort e).
Proof.
  intros Hunpaused Hne Hc0 Hscript Hquiet Hrefuse He. cbn zeta.
  unfold Stream._read_ready. rewrite Hscript.
  rewrite (recv_loop_unpaused EWOULDBLOCK data_received eof_received chunks
             _ 0 t Hne Hunpaused Hquiet).
  cbn [Stream.recv_loop]. destruct c0 as [|b c0]; [done|].
  cbn [Stream._paused_reading Stream.emit]. rewrite Hunpaused, Hrefuse.
  cbn [Stream.recv_failure]. rewrite He.
  cbn. repeat split; try done.
  - unfold Stream.delivered.
    rewrite !delivered_of_app, delivered_of_DataReceived. cbn.
    by rewrite app_nil_r, <- app_assoc.
  - by rewrite last_snoc.
Qed.

Lemma read_ready_protocol_failure_aborts_witness :
  let t := Stream.Transport false false false false [] [bs "queued"] []
             [Stream.Recv (bs "ab"); Stream.Recv (bs "xyz");
              Stream.Recv (bs "cd")] [] in
  let refused := ProtocolError "Could not decode message body" in
  let refuse_long : Stream.on_data :=
    λ c t0, if 2 <? length c then (Raise refused, t0)
            else (Ret tt, t0) in
  let out := Stream._read_ready 11 refuse_long (λ t0, (Ret tt, t0)) t in
  out.1 = Ret tt
  ∧ Stream.sock_recv out.2 = [Stream.Recv (bs "cd")]
  ∧ Stream.delivered out.2 = Stream.delivered t ++ [bs "ab"] ++ [bs "xyz"]
  ∧ Stream.closed out.2 = true
  ∧ Stream._write_buffer out.2 = []
  ∧ last (Stream.trace out.2) = Some (Stream.Abort refused).
Proof.
  intros t refused refuse_long.
  apply (read_ready_protocol_failure_aborts 11 refuse_long (λ t0, (Ret tt, t0))
           [bs "ab"] (bs "xyz") [Stream.Recv (bs "cd")] refused t);
    try done.
  - by repeat constructor.
  - intros c t0 Hc. apply list_elem_of_singleton in Hc as ->. done.
Defined.

(** X29: a protocol that pauses the transport from [data_received] is
    handed nothing more in that readiness event: the pause flag is read
    anew for every chunk, so the chunks after the one that made it pause
    are buffered, in the order of their arrival. *)
Theorem read_ready_pause_from_protocol (EWOULDBLOCK : Z)
    (data_received : Stream.on_data) (eof_received : Stream.on_eof)
    (c0 : bytes) (chunks : list bytes) (t : Stream.transport) :
  Stream._paused_reading t = false →
  c0 ≠ [] → Forall (λ c : bytes, c ≠ []) chunks →
  Stream.sock_recv t = Stream.Recv c0 :: (Stream.Recv <$> chunks) →
  (∀ t0, data_received c0 t0 = (Ret tt, Stream.pause t0)) →
  let out := Stream._read_ready EWOULDBLOCK data_received eof_received t in
  out.1 = Ret tt
  ∧ Stream.delivered out.2 = Stream.delivered t ++ [c0]
  ∧ Stream._read_buffer out.2 = Stream._read_buffer t ++ chunks
  ∧ Stream._paused_reading out.2 = true.
Proof.
  intros Hunpaused Hc0 Hne Hscript Hpause. cbn zeta.
  unfold Stream._read_ready. rewrite Hscript.
  cbn [Stream.recv_loop]. destruct c0 as [|b c0]; [done|].
  rewrite Hunpaused, Hpause.
  rewrite (recv_loop_paused EWOULDBLOCK data_received eof_received chunks 1 _
             Hne).
  2: { unfold Stream.pause. cbn. by rewrite Hunpaused. }
  unfold Stream.pause. cbn. rewrite Hunpaused. cbn.
  repeat split; try done.
  unfold Stream.delivered. cbn. by rewrite delivered_of_app.
Qed.

Lemma read_ready_pause_from_protocol_witness :
  let t := Stream.Transport false false false false [] [] []
             [Stream.Recv (bs "ab"); Stream.Recv (bs "c");
              Stream.Recv (bs "de")] [] in
  let pausing : Stream.on_data := λ _ t0, (Ret tt, Stream.pause t0) in
  let out := Stream._read_ready 11 pausing (λ t0, (Ret tt, t0)) t in
  out.1 = Ret tt
  ∧ Stream.delivered out.2 = Stream.delivered t ++ [bs "ab"]
  ∧ Stream._read_buffer out.2 = Stream._read_buffer t ++ [bs "c"; bs "de"]
  ∧ Stream._paused_reading out.2 = true.
Proof.
  intros t pausing.
  apply (read_ready_pause_from_protocol 11 pausing (λ t0, (Ret tt, t0))
           (bs "ab") [bs "c"; bs "de"] t); try done.
  by repeat constructor.
Defined.

Section WriteFacts.

Import Stream.

Variable TRY_WRITE_AGAIN : list Z.
Variable inherited : string → bool.

(** The count the loop returns is the number of bytes it sent. *)
Lemma send_loop_count (script : list send_outcome) (buffer : list bytes) :
  let r := send_loop TRY_WRITE_AGAIN script buffer in
  tot_bytes r = length (wire_of (sent_events r)).
Proof.
  revert buffer. induction script as [|o script IH]; intros buffer.
  - destruct buffer; done.
  - destruct buffer as [|head buffer]; [done|].
    destruct o as [n|e]; cbn [send_loop].
    + destruct (Nat.eqb_spec (n `min` length head) 0) as [Hz|Hnz]; [done|].
      cbn -[merge_prefix]. rewrite length_app, length_take.
      specialize (IH (popleft (merge_prefix (head :: buffer)
                                 (n `min` length head)))).
      cbn zeta in IH. rewrite IH. lia.
    + destruct (is_socket_error e && try_write_again TRY_WRITE_AGAIN e); done.
Qed.

(** An exception that ends the loop is one the socket raised. *)
Lemma send_loop_failure (script : list send_outcome) (buffer : list bytes)
    (e : exn) :
  failure (send_loop TRY_WRITE_AGAIN script buffer) = Some e →
  SendRaise e ∈ script.
Proof.
  revert buffer. induction script as [|o script IH]; intros buffer H.
  - by destruct buffer.
  - destruct buffer as [|head buffer]; [done|].
    destruct o as [n|e']; cbn [send_loop] in H.
    + destruct (n `min` length head =? 0); [done|]. cbn in H.
      apply list_elem_of_further. by eapply IH.
    + destruct (is_socket_error e' && try_write_again TRY_WRITE_AGAIN e');
        [done|].
      cbn in H. inversion H. apply list_elem_of_here.
Qed.

(** A socket that takes whole pieces empties the queue, one send per
    piece. *)
Lemma send_loop_all (n : nat) (buffer : list bytes)
    (rest : list send_outcome) :
  Forall (λ p : bytes, 0 < length p ≤ n) buffer →
  send_loop TRY_WRITE_AGAIN (replicate (length buffer) (Sent n) ++ rest) buffer
  = Sending rest [] (length (concat buffer)) (SockSend <$> buffer) None.
Proof.
  induction 1 as [|head buffer [Hpos Hle] _ IH].
  - cbn. by destruct rest.
  - cbn [length replicate app send_loop].
    replace (n `min` length head) with (length head) by lia.
    destruct (Nat.eqb_spec (length head) 0) as [Hz|_]; [lia|].
    assert (Hpop : popleft (merge_prefix (head :: buffer) (length head))
                   = buffer).
    { unfold popleft, merge_prefix. cbn [split_prefix].
      destruct (Nat.eqb_spec (length head) 0) as [Hz|_]; [lia|].
      rewrite (proj2 (Nat.ltb_ge _ _)) by lia.
      rewrite Nat.sub_diag. by destruct buffer. }
    rewrite Hpop, IH. cbn. rewrite length_app, firstn_all. done.
Qed.

(** What [_ready_write] puts on the wire and, when it answers with a
    number, what that number is and what it leaves queued. *)
Lemma ready_write_count (t : transport) :
  let out := _ready_write TRY_WRITE_AGAIN inherited t in
  ∃ sent, wire out.2 = wire t ++ sent
          ∧ ∀ n, out.1 = Ret (Some n) →
                 n = length sent
                 ∧ sent ++ concat (_write_buffer out.2)
                   = concat (_write_buffer t).
Proof.
  cbn zeta. unfold _ready_write.
  destruct (_paused_writing t) eqn:Hpaused.
  { exists []. rewrite app_nil_r. split; [done|].
    intros n H. by inversion H. }
  set (t1 := match _write_buffer t with
             | [] => emit [Warning "handling write on a 0 length buffer"] t
             | _ :: _ => t
             end).
  assert (H1 : wire t1 = wire t ∧ _write_buffer t1 = _write_buffer t).
  { subst t1. destruct (_write_buffer t) eqn:Hb; [|done].
    rewrite wire_emit. simpl. by rewrite app_nil_r. }
  destruct H1 as [Hw Hb].
  pose proof (send_loop_stream TRY_WRITE_AGAIN (sock_send t1)
                (_write_buffer t1)) as Hloop.
  pose proof (send_loop_count (sock_send t1) (_write_buffer t1)) as Hcount.
  cbn zeta in Hloop, Hcount. rewrite <- Hb, <- Hw.
  set (r := send_loop TRY_WRITE_AGAIN (sock_send t1) (_write_buffer t1)) in *.
  set (t2 := emit (sent_events r)
               (set_write_buffer (rest_buffer r)
                  (set_sock_send (rest_script r) t1))).
  assert (H2 : wire t2 = wire t1 ++ wire_of (sent_events r)
               ∧ _write_buffer t2 = rest_buffer r).
  { subst t2. by rewrite wire_emit. }
  destruct H2 as [Hw2 Hb2].
  exists (wire_of (sent_events r)). rewrite <- Hw2, <- Hloop, <- Hb2.
  destruct (failure r) as [e|].
  - destruct (is_Exception e); [|done].
    unfold abort. cbn [fst snd]. rewrite wire_emit. cbn.
    by rewrite app_nil_r.
  - destruct (writing t2); cbn [negb].
    { split; [done|]. intros n H. inversion H. by rewrite Hcount. }
    destruct (_closing (emit [RemoveWriter] t2)).
    + unfold call_soon_shutdown.
      destruct (getattr inherited "_shutdown"); cbn [fst snd];
        rewrite !wire_emit; cbn; rewrite !app_nil_r;
        (split; [done|]); intros n H; inversion H.
      by rewrite Hcount.
    + cbn [fst snd]. rewrite wire_emit. cbn. rewrite app_nil_r.
      split; [done|]. intros n H. inversion H. by rewrite Hcount.
Qed.

(** [_ready_write] on a socket that takes every queued piece whole. *)
Lemma ready_write_all (n : nat) (ps : list bytes) (rest : list send_outcome)
    (t : transport) :
  _paused_writing t = false → _closing t = false →
  _write_buffer t = ps → ps ≠ [] →
  Forall (λ p : bytes, 0 < length p ≤ n) ps →
  sock_send t = replicate (length ps) (Sent n) ++ rest →
  _ready_write TRY_WRITE_AGAIN inherited t
  = (Ret (Some (length (concat ps))),
     emit ((SockSend <$> ps) ++ [RemoveWriter])
       (set_write_buffer [] (set_sock_send rest t))).
Proof.
  intros Hunpaused Hclosing Hbuf Hne Hall Hscript.
  unfold _ready_write. rewrite Hunpaused. cbv zeta. rewrite Hbuf.
  destruct ps as [|p ps]; [done|]. cbv iota.
  rewrite Hbuf, Hscript, send_loop_all by done.
  cbn [failure rest_buffer rest_script sent_events tot_bytes].
  set (t2 := emit (SockSend <$> p :: ps)
               (set_write_buffer [] (set_sock_send rest t))).
  change (writing t2) with false.
  change (_closing (emit [RemoveWriter] t2)) with (_closing t).
  rewrite Hclosing. cbn [negb]. subst t2. by rewrite emit_emit.
Qed.

(** [_ready_write] on a socket that would block at once. *)
Lemma ready_write_blocked (errno : Z) (strerror : string) (ps : list bytes)
    (rest : list send_outcome) (t : transport) :
  _paused_writing t = false → _write_buffer t = ps → ps ≠ [] →
  errno ∈ TRY_WRITE_AGAIN →
  sock_send t = SendRaise (socket_error (Some errno) strerror) :: rest →
  _ready_write TRY_WRITE_AGAIN inherited t
  = (Ret (Some 0), emit [] (set_write_buffer ps (set_sock_send rest t))).
Proof.
  intros Hunpaused Hbuf Hne Herrno Hscript.
  unfold _ready_write. rewrite Hunpaused. cbv zeta. rewrite Hbuf.
  destruct ps as [|p ps]; [done|]. cbv iota.
  rewrite Hbuf, Hscript.
  cbn [send_loop is_socket_error try_write_again andb].
  rewrite bool_decide_eq_true_2 by done.
  cbn [failure rest_buffer rest_script sent_events tot_bytes].
  set (t2 := emit [] (set_write_buffer (p :: ps) (set_sock_send rest t))).
  change (writing t2) with true. done.
Qed.

End WriteFacts.

(** X5: the number [_ready_write] returns is the number of bytes it put on
    the wire in that call, and those bytes are the head of what was queued:
    followed by what is still queued they give back the queue. *)
Theorem ready_write_returns_bytes_sent (TRY_WRITE_AGAIN : list Z)
    (inherited : string → bool) (t t' : Stream.transport) (n : nat) :
  Stream._ready_write TRY_WRITE_AGAIN inherited t = (Ret (Some n), t') →
  ∃ sent, Stream.wire t' = Stream.wire t ++ sent
          ∧ length sent = n
          ∧ sent ++ concat (Stream._write_buffer t')
            = concat (Stream._write_buffer t).
Proof.
  intros H.
  destruct (ready_write_count TRY_WRITE_AGAIN inherited t)
    as (sent & Hw & Hn).
  rewrite H in *. cbn [fst snd] in *. exists sent.
  destruct (Hn n eq_refl) as [-> Hq]. done.
Qed.

Lemma ready_write_returns_bytes_sent_witness :
  let t := Stream.Transport false false false false []
             [bs "abc"; bs "de"] [Stream.Sent 2; Stream.Sent 5; Stream.Sent 1]
             [] [] in
  let t' := Stream.Transport false false false false [] [bs "e"] [] []
              [Stream.SockSend (bs "ab"); Stream.SockSend (bs "c");
               Stream.SockSend (bs "d")] in
  ∃ sent, Stream.wire t' = Stream.wire t ++ sent
          ∧ length sent = 4
          ∧ sent ++ concat (Stream._write_buffer t')
            = concat (Stream._write_buffer t).
Proof.
  intros t t'.
  apply (ready_write_returns_bytes_sent [] (λ _, false) t t' 4). reflexivity.
Defined.

(** X6: [_ready_write] lets no [Exception] out.  Whatever the socket does,
    as long as what it raises are [Exception]s (and, for a closing
    transport, the base class provides [_shutdown]), the call returns: a
    send error is recorded as an abort, never raised. *)
Theorem ready_write_never_raises (TRY_WRITE_AGAIN : list Z)
    (inherited : string → bool) (t : Stream.transport) :
  (∀ e, Stream.SendRaise e ∈ Stream.sock_send t → is_Exception e = true) →
  Stream._closing t = false ∨ inherited "_shutdown" = true →
  ∃ v, (Stream._ready_write TRY_WRITE_AGAIN inherited t).1 = Ret v.
Proof.
  intros Hexc Hshutdown. unfold Stream._ready_write.
  destruct (Stream._paused_writing t); [by eexists|].
  set (t1 := match Stream._write_buffer t with
             | [] => Stream.emit _ t
             | _ :: _ => t
             end).
  assert (H1 : Stream.sock_send t1 = Stream.sock_send t
               ∧ Stream._closing t1 = Stream._closing t).
  { subst t1. by destruct (Stream._write_buffer t). }
  destruct H1 as [Hs Hc].
  pose proof (send_loop_failure TRY_WRITE_AGAIN (Stream.sock_send t1)
                (Stream._write_buffer t1)) as Hfail.
  destruct (Stream.failure _) as [e|].
  - rewrite (Hexc e) by (rewrite <- Hs; by apply Hfail). by eexists.
  - destruct (negb _); [|by eexists].
    cbn [Stream._closing Stream.emit Stream.set_write_buffer
         Stream.set_sock_send]. rewrite Hc.
    destruct (Stream._closing t) eqn:Hclosing; [|by eexists].
    destruct Hshutdown as [?|Hshutdown]; [done|].
    unfold Stream.call_soon_shutdown, Stream.getattr.
    replace (bool_decide ("_shutdown" ∈ Stream.own_methods)) with false
      by (by vm_compute).
    rewrite Hshutdown. by eexists.
Qed.

Lemma ready_write_never_raises_witness :
  let t := Stream.Transport false false false false [] [bs "abc"]
             [Stream.Sent 1;
              Stream.SendRaise (socket_error (Some 32%Z) "Broken pipe")]
             [] [] in
  ∃ v, (Stream._ready_write [] (λ _, false) t).1 = Ret v.
Proof.
  intros t. apply (ready_write_never_raises [] (λ _, false) t).
  - intros e He. apply elem_of_cons in He as [He|He]; [done|].
    apply list_elem_of_singleton in He. by inversion He.
  - by left.
Defined.

(** X7: a write on an idle transport whose socket takes whole pieces goes
    out at once: every piece is sent, in order, as one send each, the queue
    is empty again and the writer is deregistered. *)
Theorem write_idle_sends_everything (WRITE_BUFFER_MAX_SIZE : nat)
    (TRY_WRITE_AGAIN : list Z) (inherited : string → bool) (n : nat)
    (data : bytes) (ps : list bytes) (rest : list Stream.send_outcome)
    (t : Stream.transport) :
  0 < WRITE_BUFFER_MAX_SIZE → data ≠ [] →
  Stream.closed t = false → Stream._closing t = false →
  Stream._paused_writing t = false → Stream._write_buffer t = [] →
  Stream.pieces WRITE_BUFFER_MAX_SIZE data = Ret ps →
  WRITE_BUFFER_MAX_SIZE ≤ n →
  Stream.sock_send t = replicate (length ps) (Stream.Sent n) ++ rest →
  let out := Stream.write WRITE_BUFFER_MAX_SIZE TRY_WRITE_AGAIN inherited
               data t in
  out.1 = Ret tt
  ∧ Stream._write_buffer out.2 = []
  ∧ Stream.sock_send out.2 = rest
  ∧ Stream.wire out.2 = Stream.wire t ++ data
  ∧ Stream.trace out.2
    = Stream.trace t ++ (Stream.SockSend <$> ps) ++ [Stream.RemoveWriter].
Proof.
  intros Hmax Hdata Hopen Hclosing Hunpaused Hidle Hps Hn Hscript.
  destruct (write_open WRITE_BUFFER_MAX_SIZE TRY_WRITE_AGAIN inherited data t
              Hmax Hdata Hopen) as (ps' & Hps' & Hbound & Hcat & Hw).
  rewrite Hps in Hps'. inversion Hps'; subst ps'. clear Hps'.
  cbn zeta. rewrite Hw. clear Hw.
  assert (Hne : ps ≠ []).
  { intros ->. cbn in Hcat. by subst data. }
  assert (Hall : Forall (λ p : bytes, 0 < length p ≤ n) ps).
  { eapply Forall_impl; [exact Hbound|]. cbn. intros; lia. }
  unfold Stream.write_try_send, Stream.writing. rewrite Hidle.
  change (Stream._paused_writing (Stream.set_write_buffer ([] ++ ps) t))
    with (Stream._paused_writing t).
  rewrite Hunpaused. cbn [negb andb].
  rewrite (ready_write_all TRY_WRITE_AGAIN inherited n ps rest); try done.
  set (t' := Stream.emit _ _).
  change (Stream._write_buffer t') with (@nil bytes).
  change (Stream._closing t') with (Stream._closing t).
  rewrite Hclosing. cbn [fst snd]. subst t'.
  split; [done|]. split; [done|]. split; [done|]. split; [|done].
  rewrite wire_emit. f_equal. rewrite wire_of_app. cbn.
  rewrite app_nil_r, <- Hcat. clear.
  induction ps as [|x l IH]; [done|]. cbn. by rewrite IH.
Qed.

Lemma write_idle_sends_everything_witness :
  let t := Stream.Transport false false false false [] []
             [Stream.Sent 4; Stream.Sent 4; Stream.Sent 4; Stream.Sent 4]
             [] [] in
  let out := Stream.write 3 [] (λ _, false) (bs "abcdefgh") t in
  out.1 = Ret tt
  ∧ Stream._write_buffer out.2 = []
  ∧ Stream.sock_send out.2 = [Stream.Sent 4]
  ∧ Stream.wire out.2 = Stream.wire t ++ bs "abcdefgh"
  ∧ Stream.trace out.2
    = Stream.trace t
      ++ (Stream.SockSend <$> [bs "abc"; bs "def"; bs "gh"])
      ++ [Stream.RemoveWriter].
Proof.
  intros t.
  apply (write_idle_sends_everything 3 [] (λ _, false) 4 (bs "abcdefgh")
           [bs "abc"; bs "def"; bs "gh"] [Stream.Sent 4] t);
    [lia|done|done|done|done|done|done|lia|done].
Defined.

(** X8: a write on an idle transport whose socket would block sends
    nothing: the data stays queued, whole and in order, and [_ready_write]
    is registered with the event loop to send it when the socket is
    writable. *)
Theorem write_would_block_registers_writer (WRITE_BUFFER_MAX_SIZE : nat)
    (TRY_WRITE_AGAIN : list Z) (inherited : string → bool) (errno : Z)
    (strerror : string) (data : bytes) (rest : list Stream.send_outcome)
    (t : Stream.transport) :
  0 < WRITE_BUFFER_MAX_SIZE → data ≠ [] →
  Stream.closed t = false → Stream._paused_writing t = false →
  Stream._write_buffer t = [] → errno ∈ TRY_WRITE_AGAIN →
  Stream.sock_send t
  = Stream.SendRaise (socket_error (Some errno) strerror) :: rest →
  let out := Stream.write WRITE_BUFFER_MAX_SIZE TRY_WRITE_AGAIN inherited
               data t in
  out.1 = Ret tt
  ∧ concat (Stream._write_buffer out.2) = data
  ∧ Stream.wire out.2 = Stream.wire t
  ∧ Stream.trace out.2
    = Stream.trace t ++ [Stream.AddWriter (Stream.cb_own "_ready_write")].
Proof.
  intros Hmax Hdata Hopen Hunpaused Hidle Herrno Hscript.
  destruct (write_open WRITE_BUFFER_MAX_SIZE TRY_WRITE_AGAIN inherited data t
              Hmax Hdata Hopen) as (ps & Hps & Hbound & Hcat & Hw).
  cbn zeta. rewrite Hw. clear Hw.
  assert (Hne : ps ≠ []).
  { intros ->. cbn in Hcat. by subst data. }
  unfold Stream.write_try_send, Stream.writing. rewrite Hidle.
  change (Stream._paused_writing (Stream.set_write_buffer ([] ++ ps) t))
    with (Stream._paused_writing t).
  rewrite Hunpaused. cbn [negb andb].
  rewrite (ready_write_blocked TRY_WRITE_AGAIN inherited errno strerror ps
             rest); try done.
  set (t' := Stream.emit [] _).
  change (Stream._write_buffer t') with ps.
  destruct ps as [|p ps]; [done|]. cbn [fst snd]. subst t'.
  split; [done|]. split; [done|].
  rewrite !wire_emit. cbn [Stream.trace Stream.emit]. cbn.
  by rewrite !app_nil_r.
Qed.

Lemma write_would_block_registers_writer_witness :
  let t := Stream.Transport false false false false [] []
             [Stream.SendRaise (socket_error (Some 11%Z)
                                  "Resource temporarily unavailable")]
             [] [] in
  let out := Stream.write 3 [11%Z] (λ _, false) (bs "abcdefgh") t in
  out.1 = Ret tt
  ∧ concat (Stream._write_buffer out.2) = bs "abcdefgh"
  ∧ Stream.wire out.2 = Stream.wire t
  ∧ Stream.trace out.2
    = Stream.trace t ++ [Stream.AddWriter (Stream.cb_own "_ready_write")].
Proof.
  intros t.
  apply (write_would_block_registers_writer 3 [11%Z] (λ _, false) 11
           "Resource temporarily unavailable" (bs "abcdefgh") [] t);
    [lia|done|done|done|done|by apply list_elem_of_singleton|done].
Defined.

(** X9: a write on a transport that already has data queued only appends
    its pieces behind what is queued: the socket is not touched and the
    event loop is not called, whether or not writing is paused. *)
Theorem write_while_writing_only_appends (WRITE_BUFFER_MAX_SIZE : nat)
    (TRY_WRITE_AGAIN : list Z) (inherited : string → bool)
    (data : bytes) (t : Stream.transport) :
  0 < WRITE_BUFFER_MAX_SIZE → data ≠ [] →
  Stream.closed t = false → Stream._write_buffer t ≠ [] →
  ∃ ps,
    concat ps = data
    ∧ Stream.write WRITE_BUFFER_MAX_SIZE TRY_WRITE_AGAIN inherited data t
      = (Ret tt,
         Stream.set_write_buffer (Stream._write_buffer t ++ ps) t).
Proof.
  intros Hmax Hdata Hopen Hbusy.
  destruct (write_open WRITE_BUFFER_MAX_SIZE TRY_WRITE_AGAIN inherited data t
              Hmax Hdata Hopen) as (ps & Hps & Hbound & Hcat & Hw).
  exists ps. split; [done|]. rewrite Hw.
  unfold Stream.write_try_send, Stream.writing.
  by destruct (Stream._write_buffer t).
Qed.

Lemma write_while_writing_only_appends_witness :
  let t := Stream.Transport false false false false [] [bs "zz"]
             [Stream.Sent 9] [] [] in
  ∃ ps,
    concat ps = bs "abcdefgh"
    ∧ Stream.write 3 [] (λ _, false) (bs "abcdefgh") t
      = (Ret tt,
         Stream.set_write_buffer (Stream._write_buffer t ++ ps) t).
Proof.
  intros t.
  apply (write_while_writing_only_appends 3 [] (λ _, false)
           (bs "abcdefgh") t); [lia|done|done|done].
Defined.

(** X10: any sequence of chunks handed to [writelines] while writing is
    paused only lengthens the queue, byte for byte in the order of
    submission (empty chunks add nothing): the call returns, nothing reaches
    the socket, the event loop is not called and writing stays paused. *)
Theorem writelines_paused_only_queues (WRITE_BUFFER_MAX_SIZE : nat)
    (TRY_WRITE_AGAIN : list Z) (inherited : string → bool)
    (list_of_data : list bytes) (t : Stream.transport) :
  0 < WRITE_BUFFER_MAX_SIZE → Stream.closed t = false →
  Stream._paused_writing t = true →
  let out := Stream.writelines WRITE_BUFFER_MAX_SIZE TRY_WRITE_AGAIN
               inherited list_of_data t in
  out.1 = Ret tt
  ∧ concat (Stream._write_buffer out.2)
    = concat (Stream._write_buffer t) ++ concat list_of_data
  ∧ Stream.wire out.2 = Stream.wire t
  ∧ Stream.writer out.2 = Stream.writer t
  ∧ Stream._paused_writing out.2 = true.
Proof.
  intros Hmax Hopen Hpaused.
  destruct (writelines_paused WRITE_BUFFER_MAX_SIZE TRY_WRITE_AGAIN inherited
              list_of_data t Hmax Hopen Hpaused)
    as (t' & Hrun & Htrace & Hqueue & Hp).
  cbn zeta. rewrite Hrun. cbn [fst snd].
  unfold Stream.wire, Stream.writer. by rewrite Htrace.
Qed.

Lemma writelines_paused_only_queues_witness :
  let t := Stream.Transport false false false true [] [bs "zz"]
             [Stream.Sent 9] [] [] in
  let out := Stream.writelines 3 [] (λ _, false)
               [bs "abcd"; []; bs "e"] t in
  out.1 = Ret tt
  ∧ concat (Stream._write_buffer out.2)
    = concat (Stream._write_buffer t) ++ concat [bs "abcd"; []; bs "e"]
  ∧ Stream.wire out.2 = Stream.wire t
  ∧ Stream.writer out.2 = Stream.writer t
  ∧ Stream._paused_writing out.2 = true.
Proof.
  intros t.
  apply (writelines_paused_only_queues 3 [] (λ _, false)
           [bs "abcd"; []; bs "e"] t); [lia|done|done].
Defined.

(** X11: pausing and then resuming writing with nothing queued succeeds
    whatever the base class provides: no callback is looked up, the pause
    flag is cleared again, and the only effect left is that the writer was
    deregistered. *)
Theorem pause_resume_writing_empty_queue (inherited : string → bool)
    (t : Stream.transport) :
  Stream._paused_writing t = false → Stream._write_buffer t = [] →
  Stream.resume_writing inherited (Stream.pause_writing t)
  = (Ret tt, Stream.emit [Stream.RemoveWriter] t).
Proof.
  intros Hunpaused Hidle. destruct t as [cl cg pr pw rb wb ss sr tr].
  cbn in *. subst. done.
Qed.

Lemma pause_resume_writing_empty_queue_witness :
  let t := Stream.Transport false false false false [] [] [] [] [] in
  Stream.resume_writing (λ _, false) (Stream.pause_writing t)
  = (Ret tt, Stream.emit [Stream.RemoveWriter] t).
Proof.
  intros t. apply (pause_resume_writing_empty_queue (λ _, false) t); done.
Defined.

(** X12: pausing and then resuming reading, with nothing received in
    between, gives back the transport as it was, without raising. *)
Theorem pause_resume_reading_round_trip (inherited : string → bool)
    (t : Stream.transport) :
  Stream._paused_reading t = false → Stream._read_buffer t = [] →
  Stream.resume inherited (Stream.pause t) = (Ret tt, t).
Proof.
  intros Hunpaused Hempty. destruct t as [cl cg pr pw rb wb ss sr tr].
  cbn in *. subst. done.
Qed.

Lemma pause_resume_reading_round_trip_witness :
  let t := Stream.Transport false false false false [] [bs "q"] [] [] [] in
  Stream.resume (λ _, false) (Stream.pause t) = (Ret tt, t).
Proof.
  intros t. apply (pause_resume_reading_round_trip (λ _, false) t); done.
Defined.

(** * Further properties of dialling and serving *)

Section DialFacts.

Import Stream.

(** The candidate that connects is one whose socket could be made and
    connected; every candidate before it failed on its own; the candidates
    after it play no part. *)
Lemma try_candidates_connected (local : option (list string))
    (candidates : list attempt) (i0 i : nat) (exceptions : list exn) :
  try_candidates local candidates i0 = (Connected i, exceptions) →
  ∃ k c,
    i = i0 + k
    ∧ candidates !! k = Some c
    ∧ open_outcome c = None
    ∧ connect_outcome c = None
    ∧ (∀ j cj n, j < k → candidates !! j = Some cj →
         (try_candidates local [cj] n).1 = AllFailed)
    ∧ (∀ more, try_candidates local (take (S k) candidates ++ more) i0
               = (Connected i, exceptions)).
Proof.
  revert i0 exceptions.
  induction candidates as [|c candidates IH]; intros i0 exceptions H;
    [done|].
  cbn [try_candidates] in H.
  destruct (open_outcome c) as [e|] eqn:Hopen.
  { destruct (is_socket_error e) eqn:Hsock; [|done].
    destruct (try_candidates local candidates (S i0)) as [d exs] eqn:Hrec.
    inversion H; subst d exceptions. clear H.
    destruct (IH _ _ Hrec) as (k & c' & -> & Hk & Ho & Hc & Hearlier & Hmore).
    exists (S k), c'. repeat split; try done; [lia| |].
    - intros [|j] cj n Hj Hcj.
      + cbn in Hcj. inversion Hcj; subst cj. cbn. by rewrite Hopen, Hsock.
      + apply (Hearlier j cj n); [lia|done].
    - intros more. cbn [take app try_candidates].
      rewrite Hopen, Hsock. cbn [take] in Hmore. by rewrite Hmore. }
  destruct (match local with
            | Some l => bind_loop l (bind_outcomes c)
            | None => (Bound, [])
            end) as [b bexs] eqn:Hbind.
  destruct b as [| |e]; [| |done].
  - destruct (connect_outcome c) as [e|] eqn:Hconn.
    + destruct (is_socket_error e) eqn:Hsock; [|done].
      destruct (try_candidates local candidates (S i0)) as [d exs] eqn:Hrec.
      inversion H; subst d exceptions. clear H.
      destruct (IH _ _ Hrec)
        as (k & c' & -> & Hk & Ho & Hc & Hearlier & Hmore).
      exists (S k), c'. repeat split; try done; [lia| |].
      * intros [|j] cj n Hj Hcj.
        -- cbn in Hcj. inversion Hcj; subst cj. cbn.
           by rewrite Hopen, Hbind, Hconn, Hsock.
        -- apply (Hearlier j cj n); [lia|done].
      * intros more. cbn [take app try_candidates].
        rewrite Hopen, Hbind, Hconn, Hsock.
        cbn [take] in Hmore. by rewrite Hmore.
    + inversion H; subst i exceptions. clear H.
      exists 0, c. repeat split; try done; [intros j cj n Hj; lia|].
      intros more. cbn [take app try_candidates].
      by rewrite Hopen, Hbind, Hconn.
  - destruct (try_candidates local candidates (S i0)) as [d exs] eqn:Hrec.
    inversion H; subst d exceptions. clear H.
    destruct (IH _ _ Hrec) as (k & c' & -> & Hk & Ho & Hc & Hearlier & Hmore).
    exists (S k), c'. repeat split; try done; [lia| |].
    + intros [|j] cj n Hj Hcj.
      * cbn in Hcj. inversion Hcj; subst cj. cbn. by rewrite Hopen, Hbind.
      * apply (Hearlier j cj n); [lia|done].
    + intros more. cbn [take app try_candidates].
      rewrite Hopen, Hbind. cbn [take] in Hmore. by rewrite Hmore.
Qed.

End DialFacts.

(** X13: when [create_connection] connects, it is to the first candidate
    that works: the candidate it returns could be opened and connected,
    every candidate before it, tried alone, ends in an error, and whatever
    candidates come after it make no difference. *)
Theorem create_connection_first_success (local : option (list string))
    (candidates : list Stream.attempt) (i : nat) :
  Stream.create_connection local candidates = Ret i →
  ∃ c,
    candidates !! i = Some c
    ∧ Stream.open_outcome c = None
    ∧ Stream.connect_outcome c = None
    ∧ (∀ j cj, j < i → candidates !! j = Some cj →
         ∃ e, Stream.create_connection local [cj] = Raise e)
    ∧ (∀ more,
         Stream.create_connection local (take (S i) candidates ++ more)
         = Ret i).
Proof.
  intros H. unfold Stream.create_connection in *.
  assert (Hlocal : local ≠ Some []) by (by intros ->).
  assert (Hrun : ∃ excs, Stream.try_candidates local candidates 0
                         = (Stream.Connected i, excs)).
  { destruct local as [[|a l]|]; [done| |];
      destruct (Stream.try_candidates _ candidates 0) as [[k| |e] excs];
      inversion H; by eexists. }
  destruct Hrun as [excs Hrun].
  destruct (try_candidates_connected _ _ _ _ _ Hrun)
    as (k & c & -> & Hk & Ho & Hc & Hearlier & Hmore).
  cbn [Nat.add] in *. exists c. repeat split; try done.
  - intros j cj Hj Hcj. specialize (Hearlier j cj 0 Hj Hcj).
    destruct (Stream.try_candidates local [cj] 0) as [d exs].
    cbn in Hearlier. subst d.
    destruct local as [[|a l]|]; [done|by eexists|by eexists].
  - intros more. rewrite Hmore. by destruct local as [[|a l]|].
Qed.

Lemma create_connection_first_success_witness :
  let refused := socket_error (Some 111%Z) "Connection refused" in
  let candidates :=
    [Stream.Attempt None [] (Some refused); Stream.Attempt None [] None;
     Stream.Attempt None [] None] in
  ∃ c,
    candidates !! 1 = Some c
    ∧ Stream.open_outcome c = None
    ∧ Stream.connect_outcome c = None
    ∧ (∀ j cj, j < 1 → candidates !! j = Some cj →
         ∃ e, Stream.create_connection None [cj] = Raise e)
    ∧ (∀ more,
         Stream.create_connection None (take 2 candidates ++ more) = Ret 1).
Proof.
  intros refused candidates.
  apply (create_connection_first_success None candidates 1). reflexivity.
Defined.

Section ServeFacts.

Import Stream.

Variable reuse_address has_ipv6 : bool.

(** The effects of setting up the socket of one address, before it is
    bound. *)
Lemma setup_events_elem (info : addrinfo) (i : nat) (ev : serve_event) :
  ev ∈ [SockCreated i]
       ++ (if reuse_address then [SetReuseAddr i] else [])
       ++ (if is_inet6 info && has_ipv6 then [SetV6Only i] else [])
  ↔ ev = SockCreated i
    ∨ (reuse_address = true ∧ ev = SetReuseAddr i)
    ∨ (is_inet6 info && has_ipv6 = true ∧ ev = SetV6Only i).
Proof.
  destruct reuse_address, (is_inet6 info && has_ipv6); cbn;
    rewrite ?elem_of_cons, ?elem_of_nil; intuition congruence.
Qed.

(** The sockets the loop made are numbered from [i] on, every one of them
    was created, and the loop only sets sockets up. *)
Lemma bind_all_sockets (infos : list addrinfo) (i : nat) :
  let r := bind_all reuse_address has_ipv6 infos i in
  sockets r = seq i (length (sockets r))
  ∧ length (sockets r) ≤ length infos
  ∧ (∀ s, SockCreated s ∈ bind_events r ↔ s ∈ sockets r)
  ∧ Forall (λ ev, is_setup_event ev = true) (bind_events r).
Proof.
  revert i. induction infos as [|info infos IH]; intros i; cbn zeta.
  - cbn. split; [done|]. split; [done|]. split; [|done].
    intros s. by rewrite !elem_of_nil.
  - cbn [bind_all].
    destruct (factory_outcome info) as [e|].
    { cbn. split; [done|]. split; [lia|]. split; [|done].
      intros s. by rewrite !elem_of_nil. }
    assert (Hset : Forall (λ ev, is_setup_event ev = true)
              ([SockCreated i]
               ++ (if reuse_address then [SetReuseAddr i] else [])
               ++ (if is_inet6 info && has_ipv6 then [SetV6Only i] else []))).
    { destruct reuse_address, (is_inet6 info && has_ipv6);
        by repeat constructor. }
    assert (Hfail : ∀ e,
      let r := Binding [i]
                 ([SockCreated i]
                  ++ (if reuse_address then [SetReuseAddr i] else [])
                  ++ (if is_inet6 info && has_ipv6 then [SetV6Only i] else []))
                 (Some e) in
      sockets r = seq i (length (sockets r))
      ∧ length (sockets r) ≤ length (info :: infos)
      ∧ (∀ s, SockCreated s ∈ bind_events r ↔ s ∈ sockets r)
      ∧ Forall (λ ev, is_setup_event ev = true) (bind_events r)).
    { intros e. cbn zeta. cbn [sockets bind_events length seq].
      split; [done|]. split; [lia|]. split; [|done].
      intros s. rewrite setup_events_elem, list_elem_of_singleton.
      intuition congruence. }
    destruct (bind_outcome info) as [e|].
    { destruct e as [| | | | | | | | | |[errno|] strerror| | |];
        apply Hfail. }
    destruct (IH (S i)) as (Hseq & Hlen & Hcreated & Hsetup).
    cbn [sockets bind_events length seq].
    split; [by rewrite Hseq at 1|]. split; [lia|]. split.
    + intros s.
      rewrite elem_of_app, setup_events_elem, !elem_of_cons, Hcreated.
      intuition congruence.
    + apply Forall_app. split; [done|]. by constructor.
Qed.

(** When the loop ends without an exception there is one bound socket for
    each address, and dual stack was switched off on exactly the sockets of
    family [AF_INET6]. *)
Lemma bind_all_completed (infos : list addrinfo) (i : nat) :
  let r := bind_all reuse_address has_ipv6 infos i in
  bind_raised r = None →
  sockets r = seq i (length infos)
  ∧ (∀ s, SockBound s ∈ bind_events r ↔ i ≤ s < i + length infos)
  ∧ (∀ s, SetReuseAddr s ∈ bind_events r
          ↔ reuse_address = true ∧ i ≤ s < i + length infos)
  ∧ (∀ s, SetV6Only s ∈ bind_events r
          ↔ has_ipv6 = true
            ∧ ∃ k info, s = i + k ∧ infos !! k = Some info
                        ∧ is_inet6 info = true).
Proof.
  revert i. induction infos as [|info infos IH]; intros i; cbn zeta.
  - cbn. intros _. split; [done|].
    split; [|split]; intros s; rewrite elem_of_nil.
    + lia.
    + intuition lia.
    + split; [done|]. by intros (_ & k & info & _ & ? & _).
  - cbn [bind_all].
    destruct (factory_outcome info) as [e|]; [done|].
    destruct (bind_outcome info) as [e|].
    { by destruct e as [| | | | | | | | | |[errno|] strerror| | |]. }
    cbn [bind_raised sockets bind_events length seq]. intros Hdone.
    destruct (IH (S i) Hdone) as (Hseq & Hbound & Hreuse & Hv6).
    split; [by rewrite Hseq|].
    split; [|split]; intros s;
      rewrite elem_of_app, setup_events_elem, elem_of_cons.
    + rewrite Hbound. split.
      * intros [[?|[[_ ?]|[_ ?]]]|[?|?]]; try done; [|lia].
        assert (s = i) by congruence. lia.
      * intros ?. destruct (decide (s = i)) as [->|]; [by right; left|].
        right; right. lia.
    + rewrite Hreuse. split.
      * intros [[?|[[? ?]|[_ ?]]]|[?|[? ?]]]; try done; [|split; [done|lia]].
        assert (s = i) by congruence. split; [done|lia].
      * intros [? ?]. destruct (decide (s = i)) as [->|]; [left; by right; left|].
        right; right. split; [done|lia].
    + rewrite Hv6. split.
      * intros [[?|[[_ ?]|[H6 ?]]]|[?|[? (k & info' & -> & Hk & Hi)]]];
          try done.
        -- assert (s = i) by congruence. subst s.
           apply andb_true_iff in H6 as [H6 Hh]. split; [done|].
           exists 0, info. by rewrite Nat.add_0_r.
        -- split; [done|]. exists (S k), info'. split; [lia|done].
      * intros [Hh ([|k] & info' & -> & Hk & Hi)].
        -- cbn in Hk. inversion Hk; subst info'. left. right; right.
           rewrite Nat.add_0_r. split; [|done]. by rewrite Hi, Hh.
        -- cbn in Hk. right; right. split; [done|].
           exists k, info'. split; [lia|done].
Qed.

(** The loop that listens serves the sockets in order up to the first whose
    [listen] raises, and all of them when none does. *)
Lemma listen_loop_served (listen_outcome : nat → option exn) (backlog : nat)
    (socks : list nat) :
  let r := listen_loop listen_outcome backlog socks in
  ∃ served,
    r.1 = listen_all backlog served
    ∧ ((r.2 = None → served = socks)
       ∧ (∀ s, s ∈ served → listen_outcome s = None))
    ∧ (∀ e, r.2 = Some e → ∃ s, listen_outcome s = Some e).
Proof.
  cbn zeta. induction socks as [|s socks IH].
  - exists []. by repeat split; try done; intros ? []%elem_of_nil.
  - cbn [listen_loop]. destruct (listen_outcome s) as [e|] eqn:Hs.
    + exists []. cbn. repeat split; try done.
      * by intros ? []%elem_of_nil.
      * intros e' H. inversion H; subst e'. by exists s.
    + destruct IH as (served & Hevs & [Hall Hnone] & Hraised).
      destruct (listen_loop listen_outcome backlog socks) as [evs r].
      cbn [fst snd] in *. exists (s :: served). repeat split.
      * by rewrite Hevs.
      * intros Hr. by rewrite Hall.
      * intros s' [->|Hin]%elem_of_cons; [done|by apply Hnone].
      * done.
Qed.


End ServeFacts.



(** A [listen] that fails on the second of two bound sockets: the first
    stays listening and registered, and neither is closed. *)
Example start_serving_listen_failure_leaves_sockets_open :
  let infos :=
    [Stream.AddrInfo false "('0.0.0.0', 80)" None None;
     Stream.AddrInfo true "('::', 80, 0, 0)" None None] in
  let in_use := socket_error (Some 98%Z) "Address already in use" in
  Stream.start_serving true None (Some false) true true infos
    (λ s, if s =? 1 then Some in_use else None) 5
  = (Raise in_use,
     [Stream.SockCreated 0; Stream.SockBound 0;
      Stream.SockCreated 1; Stream.SetV6Only 1; Stream.SockBound 1;
      Stream.Listening 0 5; Stream.NonBlocking 0; Stream.ReaderAdded 0]).
Proof. done. Qed.

(** X15: a [start_serving] that succeeds for a host and port returns one
    socket for each resolved address, in the order of resolution.  Each was
    bound and none was closed; address reuse was set on all of them or on
    none; dual stack was switched off on exactly the sockets of family
    [AF_INET6] (where the platform knows [IPPROTO_IPV6]); and after the
    setup each socket, in turn, is made to listen with the backlog, made
    non-blocking and registered for reading. *)
Theorem start_serving_success (reuse_address : option bool)
    (posix has_ipv6 : bool) (infos : list Stream.addrinfo)
    (listen_outcome : nat → option exn) (backlog : nat)
    (socks : list nat) (evs : list Stream.serve_event) :
  Stream.start_serving true None reuse_address posix has_ipv6 infos
    listen_outcome backlog
  = (Ret socks, evs) →
  socks = seq 0 (length infos)
  ∧ ∃ setup,
      evs = setup ++ Stream.listen_all backlog socks
      ∧ Forall (λ ev, Stream.is_setup_event ev = true) setup
      ∧ (∀ s, Stream.SockBound s ∈ setup ↔ s < length infos)
      ∧ (∀ s, Stream.SetReuseAddr s ∈ setup
              ↔ default posix reuse_address = true ∧ s < length infos)
      ∧ (∀ s, Stream.SetV6Only s ∈ setup
              ↔ has_ipv6 = true
                ∧ ∃ info, infos !! s = Some info
                          ∧ Stream.is_inet6 info = true).
Proof.
  unfold Stream.start_serving. intros H.
  destruct infos as [|info infos]; [done|].
  destruct (bind_all_sockets (default posix reuse_address) has_ipv6
              (info :: infos) 0) as (_ & _ & _ & Hsetup).
  pose proof (bind_all_completed (default posix reuse_address) has_ipv6
                (info :: infos) 0) as Hdone. cbn zeta in Hdone.
  destruct (Stream.bind_raised _) as [e'|]; [done|].
  destruct (Hdone eq_refl) as (Hseq & Hbound & Hreuse & Hv6).
  destruct (listen_loop_served listen_outcome backlog
              (Stream.sockets
                 (Stream.bind_all (default posix reuse_address) has_ipv6
                    (info :: infos) 0)))
    as (served & Hevs & Hserved & Hraised).
  destruct (Stream.listen_loop _ _ _) as [levs [e'|]]; [done|].
  cbn [fst snd] in *. rewrite (proj1 Hserved eq_refl) in Hevs. subst levs.
  inversion H; subst socks evs. split; [done|].
  eexists. split; [done|]. split; [done|]. split; [|split].
  - intros s. rewrite Hbound. lia.
  - intros s. rewrite Hreuse. intuition lia.
  - intros s. rewrite Hv6. split.
    + intros [? (k & info' & -> & ? & ?)]. split; [done|]. by exists info'.
    + intros [? (info' & ? & ?)]. split; [done|]. by exists s, info'.
Qed.

Lemma start_serving_success_witness :
  let infos :=
    [Stream.AddrInfo false "('0.0.0.0', 80)" None None;
     Stream.AddrInfo true "('::', 80, 0, 0)" None None] in
  let out := Stream.start_serving true None None true true infos
               (λ _, None) 5 in
  out.1 = Ret (seq 0 (length infos))
  ∧ ∃ setup,
      out.2 = setup ++ Stream.listen_all 5 [0; 1]
      ∧ Forall (λ ev, Stream.is_setup_event ev = true) setup
      ∧ (∀ s, Stream.SockBound s ∈ setup ↔ s < length infos)
      ∧ (∀ s, Stream.SetReuseAddr s ∈ setup
              ↔ default true None = true ∧ s < length infos)
      ∧ (∀ s, Stream.SetV6Only s ∈ setup
              ↔ true = true
                ∧ ∃ info, infos !! s = Some info
                          ∧ Stream.is_inet6 info = true).
Proof.
  intros infos out.
  destruct (start_serving_success None true true infos (λ _, None) 5 [0; 1]
              out.2 eq_refl) as [Hsocks Hsetup].
  split; [reflexivity|exact Hsetup].
Defined.

Section AcceptFacts.

Import Stream.

Variable TRY_READ_AGAIN : list Z.
Variable EPERM : Z.
Variable ACCEPT_ERRORS : list Z.
Variable protocol_factory : nat → option exn.
Variable make_transport : nat → option exn.

(** What [sock_accept] comes to for a pending future that was not
    cancelled, on a socket whose [accept] first raises the errors [eperms],
    each of them retried at once, and then does [tail]. *)
Lemma sock_accept_outcome (fd : nat) (eperms : list exn)
    (tail : list accept_outcome) (future : option deferred) :
  let pending := default (mkDeferred false None) future in
  called pending = None → cancelled pending = false →
  Forall (λ e, retried TRY_READ_AGAIN EPERM e = true) eperms →
  match tail with
  | AcceptRaise e :: _ =>
      is_Exception e = true ∧ retried TRY_READ_AGAIN EPERM e = false
  | _ => True
  end →
  let r := sock_accept TRY_READ_AGAIN EPERM (Ret fd)
             ((AcceptRaise <$> eperms) ++ tail) future in
  accept_raised r = None
  ∧ match tail with
    | [] =>
        accept_rest r = [] ∧ accept_future r = pending
        ∧ last (accept_events r) = Some (ReaderAdded fd)
    | Accepted conn address :: rest =>
        accept_rest r = rest
        ∧ called (accept_future r) = Some (Ret (conn, address))
        ∧ NonBlocking conn ∈ accept_events r
    | AcceptRaise e :: rest =>
        accept_rest r = rest
        ∧ if is_socket_error e && try_read_again TRY_READ_AGAIN e
          then accept_future r = pending
               ∧ last (accept_events r) = Some (ReaderAdded fd)
          else called (accept_future r) = Some (Raise e)
    end.
Proof.
  cbn zeta. intros Hpending Hcancelled Hretried Htail. revert future Hpending Hcancelled.
  induction Hretried as [|e eperms He _ IH]; intros future Hpending Hcancelled.
  - cbn [fmap list_fmap app].
    set (pending := default (mkDeferred false None) future) in *.
    destruct tail as [|[conn address|e] rest].
    + cbn [sock_accept]. destruct future as [f|]; cbn in *;
        rewrite ?Hcancelled; cbn; repeat split; by rewrite ?last_snoc.
    + cbn [sock_accept].
      destruct future as [f|]; cbn in *; rewrite ?Hcancelled;
        unfold resolve_in_try, deferred_callback; cbn; rewrite ?Hpending;
        cbn; repeat split; try done.
      * apply list_elem_of_further, list_elem_of_here.
      * apply list_elem_of_here.
    + destruct Htail as [Hexc Hnot]. unfold retried in Hnot.
      cbn [sock_accept].
      destruct future as [f|]; cbn in *; rewrite ?Hcancelled;
        destruct (is_socket_error e) eqn:Hsock;
        destruct (try_read_again TRY_READ_AGAIN e) eqn:Hagain;
        cbn in *; rewrite ?Hnot, ?Hexc;
        unfold resolve_in_handler, deferred_callback; cbn;
        rewrite ?Hpending; cbn; repeat split; by rewrite ?last_snoc.
  - unfold retried in He.
    apply andb_true_iff in He as [He Heperm].
    apply andb_true_iff in He as [Hsock Hagain].
    apply negb_true_iff in Hagain.
    set (pending := default (mkDeferred false None) future) in *.
    specialize (IH (Some pending) Hpending Hcancelled).
    cbn [default from_option id] in IH.
    assert (Hstep :
      sock_accept TRY_READ_AGAIN EPERM (Ret fd)
        ((AcceptRaise <$> e :: eperms) ++ tail) future
      = let r := sock_accept TRY_READ_AGAIN EPERM (Ret fd)
                   ((AcceptRaise <$> eperms) ++ tail) (Some pending) in
        Accepting (accept_rest r) (accept_future r)
          (match future with
           | None => []
           | Some _ => [ReaderRemoved]
           end ++ accept_events r) (accept_raised r)).
    { cbn [fmap list_fmap app sock_accept]. subst pending.
      destruct future as [f|]; cbn in *;
        by rewrite ?Hcancelled, Hsock, Hagain, Heperm. }
    rewrite Hstep. clear Hstep. cbn zeta.
    cbn [accept_raised accept_rest accept_future accept_events].
    destruct IH as [Hraised Hend]. split; [done|].
    destruct tail as [|[conn address|e'] rest].
    + destruct Hend as (? & ? & Hlast). repeat split; try done.
      by rewrite last_app, Hlast.
    + destruct Hend as (? & ? & Hin). repeat split; try done.
      apply elem_of_app. by right.
    + destruct Hend as (? & Hend). split; [done|].
      destruct (is_socket_error e' && try_read_again TRY_READ_AGAIN e');
        [|done].
      destruct Hend as [? Hlast]. split; [done|].
      by rewrite last_app, Hlast.
Qed.

(** The turns of the accept loop make a transport for each connection
    accepted whose protocol and transport could be built, in the order of
    acceptance, stop at the first that could not, and use at most [n]
    outcomes of the socket. *)
Lemma accept_loop_batch (ssl : bool) (wrap_outcome : option exn) (n : nat)
    (script : list accept_outcome) :
  let building := make_connection protocol_factory make_transport ssl
                    wrap_outcome in
  let r := accept_loop TRY_READ_AGAIN EPERM ACCEPT_ERRORS protocol_factory
             make_transport ssl wrap_outcome n script in
  ∃ consumed,
    script = consumed ++ batch_rest r
    ∧ length consumed ≤ n
    ∧ omap made (batch_events r)
      = omap (λ o, match o with
                   | Accepted c a =>
                       match building c with
                       | None => Some (c, a)
                       | Some _ => None
                       end
                   | AcceptRaise _ => None
                   end) consumed
    ∧ (∀ e, batch_raised r = Some e →
            AcceptRaise e ∈ script ∨ ∃ c, building c = Some e)
    ∧ (∀ c a, Accepted c a ∈ consumed → building c ≠ None →
              last consumed = Some (Accepted c a)
              ∧ batch_raised r = building c).
Proof.
  cbn zeta. revert script. induction n as [|n IH]; intros script.
  { exists []. cbn. split_and!; [done|lia|done|done|].
    by intros c a []%elem_of_nil. }
  destruct script as [|o script].
  { exists []. cbn. split_and!; [done|lia|done|done|].
    by intros c a []%elem_of_nil. }
  cbn [accept_loop]. destruct o as [conn address|e].
  - destruct (make_connection protocol_factory make_transport ssl
                wrap_outcome conn) as [e|] eqn:Hmake.
    + exists [Accepted conn address]. cbn. rewrite Hmake.
      split_and!; [done|lia|done| |].
      * intros e' H. inversion H; subst e'. right. by exists conn.
      * intros c a Hin Hc. apply list_elem_of_singleton in Hin.
        inversion Hin; subst. by rewrite Hmake.
    + destruct (IH script)
        as (consumed & Hs & Hlen & Hmade & Hraised & Hfailed).
      exists (Accepted conn address :: consumed).
      cbn [batch_rest batch_events batch_raised].
      split_and!.
      * cbn. by f_equal.
      * cbn. lia.
      * cbn. by rewrite Hmake, Hmade.
      * intros e He. destruct (Hraised e He) as [H|H]; [|by right].
        left. by apply list_elem_of_further.
      * intros c a Hin Hc. apply elem_of_cons in Hin as [Hin|Hin].
        { inversion Hin; subst. by rewrite Hmake in Hc. }
        destruct (Hfailed c a Hin Hc) as (Hlast & Hr).
        split; [by rewrite last_cons, Hlast|done].
  - destruct (is_socket_error e).
    + destruct (try_read_again TRY_READ_AGAIN e).
      { exists [AcceptRaise e]. cbn. split_and!; [done|lia|done|done|].
        intros c a Hin. apply list_elem_of_singleton in Hin. done. }
      destruct (is_eperm EPERM e).
      { destruct (IH script)
          as (consumed & Hs & Hlen & Hmade & Hraised & Hfailed).
        exists (AcceptRaise e :: consumed).
        split_and!.
        - cbn. by f_equal.
        - cbn. lia.
        - done.
        - intros e' He'. destruct (Hraised e' He') as [H|H]; [|by right].
          left. by apply list_elem_of_further.
        - intros c a Hin Hc. apply elem_of_cons in Hin as [Hin|Hin];
            [done|].
          destruct (Hfailed c a Hin Hc) as (Hlast & Hr).
          split; [by rewrite last_cons, Hlast|done]. }
      destruct (accept_error ACCEPT_ERRORS e).
      { exists [AcceptRaise e]. cbn. split_and!; [done|lia|done|done|].
        intros c a Hin. apply list_elem_of_singleton in Hin. done. }
      exists [AcceptRaise e]. cbn. split_and!; [done|lia|done| |].
      * intros e' He'. inversion He'. left. apply list_elem_of_here.
      * intros c a Hin. apply list_elem_of_singleton in Hin. done.
    + exists [AcceptRaise e]. cbn. split_and!; [done|lia|done| |].
      * intros e' He'. inversion He'. left. apply list_elem_of_here.
      * intros c a Hin. apply list_elem_of_singleton in Hin. done.
Qed.

(** One call of [sock_accept_connection] on a socket and with factories
    that raise only [Exception]s. *)
Lemma sock_accept_connection_outcome (NUMBER_ACCEPTS : nat) (ssl : bool)
    (wrap_outcome : option exn) (script : list accept_outcome) :
  let building := make_connection protocol_factory make_transport ssl
                    wrap_outcome in
  (∀ e, AcceptRaise e ∈ script → is_Exception e = true) →
  (∀ c e, building c = Some e → is_Exception e = true) →
  let r := sock_accept_connection TRY_READ_AGAIN EPERM ACCEPT_ERRORS
             NUMBER_ACCEPTS protocol_factory make_transport ssl wrap_outcome
             script in
  batch_raised r = None
  ∧ ∃ consumed,
      script = consumed ++ batch_rest r
      ∧ length consumed ≤ NUMBER_ACCEPTS
      ∧ omap made (batch_events r)
        = omap (λ o, match o with
                     | Accepted c a =>
                         match building c with
                         | None => Some (c, a)
                         | Some _ => None
                         end
                     | AcceptRaise _ => None
                     end) consumed
      ∧ (∀ c a, Accepted c a ∈ consumed → building c ≠ None →
                last consumed = Some (Accepted c a)
                ∧ last (batch_events r)
                  = Some (LogException "Could not accept new connection")).
Proof.
  cbn zeta. intros Hexc Hbuild. unfold sock_accept_connection.
  destruct (accept_loop_batch ssl wrap_outcome NUMBER_ACCEPTS script)
    as (consumed & Hs & Hlen & Hmade & Hraised & Hfailed).
  destruct (batch_raised _) as [e|] eqn:Hr.
  - assert (He : is_Exception e = true).
    { destruct (Hraised e eq_refl) as [H|[c H]]; [by apply Hexc|].
      by eapply Hbuild. }
    rewrite He. cbn. split; [done|]. exists consumed.
    split_and!; [done..| |].
    + rewrite omap_app. cbn. by rewrite app_nil_r.
    + intros c a Hin Hc. split; [by apply (Hfailed c a)|].
      by rewrite last_snoc.
  - split; [done|]. exists consumed. split_and!; [done..|].
    intros c a Hin Hc. destruct (Hfailed c a Hin Hc) as (_ & Hb).
    destruct (make_connection _ _ _ _ c); done.
Qed.

End AcceptFacts.

(** X16: [sock_accept] never loses the outcome of an accept.  Called with a
    [fileno] that returns, without a future or with a pending one that was
    not cancelled, on a socket whose [accept] first raises [EPERM] any
    number of times, it tries again at once each time and lets nothing
    out.  What comes next decides how it ends: an accepted connection is
    made non-blocking and is what the future is called back with; an error
    that is an [Exception] and not one to try again is what the future is
    called back with; and when the socket would block the future stays
    pending and the socket is registered for reading again.  A [fileno]
    that raises comes before the [try]: its exception gets out and nothing
    is done. *)
Theorem sock_accept_resolves_or_waits (TRY_READ_AGAIN : list Z) (EPERM : Z)
    (fd : nat) (eperms : list exn) (tail : list Stream.accept_outcome)
    (future : option Stream.deferred) :
  (∀ f, future = Some f →
        Stream.called f = None ∧ Stream.cancelled f = false) →
  Forall (λ e, Stream.retried TRY_READ_AGAIN EPERM e = true) eperms →
  match tail with
  | Stream.AcceptRaise e :: _ =>
      is_Exception e = true ∧ Stream.retried TRY_READ_AGAIN EPERM e = false
  | _ => True
  end →
  let script := (Stream.AcceptRaise <$> eperms) ++ tail in
  let pending := default (Stream.mkDeferred false None) future in
  let r := Stream.sock_accept TRY_READ_AGAIN EPERM (Ret fd) script future in
  (Stream.accept_raised r = None
   ∧ match tail with
     | [] =>
         Stream.accept_rest r = [] ∧ Stream.accept_future r = pending
         ∧ last (Stream.accept_events r) = Some (Stream.ReaderAdded fd)
     | Stream.Accepted conn address :: rest =>
         Stream.accept_rest r = rest
         ∧ Stream.called (Stream.accept_future r)
           = Some (Ret (conn, address))
         ∧ Stream.NonBlocking conn ∈ Stream.accept_events r
     | Stream.AcceptRaise e :: rest =>
         Stream.accept_rest r = rest
         ∧ if is_socket_error e && Stream.try_read_again TRY_READ_AGAIN e
           then Stream.accept_future r = pending
                ∧ last (Stream.accept_events r)
                  = Some (Stream.ReaderAdded fd)
           else Stream.called (Stream.accept_future r) = Some (Raise e)
     end)
  ∧ ∀ e, let r := Stream.sock_accept TRY_READ_AGAIN EPERM (Raise e) script
                    future in
         Stream.accept_raised r = Some e
         ∧ Stream.accept_events r = []
         ∧ Stream.accept_rest r = script
         ∧ Stream.accept_future r = pending.
Proof.
  intros Hfuture Hretried Htail. cbn zeta. split.
  - apply (sock_accept_outcome TRY_READ_AGAIN EPERM fd eperms tail future);
      try done; destruct future as [f|]; try done; by apply Hfuture.
  - intros e. by destruct eperms, tail.
Qed.

Lemma sock_accept_resolves_or_waits_witness :
  let eperm := socket_error (Some 1%Z) "Operation not permitted" in
  let script :=
    (Stream.AcceptRaise <$> [eperm; eperm])
    ++ [Stream.Accepted 7 "('10.0.0.1', 5000)"; Stream.Accepted 8 "b"] in
  let pending := default (Stream.mkDeferred false None) None in
  let r := Stream.sock_accept [11%Z] 1 (Ret 3) script None in
  (Stream.accept_raised r = None
   ∧ (Stream.accept_rest r = [Stream.Accepted 8 "b"]
      ∧ Stream.called (Stream.accept_future r)
        = Some (Ret (7, "('10.0.0.1', 5000)"))
      ∧ Stream.NonBlocking 7 ∈ Stream.accept_events r))
  ∧ ∀ e, let r := Stream.sock_accept [11%Z] 1 (Raise e) script None in
         Stream.accept_raised r = Some e
         ∧ Stream.accept_events r = []
         ∧ Stream.accept_rest r = script
         ∧ Stream.accept_future r = pending.
Proof.
  intros eperm script pending.
  apply (sock_accept_resolves_or_waits [11%Z] 1 3 [eperm; eperm]
           [Stream.Accepted 7 "('10.0.0.1', 5000)"; Stream.Accepted 8 "b"]
           None); [done|by repeat constructor|done].
Defined.

(** X17: one call of [sock_accept_connection] without [ssl], on a socket
    and with a protocol factory and a transport constructor that raise only
    [Exception]s, lets nothing out and takes at most [NUMBER_ACCEPTS]
    outcomes from the listening socket.  It makes one transport for each
    connection accepted among them whose protocol and transport could be
    built, in the order of acceptance; a connection for which one of them
    raised is the last it takes, gets no transport, and the failure is
    logged. *)
Theorem sock_accept_connection_batch (TRY_READ_AGAIN : list Z) (EPERM : Z)
    (ACCEPT_ERRORS : list Z) (NUMBER_ACCEPTS : nat)
    (protocol_factory make_transport : nat → option exn)
    (script : list Stream.accept_outcome) :
  (∀ e, Stream.AcceptRaise e ∈ script → is_Exception e = true) →
  (∀ c e, protocol_factory c = Some e → is_Exception e = true) →
  (∀ c e, make_transport c = Some e → is_Exception e = true) →
  let building := Stream.make_connection protocol_factory make_transport
                    false None in
  let r := Stream.sock_accept_connection TRY_READ_AGAIN EPERM ACCEPT_ERRORS
             NUMBER_ACCEPTS protocol_factory make_transport false None
             script in
  Stream.batch_raised r = None
  ∧ ∃ consumed,
      script = consumed ++ Stream.batch_rest r
      ∧ length consumed ≤ NUMBER_ACCEPTS
      ∧ omap Stream.made (Stream.batch_events r)
        = omap (λ o, match o with
                     | Stream.Accepted c a =>
                         match building c with
                         | None => Some (c, a)
                         | Some _ => None
                         end
                     | Stream.AcceptRaise _ => None
                     end) consumed
      ∧ (∀ c a, Stream.Accepted c a ∈ consumed → building c ≠ None →
                last consumed = Some (Stream.Accepted c a)
                ∧ last (Stream.batch_events r)
                  = Some (Stream.LogException
                            "Could not accept new connection")).
Proof.
  intros Hexc Hfactory Htransport.
  apply (sock_accept_connection_outcome TRY_READ_AGAIN EPERM ACCEPT_ERRORS
           protocol_factory make_transport NUMBER_ACCEPTS false None script
           Hexc).
  intros c e. unfold Stream.make_connection.
  destruct (protocol_factory c) as [e'|] eqn:Hf.
  - intros H. inversion H; subst e'. by eapply Hfactory.
  - by apply Htransport.
Qed.

Lemma sock_accept_connection_batch_witness :
  let script :=
    [Stream.Accepted 7 "a";
     Stream.AcceptRaise (socket_error (Some 1%Z) "Operation not permitted");
     Stream.Accepted 8 "b"; Stream.Accepted 9 "c"] in
  let protocol_factory : nat → option exn :=
    λ c, if c =? 8 then Some (TypeError "bad protocol") else None in
  let make_transport : nat → option exn := λ _, None in
  let building := Stream.make_connection protocol_factory make_transport
                    false None in
  let r := Stream.sock_accept_connection [11%Z] 1 [24%Z] 5 protocol_factory
             make_transport false None script in
  Stream.batch_raised r = None
  ∧ ∃ consumed,
      script = consumed ++ Stream.batch_rest r
      ∧ length consumed ≤ 5
      ∧ omap Stream.made (Stream.batch_events r)
        = omap (λ o, match o with
                     | Stream.Accepted c a =>
                         match building c with
                         | None => Some (c, a)
                         | Some _ => None
                         end
                     | Stream.AcceptRaise _ => None
                     end) consumed
      ∧ (∀ c a, Stream.Accepted c a ∈ consumed → building c ≠ None →
                last consumed = Some (Stream.Accepted c a)
                ∧ last (Stream.batch_events r)
                  = Some (Stream.LogException
                            "Could not accept new connection")).
Proof.
  intros script protocol_factory make_transport.
  apply (sock_accept_connection_batch [11%Z] 1 [24%Z] 5 protocol_factory
           make_transport script).
  - intros e He. repeat (apply elem_of_cons in He as [He|He];
                         [by inversion He|]).
    by apply elem_of_nil in He.
  - intros c e. subst protocol_factory. cbn beta.
    destruct (c =? 8); intros H; by inversion H.
  - intros c e H. inversion H.
Defined.

(** X18: with [ssl] set, [sock_accept_connection] makes no transport at all:
    building a [SocketStreamSslTransport] always raises, since its
    constructor passes on [loop], a name bound nowhere.  On a socket that
    raises only [Exception]s, with a protocol factory and a socket wrapper
    that raise nothing else, the first connection accepted is the last
    outcome the call takes: the failure to build its transport ends the
    batch and is logged, and nothing is raised. *)
Theorem sock_accept_connection_ssl_makes_nothing (TRY_READ_AGAIN : list Z)
    (EPERM : Z) (ACCEPT_ERRORS : list Z) (NUMBER_ACCEPTS : nat)
    (protocol_factory make_transport : nat → option exn)
    (wrap_outcome : option exn) (script : list Stream.accept_outcome) :
  (∀ e, Stream.AcceptRaise e ∈ script → is_Exception e = true) →
  (∀ c e, protocol_factory c = Some e → is_Exception e = true) →
  (∀ e, wrap_outcome = Some e → is_Exception e = true) →
  let r := Stream.sock_accept_connection TRY_READ_AGAIN EPERM ACCEPT_ERRORS
             NUMBER_ACCEPTS protocol_factory make_transport true wrap_outcome
             script in
  (∃ e, Stream.SocketStreamSslTransport_init wrap_outcome = Raise e)
  ∧ (∀ conn addr, Stream.TransportMade conn addr ∉ Stream.batch_events r)
  ∧ Stream.batch_raised r = None
  ∧ ∃ consumed,
      script = consumed ++ Stream.batch_rest r
      ∧ ∀ c a, Stream.Accepted c a ∈ consumed →
               last consumed = Some (Stream.Accepted c a)
               ∧ last (Stream.batch_events r)
                 = Some (Stream.LogException
                           "Could not accept new connection").
Proof.
  intros Hexc Hfactory Hwrap.
  assert (Hinit : ∃ e, Stream.SocketStreamSslTransport_init wrap_outcome
                       = Raise e
                       ∧ is_Exception e = true).
  { unfold Stream.SocketStreamSslTransport_init.
    replace (name_bound Stream.module_globals "loop") with false
      by (by vm_compute).
    destruct wrap_outcome as [e|]; eexists; split; try done.
    by apply Hwrap. }
  destruct Hinit as (e0 & Hinit & He0).
  assert (Hbuild : ∀ c, ∃ e,
            Stream.make_connection protocol_factory make_transport true
              wrap_outcome c = Some e ∧ is_Exception e = true).
  { intros c. unfold Stream.make_connection.
    destruct (protocol_factory c) as [e|] eqn:Hf.
    - exists e. split; [done|]. by eapply Hfactory.
    - rewrite Hinit. by exists e0. }
  destruct (sock_accept_connection_outcome TRY_READ_AGAIN EPERM ACCEPT_ERRORS
              protocol_factory make_transport NUMBER_ACCEPTS true
              wrap_outcome script Hexc)
    as (Hraised & consumed & Hs & Hlen & Hmade & Hfailed).
  { intros c e H. destruct (Hbuild c) as (e' & He' & Hexc').
    rewrite He' in H. by inversion H; subst. }
  cbn zeta. split; [by exists e0|]. split; [|split; [done|]].
  - intros conn addr Hin.
    assert (Hnone : omap Stream.made
                      (Stream.batch_events
                         (Stream.sock_accept_connection TRY_READ_AGAIN EPERM
                            ACCEPT_ERRORS NUMBER_ACCEPTS protocol_factory
                            make_transport true wrap_outcome script)) = []).
    { rewrite Hmade. clear -Hbuild.
      induction consumed as [|[c a|e] consumed IH]; [done| |done].
      cbn. destruct (Hbuild c) as (e & -> & _). done. }
    assert (Hmem : (conn, addr)
                   ∈ omap Stream.made
                       (Stream.batch_events
                          (Stream.sock_accept_connection TRY_READ_AGAIN
                             EPERM ACCEPT_ERRORS NUMBER_ACCEPTS
                             protocol_factory make_transport true
                             wrap_outcome script))).
    { apply list_elem_of_omap. by eexists. }
    rewrite Hnone in Hmem. by apply elem_of_nil in Hmem.
  - exists consumed. split; [done|]. intros c a Hin.
    apply (Hfailed c a Hin). destruct (Hbuild c) as (e & -> & _). done.
Qed.

Lemma sock_accept_connection_ssl_makes_nothing_witness :
  let script :=
    [Stream.AcceptRaise (socket_error (Some 1%Z) "Operation not permitted");
     Stream.Accepted 7 "a"; Stream.Accepted 8 "b"] in
  let r := Stream.sock_accept_connection [11%Z] 1 [24%Z] 5 (λ _, None)
             (λ _, None) true None script in
  (∃ e, Stream.SocketStreamSslTransport_init None = Raise e)
  ∧ (∀ conn addr, Stream.TransportMade conn addr ∉ Stream.batch_events r)
  ∧ Stream.batch_raised r = None
  ∧ ∃ consumed,
      script = consumed ++ Stream.batch_rest r
      ∧ ∀ c a, Stream.Accepted c a ∈ consumed →
               last consumed = Some (Stream.Accepted c a)
               ∧ last (Stream.batch_events r)
                 = Some (Stream.LogException
                           "Could not accept new connection").
Proof.
  intros script.
  apply (sock_accept_connection_ssl_makes_nothing [11%Z] 1 [24%Z] 5
           (λ _, None) (λ _, None) None script).
  - intros e He. repeat (apply elem_of_cons in He as [He|He];
                         [by inversion He|]).
    by apply elem_of_nil in He.
  - intros c e H. inversion H.
  - intros e H. inversion H.
Defined.

(** X26: a connection in progress completes.  When [sock.connect] would
    block, [sock_connect] registers itself as the writer of the socket and
    returns a pending future; when the event loop calls back with that
    future, the writer is removed, nothing is raised, and the future is
    called back: with [None] if [SO_ERROR] is 0, and otherwise with the
    [socket.error] of that code, ['Connect call failed']. *)
Theorem sock_connect_in_progress_completes (TRY_WRITE_AGAIN : list Z)
    (fd : nat) (errno : Z) (strerror : string) (later : option exn)
    (unread : result Z) (err : Z) :
  errno ∈ TRY_WRITE_AGAIN →
  let first :=
    Stream.sock_connect TRY_WRITE_AGAIN (Ret fd)
      (Some (socket_error (Some errno) strerror)) unread None in
  let second :=
    Stream.sock_connect TRY_WRITE_AGAIN (Ret fd) later (Ret err)
      (Some (Stream.conn_future first)) in
  Stream.conn_result first = Ret Stream.ReturnFuture
  ∧ Stream.conn_events first = [Stream.WriterAdded fd]
  ∧ Stream.connect_called (Stream.conn_future first) = None
  ∧ Stream.conn_events second = [Stream.WriterRemoved fd]
  ∧ (∃ v, Stream.conn_result second = Ret v)
  ∧ Stream.connect_called (Stream.conn_future second)
    = Some (if decide (err = 0%Z) then Ret tt
            else Raise (socket_error (Some err) "Connect call failed")).
Proof.
  intros Hin. cbn zeta.
  assert (Hfirst :
    Stream.sock_connect TRY_WRITE_AGAIN (Ret fd)
      (Some (socket_error (Some errno) strerror)) unread None
    = Stream.Connecting (Stream.mkConnectDeferred false None)
        [Stream.WriterAdded fd] (Ret Stream.ReturnFuture)).
  { unfold Stream.sock_connect.
    cbn [is_socket_error Stream.try_write_again andb].
    by rewrite bool_decide_eq_true_2. }
  rewrite Hfirst. clear Hfirst.
  cbn [Stream.conn_result Stream.conn_events Stream.conn_future].
  unfold Stream.sock_connect. cbn [Stream.connect_cancelled].
  destruct (decide (err = 0%Z)) as [->|Hne].
  - cbn. repeat split; try done. by eexists.
  - rewrite bool_decide_eq_true_2 by done. cbn. repeat split; try done.
    by eexists.
Qed.

Lemma sock_connect_in_progress_completes_witness :
  let first :=
    Stream.sock_connect [115%Z; 11%Z] (Ret 5)
      (Some (socket_error (Some 115%Z) "Operation now in progress"))
      (Ret 0%Z) None in
  let second :=
    Stream.sock_connect [115%Z; 11%Z] (Ret 5) None (Ret 111%Z)
      (Some (Stream.conn_future first)) in
  Stream.conn_result first = Ret Stream.ReturnFuture
  ∧ Stream.conn_events first = [Stream.WriterAdded 5]
  ∧ Stream.connect_called (Stream.conn_future first) = None
  ∧ Stream.conn_events second = [Stream.WriterRemoved 5]
  ∧ (∃ v, Stream.conn_result second = Ret v)
  ∧ Stream.connect_called (Stream.conn_future second)
    = Some (if decide (111%Z = 0%Z) then Ret tt
            else Raise (socket_error (Some 111%Z) "Connect call failed")).
Proof.
  apply (sock_connect_in_progress_completes [115%Z; 11%Z] 5 115
           "Operation now in progress" None (Ret 0%Z) 111).
  apply list_elem_of_here.
Defined.

(** X27: the only exception [sock_connect] lets out is one of
    [sock.fileno()], which it calls before the [try]: then nothing else is
    done.  When [fileno] returns, on a socket whose [connect] and
    [getsockopt] raise only [Exception]s, called without a future or with a
    pending one, it returns normally; it removes the writer exactly when it
    is the event loop's call back; and it ends in one of four ways: the
    future was called back, or the socket is registered for writing and the
    future returned, or the future had been cancelled, or -- on the first
    call -- the socket connected at once, and then it returns [None] and
    the future it made stays pending. *)
Theorem sock_connect_lets_no_exception_out (TRY_WRITE_AGAIN : list Z)
    (fileno : result nat) (connect_raises : option exn) (so_error : result Z)
    (future : option Stream.connect_deferred) :
  (∀ e, connect_raises = Some e → is_Exception e = true) →
  (∀ e, so_error = Raise e → is_Exception e = true) →
  (∀ f, future = Some f → Stream.connect_called f = None) →
  let r := Stream.sock_connect TRY_WRITE_AGAIN fileno connect_raises so_error
             future in
  match fileno with
  | Raise e =>
      Stream.conn_result r = Raise e
      ∧ Stream.conn_events r = []
      ∧ Stream.conn_future r
        = default (Stream.mkConnectDeferred false None) future
  | Ret fd =>
      (∃ v, Stream.conn_result r = Ret v)
      ∧ (Stream.WriterRemoved fd ∈ Stream.conn_events r ↔ is_Some future)
      ∧ (is_Some (Stream.connect_called (Stream.conn_future r))
         ∨ (Stream.conn_events r = [Stream.WriterAdded fd]
            ∧ Stream.conn_result r = Ret Stream.ReturnFuture
            ∧ future = None)
         ∨ (∃ f, future = Some f ∧ Stream.connect_cancelled f = true
                 ∧ Stream.conn_future r = f)
         ∨ (future = None ∧ connect_raises = None
            ∧ Stream.conn_result r = Ret Stream.ReturnNone
            ∧ Stream.connect_called (Stream.conn_future r) = None))
  end.
Proof.
  intros Hconnect Hopt Hpending. cbn zeta.
  unfold Stream.sock_connect.
  destruct fileno as [fd|e0]; [|done].
  destruct future as [f|].
  - specialize (Hpending f eq_refl). unfold Stream.connect_failed.
    destruct (Stream.connect_cancelled f) eqn:Hc.
    + cbn. split; [by eexists|]. split.
      * split; [by eexists|]. intros _. apply list_elem_of_here.
      * right. right. left. by exists f.
    + assert (Hrem : Stream.WriterRemoved fd ∈ [Stream.WriterRemoved fd]
                     ↔ is_Some (Some f)).
      { split; [by eexists|]. intros _. apply list_elem_of_here. }
      destruct so_error as [err|e].
      * destruct (bool_decide (err ≠ 0%Z)).
        -- cbn [is_Exception]. unfold Stream.connect_callback.
           rewrite Hpending. cbn. split; [by eexists|]. split; [done|].
           left. by eexists.
        -- unfold Stream.connect_callback. rewrite Hpending. cbn.
           split; [by eexists|]. split; [done|]. left. by eexists.
      * rewrite (Hopt e eq_refl). unfold Stream.connect_callback.
        rewrite Hpending. cbn. split; [by eexists|]. split; [done|].
        left. by eexists.
  - assert (Hrem : ∀ evs, evs = [] ∨ evs = [Stream.WriterAdded fd] →
              Stream.WriterRemoved fd ∈ evs
              ↔ is_Some (@None Stream.connect_deferred)).
    { intros evs [-> | ->]; split; intros H.
      - by apply elem_of_nil in H.
      - by destruct H.
      - apply list_elem_of_singleton in H. by inversion H.
      - by destruct H. }
    destruct connect_raises as [e|].
    + assert (Hfailed :
        let r := Stream.connect_failed e (Stream.mkConnectDeferred false None)
                   [] in
        (∃ v, Stream.conn_result r = Ret v)
        ∧ Stream.conn_events r = []
        ∧ is_Some (Stream.connect_called (Stream.conn_future r))).
      { unfold Stream.connect_failed. rewrite (Hconnect e eq_refl). cbn.
        split; [by eexists|]. split; [done|]. by eexists. }
      cbn zeta in Hfailed. destruct Hfailed as (Hret & Hevs & Hcalled).
      destruct (is_socket_error e);
        [destruct (Stream.try_write_again TRY_WRITE_AGAIN e)|].
      * cbn. split; [by eexists|]. split; [apply Hrem; by right|].
        right. by left.
      * split; [done|]. split; [apply Hrem; by left|]. by left.
      * split; [done|]. split; [apply Hrem; by left|]. by left.
    + cbn. split; [by eexists|]. split; [apply Hrem; by left|].
      right. right. by right.
Qed.

Lemma sock_connect_lets_no_exception_out_witness :
  let refused := socket_error (Some 111%Z) "Connection refused" in
  let r := Stream.sock_connect [115%Z; 11%Z] (Ret 5) (Some refused) (Ret 0%Z)
             None in
  (∃ v, Stream.conn_result r = Ret v)
  ∧ (Stream.WriterRemoved 5 ∈ Stream.conn_events r
     ↔ is_Some (@None Stream.connect_deferred))
  ∧ (is_Some (Stream.connect_called (Stream.conn_future r))
     ∨ (Stream.conn_events r = [Stream.WriterAdded 5]
        ∧ Stream.conn_result r = Ret Stream.ReturnFuture
        ∧ @None Stream.connect_deferred = None)
     ∨ (∃ f, None = Some f ∧ Stream.connect_cancelled f = true
             ∧ Stream.conn_future r = f)
     ∨ (@None Stream.connect_deferred = None ∧ Some refused = None
        ∧ Stream.conn_result r = Ret Stream.ReturnNone
        ∧ Stream.connect_called (Stream.conn_future r) = None)).
Proof.
  intros refused.
  apply (sock_connect_lets_no_exception_out [115%Z; 11%Z] (Ret 5)
           (Some refused) (Ret 0%Z) None).
  - intros e He. by inversion He.
  - intros e He. inversion He.
  - intros f Hf. inversion Hf.
Defined.

(** * Further properties of the mailbox *)

(** What [_on_message] does with a callback whose token has a pending
    placeholder in the table. *)
Lemma on_message_callback_pending
    (dispatch_command : Mailbox.envelope → gmap string nat → Mailbox.world →
                        result unit * gmap string nat * Mailbox.world)
    (message : Mailbox.envelope) (token : string) (f : nat)
    (pending : gmap string nat) (w : Mailbox.world) :
  Mailbox.command message = Some "callback" →
  Mailbox.ack message = Some token → token ≠ "" →
  pending !! token = Some f → Mailbox.futures w !! f = Some None →
  Mailbox._on_message dispatch_command message pending w
  = (Ret tt, delete token pending,
     Mailbox.World
       (<[f := Some (default Mailbox.PyNone (Mailbox.result_ message))]>
          (Mailbox.futures w))
       (Mailbox.next_future w) (Mailbox.uid_calls w) (Mailbox.is_running w)
       (Mailbox.write_outcomes w) (Mailbox.writes w)).
Proof.
  intros Hcb Hack Hne Htok Hfut.
  unfold Mailbox._on_message. rewrite Hcb, bool_decide_eq_true_2 by done.
  rewrite Hack. destruct token as [|c token]; [done|].
  cbn [Mailbox.falsy default from_option id]. rewrite Htok.
  unfold Mailbox.Deferred_callback. by rewrite Hfut.
Qed.

(** What it does with a callback whose token is not in the table. *)
Lemma on_message_callback_unknown
    (dispatch_command : Mailbox.envelope → gmap string nat → Mailbox.world →
                        result unit * gmap string nat * Mailbox.world)
    (message : Mailbox.envelope) (token : string)
    (pending : gmap string nat) (w : Mailbox.world) :
  Mailbox.command message = Some "callback" →
  Mailbox.ack message = Some token → token ≠ "" →
  pending !! token = None →
  Mailbox._on_message dispatch_command message pending w
  = (Raise (KeyError ("Callback " +:+ token +:+ " not in pending callbacks")),
     pending, w).
Proof.
  intros Hcb Hack Hne Htok.
  unfold Mailbox._on_message. rewrite Hcb, bool_decide_eq_true_2 by done.
  rewrite Hack. destruct token as [|c token]; [done|].
  cbn [Mailbox.falsy default from_option id]. by rewrite Htok.
Qed.

(** X19: a callback envelope whose token has a pending placeholder in the
    correlation table resolves that placeholder with the result it carries
    ([None] when it carries none) and removes the entry; every other entry
    of the table and every other placeholder is left as it was, and nothing
    is written. *)
Theorem callback_resolves_placeholder
    (dispatch_command : Mailbox.envelope → gmap string nat → Mailbox.world →
                        result unit * gmap string nat * Mailbox.world)
    (message : Mailbox.envelope) (token : string) (f : nat)
    (pending : gmap string nat) (w : Mailbox.world) :
  Mailbox.command message = Some "callback" →
  Mailbox.ack message = Some token → token ≠ "" →
  pending !! token = Some f → Mailbox.futures w !! f = Some None →
  let out := Mailbox._on_message dispatch_command message pending w in
  out.1.1 = Ret tt
  ∧ out.1.2 = delete token pending
  ∧ Mailbox.futures out.2 !! f
    = Some (Some (default Mailbox.PyNone (Mailbox.result_ message)))
  ∧ (∀ token', token' ≠ token → out.1.2 !! token' = pending !! token')
  ∧ (∀ f', f' ≠ f → Mailbox.futures out.2 !! f' = Mailbox.futures w !! f')
  ∧ Mailbox.writes out.2 = Mailbox.writes w.
Proof.
  intros Hcb Hack Hne Htok Hfut. cbn zeta.
  rewrite (on_message_callback_pending dispatch_command message token f
             pending w Hcb Hack Hne Htok Hfut).
  cbn. repeat split.
  - apply lookup_insert_eq.
  - intros token' Hne'. by apply lookup_delete_ne.
  - intros f' Hne'. by apply lookup_insert_ne.
Qed.

Lemma callback_resolves_placeholder_witness :
  let dispatch := λ (_ : Mailbox.envelope) (p : gmap string nat)
                    (w : Mailbox.world), (Ret tt, p, w) in
  let message := Mailbox.Envelope (Some "callback") None None None None
                   (Some "01234567") (Some (Mailbox.PyStr "pong")) in
  let pending : gmap string nat := {["01234567" := 0]} in
  let w := Mailbox.World {[0 := None]} 1 1 true [] [] in
  let out := Mailbox._on_message dispatch message pending w in
  out.1.1 = Ret tt
  ∧ out.1.2 = delete "01234567" pending
  ∧ Mailbox.futures out.2 !! 0
    = Some (Some (default Mailbox.PyNone (Mailbox.result_ message)))
  ∧ (∀ token', token' ≠ "01234567" → out.1.2 !! token' = pending !! token')
  ∧ (∀ f', f' ≠ 0 → Mailbox.futures out.2 !! f' = Mailbox.futures w !! f')
  ∧ Mailbox.writes out.2 = Mailbox.writes w.
Proof.
  intros dispatch message pending w.
  apply (callback_resolves_placeholder dispatch message "01234567" 0
           pending w); done.
Defined.

(** X20: a placeholder is resolved at most once.  After a callback has
    resolved it, the same callback delivered again raises [KeyError] and
    changes nothing: the placeholder keeps the first result. *)
Theorem callback_twice_raises
    (dispatch_command : Mailbox.envelope → gmap string nat → Mailbox.world →
                        result unit * gmap string nat * Mailbox.world)
    (message : Mailbox.envelope) (token : string) (f : nat)
    (pending : gmap string nat) (w : Mailbox.world) :
  Mailbox.command message = Some "callback" →
  Mailbox.ack message = Some token → token ≠ "" →
  pending !! token = Some f → Mailbox.futures w !! f = Some None →
  let first := Mailbox._on_message dispatch_command message pending w in
  Mailbox._on_message dispatch_command message first.1.2 first.2
  = (Raise (KeyError ("Callback " +:+ token +:+ " not in pending callbacks")),
     first.1.2, first.2)
  ∧ Mailbox.futures first.2 !! f
    = Some (Some (default Mailbox.PyNone (Mailbox.result_ message))).
Proof.
  intros Hcb Hack Hne Htok Hfut. cbn zeta.
  rewrite (on_message_callback_pending dispatch_command message token f
             pending w Hcb Hack Hne Htok Hfut).
  cbn [fst snd]. split.
  - apply on_message_callback_unknown; [done..|]. apply lookup_delete_eq.
  - apply lookup_insert_eq.
Qed.

Lemma callback_twice_raises_witness :
  let dispatch := λ (_ : Mailbox.envelope) (p : gmap string nat)
                    (w : Mailbox.world), (Ret tt, p, w) in
  let message := Mailbox.Envelope (Some "callback") None None None None
                   (Some "01234567") (Some (Mailbox.PyStr "pong")) in
  let pending : gmap string nat := {["01234567" := 0]} in
  let w := Mailbox.World {[0 := None]} 1 1 true [] [] in
  let first := Mailbox._on_message dispatch message pending w in
  Mailbox._on_message dispatch message first.1.2 first.2
  = (Raise (KeyError ("Callback " +:+ "01234567" +:+
                      " not in pending callbacks")),
     first.1.2, first.2)
  ∧ Mailbox.futures first.2 !! 0
    = Some (Some (default Mailbox.PyNone (Mailbox.result_ message))).
Proof.
  intros dispatch message pending w.
  apply (callback_twice_raises dispatch message "01234567" 0 pending w);
    done.
Defined.

(** What an acknowledged request leaves when serializing and writing both
    succeed. *)
Lemma request_acked_sent
    (get_command : string → option Mailbox.Command)
    (actorid : Mailbox.pyval → Mailbox.pyval) (gen_unique_id : nat → string)
    (pickle_dumps : Mailbox.envelope → result bytes) (encode : bytes → bytes)
    (command_ : string) (sender_ target_ : Mailbox.pyval)
    (args_ kwargs_ : option Mailbox.pyval) (cmd : Mailbox.Command)
    (pending : gmap string nat) (w : Mailbox.world) (obj : bytes) :
  get_command command_ = Some cmd → Mailbox.ack_required cmd = true →
  let f := Mailbox.next_future w in
  let token := String.substring 0 8 (gen_unique_id (Mailbox.uid_calls w)) in
  pickle_dumps (Mailbox.command_data actorid cmd sender_ target_ args_
                  kwargs_ (Some token)) = Ret obj →
  (∀ e rest, Mailbox.write_outcomes w ≠ Some e :: rest) →
  Mailbox.MailboxProtocol_request get_command actorid gen_unique_id
    pickle_dumps encode command_ sender_ target_ args_ kwargs_ pending w
  = (Ret (Some f), <[token := f]> pending,
     Mailbox.World (<[f := None]> (Mailbox.futures w))
       (S (Mailbox.next_future w)) (S (Mailbox.uid_calls w))
       (Mailbox.is_running w) (tail (Mailbox.write_outcomes w))
       (Mailbox.writes w
        ++ [Mailbox.Written (encode obj) (<[token := f]> pending)])).
Proof.
  intros Hreg Hack f token Hpickle Hwrite.
  rewrite (request_acked_unfold get_command actorid gen_unique_id
             pickle_dumps encode command_ sender_ target_ args_ kwargs_ cmd
             pending w Hreg Hack).
  cbn zeta. unfold Mailbox._start, Mailbox._write.
  cbn [Mailbox.future Mailbox.data].
  change (Mailbox.ack (Mailbox.command_data _ _ _ _ _ _ (Some ?t)))
    with (Some t).
  cbv iota. subst token. rewrite Hpickle.
  unfold Mailbox.transport_write, Mailbox.after_command.
  cbn [Mailbox.write_outcomes Mailbox.futures Mailbox.next_future
       Mailbox.uid_calls Mailbox.is_running Mailbox.writes].
  destruct (Mailbox.write_outcomes w) as [|[e|] rest] eqn:Hout; [done| |done].
  by specialize (Hwrite e rest).
Qed.

(** X21: request and response meet.  When an acknowledged request has been
    sent under a token that is not empty and was not in the table, the
    callback that [Message.callback] builds for that token and a result,
    once received, resolves the very placeholder [request] returned with
    that result, and the correlation table is again what it was before the
    request. *)
Theorem request_then_callback_round_trip
    (get_command : string → option Mailbox.Command)
    (actorid : Mailbox.pyval → Mailbox.pyval) (gen_unique_id : nat → string)
    (pickle_dumps : Mailbox.envelope → result bytes) (encode : bytes → bytes)
    (dispatch_command : Mailbox.envelope → gmap string nat → Mailbox.world →
                        result unit * gmap string nat * Mailbox.world)
    (command_ : string) (sender_ target_ : Mailbox.pyval)
    (args_ kwargs_ : option Mailbox.pyval) (cmd : Mailbox.Command)
    (pending : gmap string nat) (w : Mailbox.world) (obj : bytes)
    (result__ : Mailbox.pyval) :
  get_command command_ = Some cmd → Mailbox.ack_required cmd = true →
  let token := String.substring 0 8 (gen_unique_id (Mailbox.uid_calls w)) in
  pickle_dumps (Mailbox.command_data actorid cmd sender_ target_ args_
                  kwargs_ (Some token)) = Ret obj →
  (∀ e rest, Mailbox.write_outcomes w ≠ Some e :: rest) →
  token ≠ "" → pending !! token = None →
  let sent := Mailbox.MailboxProtocol_request get_command actorid
                gen_unique_id pickle_dumps encode command_ sender_ target_
                args_ kwargs_ pending w in
  let answered := Mailbox._on_message dispatch_command
                    (Mailbox.data (Mailbox.Message_callback result__ token))
                    sent.1.2 sent.2 in
  ∃ f, sent.1.1 = Ret (Some f)
       ∧ Mailbox.futures sent.2 !! f = Some None
       ∧ answered.1.1 = Ret tt
       ∧ Mailbox.futures answered.2 !! f = Some (Some result__)
       ∧ answered.1.2 = pending.
Proof.
  intros Hreg Hack token Hpickle Hwrite Hne Hfresh. cbn zeta.
  rewrite (request_acked_sent get_command actorid gen_unique_id pickle_dumps
             encode command_ sender_ target_ args_ kwargs_ cmd pending w obj
             Hreg Hack Hpickle Hwrite).
  fold token. cbn [fst snd].
  exists (Mailbox.next_future w). split; [done|].
  split; [apply lookup_insert_eq|].
  rewrite (on_message_callback_pending dispatch_command _ token
             (Mailbox.next_future w)); [|done|done|done| |].
  - cbn. split; [done|]. split; [apply lookup_insert_eq|].
    by apply delete_insert_id.
  - apply lookup_insert_eq.
  - apply lookup_insert_eq.
Qed.

Lemma request_then_callback_round_trip_witness :
  let ping := Mailbox.mkCommand "ping" true
                (λ _ _ _, Ret (Mailbox.PyStr "pong")) in
  let dispatch := λ (_ : Mailbox.envelope) (p : gmap string nat)
                    (w : Mailbox.world), (Ret tt, p, w) in
  let w := Mailbox.World ∅ 0 0 true [] [] in
  let sent := Mailbox.MailboxProtocol_request (λ _, Some ping) id
                (λ _, "0123456789abcdef") (λ _, Ret (bs "ping")) id
                "ping" (Mailbox.PyStr "a") (Mailbox.PyStr "b") None None
                ∅ w in
  let answered := Mailbox._on_message dispatch
                    (Mailbox.data
                       (Mailbox.Message_callback (Mailbox.PyStr "pong")
                          "01234567"))
                    sent.1.2 sent.2 in
  ∃ f, sent.1.1 = Ret (Some f)
       ∧ Mailbox.futures sent.2 !! f = Some None
       ∧ answered.1.1 = Ret tt
       ∧ Mailbox.futures answered.2 !! f
         = Some (Some (Mailbox.PyStr "pong"))
       ∧ answered.1.2 = ∅.
Proof.
  intros ping dispatch w.
  apply (request_then_callback_round_trip (λ _, Some ping) id
           (λ _, "0123456789abcdef") (λ _, Ret (bs "ping")) id dispatch
           "ping" (Mailbox.PyStr "a") (Mailbox.PyStr "b") None None ping ∅ w
           (bs "ping") (Mailbox.PyStr "pong")); done.
Defined.

(** [_start] calls back no placeholder but the message's own. *)
Lemma _start_frame
    (pickle_dumps : Mailbox.envelope → result bytes) (encode : bytes → bytes)
    (req : Mailbox.Message) (pending : gmap string nat) (w : Mailbox.world)
    (f' : nat) :
  Mailbox.future req ≠ Some f' →
  Mailbox.futures (Mailbox._start pickle_dumps encode req pending w).2 !! f'
  = Mailbox.futures w !! f'.
Proof.
  intros Hother. unfold Mailbox._start.
  pose proof (_write_effect pickle_dumps encode req) as Hwrite.
  destruct (Mailbox.future req) as [f|].
  - destruct (Mailbox.ack (Mailbox.data req)) as [token|].
    + destruct (Hwrite (<[token := f]> pending) w) as (Hf & _).
      destruct (Mailbox._write _ _ _ _ _) as [[[]|e] w1]; simpl in *;
        [by rewrite Hf|].
      destruct (is_Exception e); simpl; [|by rewrite Hf].
      unfold Mailbox.Deferred_callback.
      destruct (Mailbox.futures w1 !! f) as [[v|]|]; simpl;
        try (by rewrite Hf).
      rewrite lookup_insert_ne by congruence. by rewrite Hf.
    + destruct (Hwrite pending w) as (Hf & _).
      destruct (Mailbox._write _ _ _ _ _) as [r w1]. simpl in *.
      by rewrite Hf.
  - destruct (Hwrite pending w) as (Hf & _).
    destruct (Mailbox._write _ _ _ _ _) as [r w1]. simpl in *.
    by rewrite Hf.
Qed.

(** X22: a request keeps to itself.  Whatever the command and whether or
    not the write succeeds, [MailboxProtocol.request] changes no placeholder
    other than the new one it may create, and no entry of the correlation
    table other than the one under the token it draws: pending requests are
    never resolved or dropped by a later request with a different token. *)
Theorem request_touches_only_its_own
    (get_command : string → option Mailbox.Command)
    (actorid : Mailbox.pyval → Mailbox.pyval) (gen_unique_id : nat → string)
    (pickle_dumps : Mailbox.envelope → result bytes) (encode : bytes → bytes)
    (command_ : string) (sender_ target_ : Mailbox.pyval)
    (args_ kwargs_ : option Mailbox.pyval)
    (pending : gmap string nat) (w : Mailbox.world) :
  let out := Mailbox.MailboxProtocol_request get_command actorid
               gen_unique_id pickle_dumps encode command_ sender_ target_
               args_ kwargs_ pending w in
  let token := String.substring 0 8 (gen_unique_id (Mailbox.uid_calls w)) in
  (∀ f', f' ≠ Mailbox.next_future w →
     Mailbox.futures out.2 !! f' = Mailbox.futures w !! f')
  ∧ (∀ token', token' ≠ token → out.1.2 !! token' = pending !! token').
Proof.
  cbn zeta. unfold Mailbox.MailboxProtocol_request, Mailbox.Message_command.
  destruct (get_command command_) as [cmd|]; [|done].
  destruct (Mailbox.ack_required cmd).
  - cbn [Mailbox.Deferred Mailbox.draw_token fst snd].
    set (req := Mailbox.mkMessage _ _). set (w1 := Mailbox.World _ _ _ _ _ _).
    pose proof (_start_frame pickle_dumps encode req pending w1) as Hframe.
    assert (Htable :
      (Mailbox._start pickle_dumps encode req pending w1).1.2
      = <[String.substring 0 8 (gen_unique_id (Mailbox.uid_calls w)) :=
           Mailbox.next_future w]> pending).
    { unfold Mailbox._start. subst req. cbn.
      destruct (Mailbox._write _ _ _ _ _) as [[[]|e] w2]; [done|].
      destruct (is_Exception e); [|done].
      by destruct (Mailbox.Deferred_callback _ _ _). }
    destruct (Mailbox._start _ _ _ _ _) as [[[[]|e] p] w2];
      cbn [fst snd] in *; subst p; split.
    all: try (intros f' Hf'; rewrite Hframe by (subst req; cbn; congruence);
              subst w1; cbn; by rewrite lookup_insert_ne).
    all: intros token' Ht'; by rewrite lookup_insert_ne.
  - set (req := Mailbox.mkMessage _ _).
    pose proof (_start_frame pickle_dumps encode req pending w) as Hframe.
    assert (Htable :
      (Mailbox._start pickle_dumps encode req pending w).1.2 = pending).
    { unfold Mailbox._start. subst req. cbn.
      by destruct (Mailbox._write _ _ _ _ _). }
    destruct (Mailbox._start _ _ _ _ _) as [[[[]|e] p] w2];
      cbn [fst snd] in *; subst p; split; try done.
    all: intros f' Hf'; by rewrite Hframe.
Qed.

(** X23: for a command that needs no acknowledgment a failure of the write
    is the caller's: the exception the transport raises is raised by
    [request] itself (only an [IOError] while the actor is not running is
    swallowed, and [request] then returns no placeholder); the correlation
    table is untouched either way. *)
Theorem unacked_write_failure_is_raised
    (get_command : string → option Mailbox.Command)
    (actorid : Mailbox.pyval → Mailbox.pyval) (gen_unique_id : nat → string)
    (pickle_dumps : Mailbox.envelope → result bytes) (encode : bytes → bytes)
    (command_ : string) (sender_ target_ : Mailbox.pyval)
    (args_ kwargs_ : option Mailbox.pyval) (cmd : Mailbox.Command)
    (pending : gmap string nat) (w : Mailbox.world) (obj : bytes) (e : exn)
    (rest : list (option exn)) :
  get_command command_ = Some cmd → Mailbox.ack_required cmd = false →
  pickle_dumps (Mailbox.command_data actorid cmd sender_ target_ args_
                  kwargs_ None) = Ret obj →
  Mailbox.write_outcomes w = Some e :: rest →
  let out := Mailbox.MailboxProtocol_request get_command actorid
               gen_unique_id pickle_dumps encode command_ sender_ target_
               args_ kwargs_ pending w in
  out.1.1 = (if is_IOError e && negb (Mailbox.is_running w)
             then Ret None else Raise e)
  ∧ out.1.2 = pending
  ∧ Mailbox.futures out.2 = Mailbox.futures w.
Proof.
  intros Hreg Hack Hpickle Hout. cbn zeta.
  unfold Mailbox.MailboxProtocol_request, Mailbox.Message_command.
  rewrite Hreg, Hack. unfold Mailbox._start, Mailbox._write.
  cbn [Mailbox.future Mailbox.data].
  change (Mailbox.ack (Mailbox.command_data _ _ _ _ _ _ None)) with
    (@None string).
  cbv iota. rewrite Hpickle. unfold Mailbox.transport_write. rewrite Hout.
  destruct (is_IOError e); [destruct (Mailbox.is_running w) eqn:Hrun|];
    cbn; rewrite ?Hrun; done.
Qed.

Lemma unacked_write_failure_is_raised_witness :
  let notify := Mailbox.mkCommand "notify" false
                  (λ _ _ _, Ret Mailbox.PyNone) in
  let w := Mailbox.World ∅ 0 0 true [Some (IOError "Transport is closed")]
             [] in
  let out := Mailbox.MailboxProtocol_request (λ _, Some notify) id
               (λ _, "0123456789abcdef") (λ _, Ret (bs "notify")) id
               "notify" (Mailbox.PyStr "a") (Mailbox.PyStr "b") None None
               ∅ w in
  out.1.1 = (if is_IOError (IOError "Transport is closed") && negb true
             then Ret None else Raise (IOError "Transport is closed"))
  ∧ out.1.2 = ∅
  ∧ Mailbox.futures out.2 = Mailbox.futures w.
Proof.
  intros notify w.
  apply (unacked_write_failure_is_raised (λ _, Some notify) id
           (λ _, "0123456789abcdef") (λ _, Ret (bs "notify")) id "notify"
           (Mailbox.PyStr "a") (Mailbox.PyStr "b") None None notify ∅ w
           (bs "notify") (IOError "Transport is closed") []); reflexivity.
Defined.

(** X24: a client that remembers a connection never dials: its [request] is
    the [request] of that connection, whatever the event loop's connector
    would do, and the client goes on remembering the connection, with the
    correlation table the request left. *)
Theorem client_request_uses_remembered_connection
    (get_command : string → option Mailbox.Command)
    (actorid : Mailbox.pyval → Mailbox.pyval) (gen_unique_id : nat → string)
    (pickle_dumps : Mailbox.envelope → result bytes) (encode : bytes → bytes)
    (create_connection : Mailbox.pyval → Mailbox.pyval → Mailbox.world →
                         result (gmap string nat) * Mailbox.world)
    (command_ : string) (sender_ target_ : Mailbox.pyval)
    (args_ kwargs_ : option Mailbox.pyval) (address_ : Mailbox.pyval)
    (pending : gmap string nat) (w : Mailbox.world) :
  let out := Mailbox.MailboxClient_request get_command actorid gen_unique_id
               pickle_dumps encode create_connection command_ sender_
               target_ args_ kwargs_
               (Mailbox.mkMailboxClient address_ (Some pending)) w in
  let via := Mailbox.MailboxProtocol_request get_command actorid
               gen_unique_id pickle_dumps encode command_ sender_ target_
               args_ kwargs_ pending w in
  out = (via.1.1, Mailbox.mkMailboxClient address_ (Some via.1.2), via.2).
Proof.
  pose proof (client_request_reuses_connection get_command actorid
                gen_unique_id pickle_dumps encode create_connection command_
                sender_ target_ args_ kwargs_ address_ pending w) as H.
  cbn zeta in *. destruct H as (H1 & H2 & H3).
  destruct (Mailbox.MailboxClient_request _ _ _ _ _ _ _ _ _ _ _ _ _)
    as [[r self'] w'] eqn:Hout.
  cbn [fst snd] in *. subst r w'. f_equal. f_equal.
  destruct self' as [a c]. cbn in H3. subst c. f_equal.
  unfold Mailbox.MailboxClient_request in Hout.
  cbn [Mailbox._connection Mailbox.address] in Hout.
  destruct (Mailbox.Message_command _ _ _ _ _ _ _ _ _) as [[req|e] w1];
    [|by inversion Hout].
  destruct (Mailbox._start _ _ _ _ _) as [[[[]|e] p] w2]; by inversion Hout.
Qed.

(** X25: proxies do not pile up.  A [ProxyMailbox] built from a mailbox of
    its own holds that mailbox, and so does a [ProxyMailbox] built from
    that proxy, and so on however long the chain of monitors: every proxy
    holds the owner's mailbox itself. *)
Theorem ProxyMailbox_holds_owner (n : nat)
    (attributes : string → option Mailbox.pyval) :
  Nat.iter n Mailbox.ProxyMailbox_init
    (Mailbox.ProxyMailbox_init (Mailbox.OwnedMailbox attributes))
  = Mailbox.ProxyMailbox (Mailbox.OwnedMailbox attributes).
Proof.
  induction n as [|n IH]; [done|]. by rewrite Nat.iter_succ, IH.
Qed.
